(** * Shared-domains state overlay and verkle tree writer: a shallow embedding

    The first part embeds [SharedDomains] (package [state]): the in-memory
    overlay over the temporal key/value store, its put/get/delete routing,
    prefix deletion, [ReadsValid], [Flush], [ClearRam] and [Unwind].
    The second part embeds [VerkleTreeWriter] (package [verkletrie]).

    Go values are modelled as follows.
    - [[]byte] is [bytes := option string]: [None] is the nil slice,
      [Some s] a non-nil slice holding the bytes of [s] (one [ascii] per
      byte).  Go [string] is [string].
    - [uint64] is [N]; [int] is [Z] wrapped to 64 bits where the code adds.
    - a function that may return an [error] or panic runs in the monad [M],
      a state monad over the overlay whose results are [Ok], [Err] or
      [Panic].
    - collaborators that live outside the embedded files (the temporal
      transaction, the buffered writers, the commitment context) are the
      operations of the class [Backend]; every call to one of them is also
      recorded, in order, in the ghost field [calls]. *)

From Stdlib Require Import ZArith NArith String Ascii Lia.
From stdpp Require Import gmap strings list fin_maps sorting functions.

Local Open Scope N_scope.

(** ** Go base layer *)

Module Go.

Definition bytes : Type := option string.

Definition content (b : bytes) : string :=
  match b with Some s => s | None => EmptyString end.

Definition len (b : bytes) : nat := String.length (content b).

(** [b == nil] *)
Definition is_nil (b : bytes) : bool :=
  match b with None => true | Some _ => false end.

(** [bytes.Equal]: a nil slice equals an empty one. *)
Definition bytes_Equal (a b : bytes) : bool :=
  bool_decide (content a = content b).

(** [append(a, b...)]: appending nothing returns [a] itself. *)
Definition append (a b : bytes) : bytes :=
  match b with
  | None => a
  | Some EmptyString => a
  | Some sb => Some (String.append (content a) sb)
  end.

(** [bytes.HasPrefix] on the byte contents. *)
Definition has_prefix (k prefix : string) : bool := String.prefix prefix k.

(** Signed 64-bit wrap-around of Go [int]. *)
Definition wrap_int (z : Z) : Z :=
  ((z + 2 ^ 63) mod 2 ^ 64 - 2 ^ 63)%Z.

(** Unsigned 64-bit wrap-around of Go [uint64]. *)
Definition wrap_u64 (z : Z) : N := Z.to_N (z mod 2 ^ 64)%Z.

(** [binary.BigEndian.Uint64] on the first eight bytes of a string. *)
Fixpoint be_value (s : string) (acc : N) : N :=
  match s with
  | EmptyString => acc
  | String c s' => be_value s' (acc * 256 + N_of_ascii c)
  end.

Fixpoint take_str (n : nat) (s : string) : string :=
  match n, s with
  | S n', String c s' => String c (take_str n' s')
  | _, _ => EmptyString
  end.

Fixpoint drop_str (n : nat) (s : string) : string :=
  match n, s with
  | S n', String _ s' => drop_str n' s'
  | _, _ => s
  end.

Fixpoint zeros_str (n : nat) : string :=
  match n with
  | O => EmptyString
  | S n' => String Ascii.zero (zeros_str n')
  end.

(** [binary.BigEndian.PutUint64] into a fresh eight-byte string. *)
Fixpoint be_bytes (n : nat) (v : N) (acc : string) : string :=
  match n with
  | O => acc
  | S n' => be_bytes n' (v / 256) (String (ascii_of_N (v mod 256)) acc)
  end.

Definition BigEndian_PutUint64 (v : N) : string := be_bytes 8 v EmptyString.

End Go.

Export Go.

(** ** Domains

    Modelled from the spec: the enumeration [kv.Domain] is declared in
    package [kv], outside the embedded files.  The spec lists Accounts,
    Storage, Code, Commitment, a read-cache domain "and others";
    [ReceiptDomain] stands for the others and is the one that reaches the
    [default:] branches. *)
Inductive Domain : Type :=
| AccountsDomain
| StorageDomain
| CodeDomain
| CommitmentDomain
| ReceiptDomain
| RCacheDomain.

#[global] Instance Domain_eq_dec : EqDecision Domain.
Proof. solve_decision. Defined.

(** The indices of the [[kv.DomainLen]] arrays, in index order. *)
Definition all_domains : list Domain :=
  [AccountsDomain; StorageDomain; CodeDomain; CommitmentDomain;
   ReceiptDomain; RCacheDomain].

(** [const CodeSizeTableFake = "CodeSize"] *)
Definition CodeSizeTableFake : string := "CodeSize".

(** ** Errors, panics and results *)

Inductive Error : Type :=
| ErrExternal (msg : string)
    (* an error returned by a collaborator *)
| ErrPutNil (d : Domain)
    (* "DomainPut: %s, trying to put nil value. not allowed" *)
| ErrNotSupported
    (* "DomainDelPrefix: not supported" *)
| ErrStorageRead (k : bytes) (e : Error).
    (* "storage %x read error: %w" *)

Inductive PanicVal : Type :=
| PanicInt (n : Z)            (* panic(1) *)
| PanicStr (s : string)       (* panic(table) *)
| PanicIndex                  (* index or slice bound out of range *)
| PanicDivide                 (* integer divide by zero *)
| PanicNilDeref               (* method call through a nil pointer *)
| PanicForgotten (n : nat)    (* "%d forgotten keys after '%x' prefix removal" *)
| PanicUnreachable.

Inductive Res (A : Type) : Type :=
| Ok (a : A)
| Err (e : Error)
| Panic (p : PanicVal).

Arguments Ok {A} a.
Arguments Err {A} e.
Arguments Panic {A} p.

(** [toStringZeroCopy(v)] is [unsafe.String(&v[0], len(v))]: taking [&v[0]]
    of a nil or empty slice is an index-out-of-range panic. *)
Definition toStringZeroCopy (v : bytes) : Res string :=
  match content v with
  | EmptyString => Panic PanicIndex
  | s => Ok s
  end.

(** [toBytesZeroCopy(s)] is [unsafe.Slice(unsafe.StringData(s), len(s))].
    For the empty string Go leaves the data pointer unspecified; the
    embedding returns the empty non-nil slice there. *)
Definition toBytesZeroCopy (s : string) : bytes := Some s.

(** Go integer division: dividing by zero panics. *)
Definition go_div (a b : N) : Res N :=
  if N.eqb b 0 then Panic PanicDivide else Ok (a / b).

(** ** The state-and-result monad

    [StM S A]: a computation over a state [S] that returns normally with
    an [A], returns an error, or panics; the state reached is kept in all
    three cases. *)

Definition StM (S A : Type) : Type := S → Res A * S.

Definition ret {S A} (a : A) : StM S A := fun s => (Ok a, s).

Definition bind {S A C} (m : StM S A) (k : A → StM S C) : StM S C :=
  fun s =>
    match m s with
    | (Ok a, s') => k a s'
    | (Err e, s') => (Err e, s')
    | (Panic p, s') => (Panic p, s')
    end.

Definition fail {S A} (e : Error) : StM S A := fun s => (Err e, s).

Definition panic {S A} (p : PanicVal) : StM S A := fun s => (Panic p, s).

Definition lift {S A} (r : Res A) : StM S A := fun s => (r, s).

(** [if err != nil { return err }] *)
Definition check {S} (o : option Error) : StM S unit :=
  match o with
  | Some e => fail e
  | None => ret tt
  end.

Fixpoint for_each {S A} (l : list A) (f : A → StM S unit) : StM S unit :=
  match l with
  | [] => ret tt
  | x :: l' => bind (f x) (fun _ => for_each l' f)
  end.

Notation "x <- c1 ;; c2" := (bind c1 (fun x => c2))
  (at level 100, c1 at next level, right associativity).
Notation "c1 ;; c2" := (bind c1 (fun _ => c2))
  (at level 100, right associativity).

(** ** Collaborators of the overlay *)

Definition Hash : Type := string.

(** [common.BytesToHash]: keep the last 32 bytes, left-pad with zeros. *)
Definition BytesToHash (b : bytes) : Hash :=
  let s := content b in
  let s' := if Nat.ltb 32 (String.length s)
            then drop_str (String.length s - 32) s else s in
  String.append (zeros_str (32 - String.length s')) s'.

Class Backend : Type := {
  (** [kv.TemporalTx] / [kv.TemporalRwTx] with the aggregator behind it *)
  TemporalTx : Type;
  (** [*DomainBufferedWriter] *)
  DomainBufferedWriter : Type;
  (** [*InvertedIndexBufferedWriter] *)
  InvertedIndexBufferedWriter : Type;
  (** [*SharedDomainsCommitmentContext] *)
  CommitmentContext : Type;
  (** [*StateChangeSet] *)
  StateChangeSet : Type;
  (** [*[kv.DomainLen][]kv.DomainEntryDiff] *)
  DomainDiffs : Type;

  (** [kv.Domain.String] *)
  Domain_String : Domain → string;
  (** [assert.Enable] *)
  assert_Enable : bool;
  (** [dbg.PruneOnFlushTimeout] *)
  PruneOnFlushTimeout : Z;

  (** [AggTx().StepSize()] *)
  tx_StepSize : TemporalTx → N;
  (** [roTtx.GetLatest(domain, k)] *)
  tx_GetLatest : TemporalTx → Domain → bytes → Error + (bytes * N);
  (** the store's sorted cursor over the keys of a domain under a prefix,
      as consumed by [debugIteratePrefix] *)
  tx_prefix_cursor :
    TemporalTx → Domain → bytes → Error + list (string * (bytes * N));
  (** [rwTx.Unwind(ctx, txNumUnwindTo, changeset)] *)
  tx_Unwind : TemporalTx → N → DomainDiffs → TemporalTx * option Error;
  (** [WriteDiffSet(tx, blockNum, blockHash, changeset)] *)
  tx_WriteDiffSet :
    TemporalTx → N → Hash → StateChangeSet → TemporalTx * option Error;
  (** [AggTx().d[di].closeValsCursor()] *)
  tx_closeValsCursor : TemporalTx → Domain → TemporalTx;
  (** [tx.Debug().PruneSmallBatches(ctx, timeout)] *)
  tx_PruneSmallBatches : TemporalTx → Z → TemporalTx * option Error;

  (** [w.PutWithPrev(k1, k2, val, txNum, prevVal, prevStep)] *)
  dw_PutWithPrev :
    DomainBufferedWriter → bytes → bytes → bytes → N → bytes → N →
    DomainBufferedWriter * option Error;
  (** [w.DeleteWithPrev(k1, k2, txNum, prevVal, prevStep)] *)
  dw_DeleteWithPrev :
    DomainBufferedWriter → bytes → bytes → N → bytes → N →
    DomainBufferedWriter * option Error;
  (** [w.Flush(ctx, tx)] *)
  dw_Flush :
    DomainBufferedWriter → TemporalTx →
    DomainBufferedWriter * TemporalTx * option Error;
  (** [w.Close()] *)
  dw_Close : DomainBufferedWriter → DomainBufferedWriter;
  (** [w.Flush(ctx, tx)] and [w.close()] of an inverted-index writer *)
  iiw_Flush :
    InvertedIndexBufferedWriter → TemporalTx →
    InvertedIndexBufferedWriter * TemporalTx * option Error;
  iiw_close : InvertedIndexBufferedWriter → InvertedIndexBufferedWriter;

  (** [sdCtx.TouchKey(domain, key, val)] *)
  ctx_TouchKey : CommitmentContext → Domain → string → bytes → CommitmentContext;
  (** [sdCtx.updates.Reset()] *)
  ctx_updates_Reset : CommitmentContext → CommitmentContext;
  (** [sdCtx.Reset()] *)
  ctx_Reset : CommitmentContext → CommitmentContext;
}.

(** ** The overlay *)

Record dataWithPrevStep : Type := {
  data : bytes;
  prevStep : N;
}.

(** Calls to collaborators, in the order the code makes them. *)
Inductive Event : Type :=
| EvStoreGetLatest (d : Domain) (k : bytes)
| EvStoreCursor (d : Domain) (prefix : bytes)
| EvLatestCommitment (k : bytes)
| EvTouchKey (d : Domain) (k : string) (v : bytes)
| EvPutWithPrev (d : Domain) (k1 k2 v : bytes) (txNum : N) (pv : bytes) (ps : N)
| EvDeleteWithPrev (d : Domain) (k1 k2 : bytes) (txNum : N) (pv : bytes) (ps : N)
| EvWriteDiffSet (blockNum : N) (blockHash : Hash)
| EvComputeCommitment (blockNum : N)
| EvWriterFlush (d : Domain)
| EvCloseValsCursor (d : Domain)
| EvIIFlush (i : nat)
| EvPrune
| EvWriterClose (d : Domain)
| EvIIClose (i : nat)
| EvTxUnwind (txTo : N)
| EvUpdatesReset
| EvCtxReset.

Section Overlay.

Context `{B : Backend}.

Record SharedDomains : Type := {
  sdCtx : CommitmentContext;
  roTtx : TemporalTx;
  txNum : N;
  blockNum : N;
  estSize : Z;
  trace : bool;
  domains : Domain → gmap string dataWithPrevStep;
  storage : gmap string dataWithPrevStep;
  domainWriters : Domain → option DomainBufferedWriter;
  iiWriters : list (option InvertedIndexBufferedWriter);
  currentChangesAccumulator : option StateChangeSet;
  pastChangesAccumulator : gmap string StateChangeSet;
}.

(** The monad state: the overlay and the ghost log of collaborator calls. *)
Record St : Type := {
  sd : SharedDomains;
  calls : list Event;
}.

Definition M (A : Type) : Type := StM St A.

Definition gets {A} (f : SharedDomains → A) : M A := fun s => (Ok (f (sd s)), s).

Definition modify (f : SharedDomains → SharedDomains) : M unit :=
  fun s => (Ok tt, {| sd := f (sd s); calls := calls s |}).

Definition emit (e : Event) : M unit :=
  fun s => (Ok tt, {| sd := sd s; calls := calls s ++ [e] |}).

End Overlay.

Arguments SharedDomains : clear implicits.
Arguments SharedDomains {B}.
Arguments St {B}.
Arguments M {B} A.

(** Methods of [*SharedDomains] that are declared in other files of the
    package: each receives the whole overlay. *)
Class OverlayMethods `{B : Backend} : Type := {
  (** [sd.LatestCommitment(prefix)] *)
  sd_LatestCommitment :
    SharedDomains → bytes → Res (bytes * N) * SharedDomains;
  (** [sd.ComputeCommitment(ctx, saveStateAfter, blockNum, logPrefix)] *)
  sd_ComputeCommitment :
    SharedDomains → bool → N → string → Res Hash * SharedDomains;
}.

Section OverlayOps.

Context `{B : Backend} `{OM : !OverlayMethods}.

(** A collaborator call on the temporal transaction that returns an error. *)
Definition on_tx (ev : Event) (f : TemporalTx → TemporalTx * option Error) : M unit :=
  emit ev ;;
  tx <- gets roTtx ;;
  let r := f tx in
  modify (fun s => {| sdCtx := sdCtx s; roTtx := fst r; txNum := txNum s;
                      blockNum := blockNum s; estSize := estSize s; trace := trace s;
                      domains := domains s; storage := storage s;
                      domainWriters := domainWriters s; iiWriters := iiWriters s;
                      currentChangesAccumulator := currentChangesAccumulator s;
                      pastChangesAccumulator := pastChangesAccumulator s |}) ;;
  check (snd r).

(** A call on the commitment context. *)
Definition on_ctx (ev : Event) (f : CommitmentContext → CommitmentContext) : M unit :=
  emit ev ;;
  modify (fun s => {| sdCtx := f (sdCtx s); roTtx := roTtx s; txNum := txNum s;
                      blockNum := blockNum s; estSize := estSize s; trace := trace s;
                      domains := domains s; storage := storage s;
                      domainWriters := domainWriters s; iiWriters := iiWriters s;
                      currentChangesAccumulator := currentChangesAccumulator s;
                      pastChangesAccumulator := pastChangesAccumulator s |}).

Definition set_writer (d : Domain) (w : DomainBufferedWriter) (s : SharedDomains) : SharedDomains :=
  {| sdCtx := sdCtx s; roTtx := roTtx s; txNum := txNum s;
     blockNum := blockNum s; estSize := estSize s; trace := trace s;
     domains := domains s; storage := storage s;
     domainWriters := <[d := Some w]> (domainWriters s); iiWriters := iiWriters s;
     currentChangesAccumulator := currentChangesAccumulator s;
     pastChangesAccumulator := pastChangesAccumulator s |}.

(** A call on [sd.domainWriters[d]]; the method dereferences its receiver. *)
Definition on_writer (d : Domain) (ev : Event)
    (f : DomainBufferedWriter → DomainBufferedWriter * option Error) : M unit :=
  emit ev ;;
  ws <- gets domainWriters ;;
  match ws d with
  | None => panic PanicNilDeref
  | Some w =>
      let r := f w in
      modify (set_writer d (fst r)) ;;
      check (snd r)
  end.

Definition set_cache (ds : Domain → gmap string dataWithPrevStep)
    (st : gmap string dataWithPrevStep) (sz : Z) (s : SharedDomains) : SharedDomains :=
  {| sdCtx := sdCtx s; roTtx := roTtx s; txNum := txNum s;
     blockNum := blockNum s; estSize := sz; trace := trace s;
     domains := ds; storage := st;
     domainWriters := domainWriters s; iiWriters := iiWriters s;
     currentChangesAccumulator := currentChangesAccumulator s;
     pastChangesAccumulator := pastChangesAccumulator s |}.

Definition StepSize : M N := tx <- gets roTtx ;; ret (tx_StepSize tx).

(** [estSize] after writing [val] under [key] whose cached entry was [old]. *)
Definition bump (sz : Z) (key : string) (val : bytes) (old : option dataWithPrevStep) : Z :=
  match old with
  | Some o => wrap_int (sz + (Z.of_nat (len val) - Z.of_nat (len (data o))))
  | None => wrap_int (sz + (Z.of_nat (String.length key) + Z.of_nat (len val)))
  end.

Definition put (domain : Domain) (key : string) (val : bytes) : M unit :=
  t <- gets txNum ;;
  ss <- StepSize ;;
  step <- lift (go_div t ss) ;;
  let valWithPrevStep := {| data := val; prevStep := step |} in
  if decide (domain = StorageDomain) then
    modify (fun s =>
      set_cache (domains s) (<[key := valWithPrevStep]> (storage s))
                (bump (estSize s) key val (storage s !! key)) s)
  else
    modify (fun s =>
      set_cache (<[domain := <[key := valWithPrevStep]> (domains s domain)]> (domains s))
                (storage s)
                (bump (estSize s) key val (domains s domain !! key)) s).

(** The map that caches a domain: the sorted map for Storage, the
    per-domain map otherwise. *)
Definition cache_of (table : Domain) (s : SharedDomains) : gmap string dataWithPrevStep :=
  if decide (table = StorageDomain) then storage s else domains s table.

(** [get] returns the cached value by key. *)
Definition get (table : Domain) (key : bytes) : M (bytes * N * bool) :=
  keyS <- lift (toStringZeroCopy key) ;;
  m <- gets (cache_of table) ;;
  match m !! keyS with
  | Some e => ret (data e, prevStep e, true)
  | None => ret (None, 0, false)
  end.

Definition SizeEstimate : M N :=
  sz <- gets estSize ;;
  ret (wrap_u64 (Z.of_N (wrap_u64 sz) * 4)).

(** [sd.LatestCommitment(k)], declared outside the embedded file. *)
Definition LatestCommitment (k : bytes) : M (bytes * N) :=
  fun st =>
    let r := sd_LatestCommitment (sd st) k in
    (fst r, {| sd := snd r; calls := calls st ++ [EvLatestCommitment k] |}).

Definition GetLatest (domain : Domain) (k : bytes) : M (bytes * N) :=
  if decide (domain = CommitmentDomain) then LatestCommitment k
  else
    r <- get domain k ;;
    let '(v, prevStep, ok) := r in
    if ok then ret (v, prevStep)
    else
      emit (EvStoreGetLatest domain k) ;;
      tx <- gets roTtx ;;
      match tx_GetLatest tx domain k with
      | inl err => fail (ErrStorageRead k err)
      | inr (v, step) => ret (v, step)
      end.

Definition TouchKey (d : Domain) (key : string) (val : bytes) : M unit :=
  on_ctx (EvTouchKey d key val) (fun c => ctx_TouchKey c d key val).

Definition PutWithPrev (d : Domain) (k1 k2 val : bytes) (pv : bytes) (ps : N) : M unit :=
  t <- gets txNum ;;
  on_writer d (EvPutWithPrev d k1 k2 val t pv ps)
    (fun w => dw_PutWithPrev w k1 k2 val t pv ps).

Definition DeleteWithPrev (d : Domain) (k1 k2 : bytes) (pv : bytes) (ps : N) : M unit :=
  t <- gets txNum ;;
  on_writer d (EvDeleteWithPrev d k1 k2 t pv ps)
    (fun w => dw_DeleteWithPrev w k1 k2 t pv ps).

Definition updateAccountData (addr account prevAccount : bytes) (prevStep : N) : M unit :=
  let addrS := content addr in
  TouchKey AccountsDomain addrS account ;;
  put AccountsDomain addrS account ;;
  PutWithPrev AccountsDomain addr None account prevAccount prevStep.

Definition updateAccountCode (addr code prevCode : bytes) (prevStep : N) : M unit :=
  let addrS := content addr in
  TouchKey CodeDomain addrS code ;;
  put CodeDomain addrS code ;;
  if Nat.eqb (len code) 0 then
    DeleteWithPrev CodeDomain addr None prevCode prevStep
  else
    PutWithPrev CodeDomain addr None code prevCode prevStep.

Definition updateCommitmentData (prefix : string) (data prev : bytes) (prevStep : N) : M unit :=
  put CommitmentDomain prefix data ;;
  PutWithPrev CommitmentDomain (toBytesZeroCopy prefix) None data prev prevStep.

(** The composite storage key: [addr] itself when [loc] is nil. *)
Definition composite_key (addr loc : bytes) : bytes :=
  match loc with
  | None => addr
  | Some l => Some (String.append (content addr) l)
  end.

Definition writeAccountStorage (addr loc value preVal : bytes) (prevStep : N) : M unit :=
  let composite := composite_key addr loc in
  let compositeS := content composite in
  TouchKey StorageDomain compositeS value ;;
  put StorageDomain compositeS value ;;
  PutWithPrev StorageDomain composite None value preVal prevStep.

Definition delAccountStorage (addr loc preVal : bytes) (prevStep : N) : M unit :=
  let composite := composite_key addr loc in
  let compositeS := content composite in
  TouchKey StorageDomain compositeS None ;;
  put StorageDomain compositeS None ;;
  DeleteWithPrev StorageDomain composite None preVal prevStep.

Definition SetTxNum (n : N) : M unit :=
  modify (fun s => {| sdCtx := sdCtx s; roTtx := roTtx s; txNum := n;
                      blockNum := blockNum s; estSize := estSize s; trace := trace s;
                      domains := domains s; storage := storage s;
                      domainWriters := domainWriters s; iiWriters := iiWriters s;
                      currentChangesAccumulator := currentChangesAccumulator s;
                      pastChangesAccumulator := pastChangesAccumulator s |}).

Definition SetBlockNum (n : N) : M unit :=
  modify (fun s => {| sdCtx := sdCtx s; roTtx := roTtx s; txNum := txNum s;
                      blockNum := n; estSize := estSize s; trace := trace s;
                      domains := domains s; storage := storage s;
                      domainWriters := domainWriters s; iiWriters := iiWriters s;
                      currentChangesAccumulator := currentChangesAccumulator s;
                      pastChangesAccumulator := pastChangesAccumulator s |}).

(** The block shared by [DomainPut] and [DomainDel]:
    [if prevVal == nil { prevVal, prevStep, err = sd.GetLatest(domain, k) }] *)
Definition resolvePrev (domain : Domain) (k prevVal : bytes) (prevStep : N) : M (bytes * N) :=
  if is_nil prevVal then GetLatest domain k else ret (prevVal, prevStep).

Definition DomainPut (domain : Domain) (k1 k2 val prevVal : bytes) (prevStep : N) : M unit :=
  if negb (is_nil k2) then panic (PanicInt 1)
  else if is_nil val then fail (ErrPutNil domain)
  else
    p <- resolvePrev domain k1 prevVal prevStep ;;
    let prevVal := fst p in
    let prevStep := snd p in
    match domain with
    | AccountsDomain => updateAccountData k1 val prevVal prevStep
    | StorageDomain => writeAccountStorage k1 k2 val prevVal prevStep
    | CodeDomain =>
        if bytes_Equal prevVal val then ret tt
        else updateAccountCode k1 val prevVal prevStep
    | CommitmentDomain | RCacheDomain =>
        key <- lift (toStringZeroCopy (append k1 k2)) ;;
        put domain key val ;;
        PutWithPrev domain k1 k2 val prevVal prevStep
    | _ =>
        if bytes_Equal prevVal val then ret tt
        else
          key <- lift (toStringZeroCopy (append k1 k2)) ;;
          put domain key val ;;
          PutWithPrev domain k1 k2 val prevVal prevStep
    end.

End OverlayOps.

(** ** Prefix iteration *)

Definition key_le (a b : string * (bytes * N)) : Prop :=
  String.leb (fst a) (fst b) = true.

#[global] Instance key_le_dec : RelDecision key_le.
Proof. intros a b. unfold key_le. apply _. Defined.

(** An entry is live when it has the prefix and a value of non-zero length. *)
Definition live_under (prefix : string) (kv : string * (bytes * N)) : Prop :=
  has_prefix (fst kv) prefix = true ∧ len (fst (snd kv)) ≠ 0%nat.

#[global] Instance live_under_dec prefix kv : Decision (live_under prefix kv).
Proof. unfold live_under. apply _. Defined.

Definition ram_view (haveRamUpdates : bool) (ramIter : gmap string dataWithPrevStep) :
    gmap string (bytes * N) :=
  if haveRamUpdates then (fun e => (data e, prevStep e)) <$> ramIter else ∅.

(** Modelled from the spec: [debugIteratePrefix], the method of the
    domain's read transaction that [IteratePrefix] delegates to, is declared
    outside the embedded files.  The spec has it merge the sorted in-memory
    Storage overlay with the store's sorted cursor and yield
    (key, value, version) in key order.  An overlay entry shadows the store
    entry of the same key, and, a nil or empty value representing deletion,
    only entries with a value of non-zero length are yielded. *)
Definition merged_entries (prefix : string) (haveRamUpdates : bool)
    (ramIter : gmap string dataWithPrevStep)
    (cursor : list (string * (bytes * N))) : gmap string (bytes * N) :=
  filter (live_under prefix)
         (ram_view haveRamUpdates ramIter ∪ list_to_map cursor).

Definition yielded_entries (prefix : string) (haveRamUpdates : bool)
    (ramIter : gmap string dataWithPrevStep)
    (cursor : list (string * (bytes * N))) : list (string * (bytes * N)) :=
  merge_sort key_le (map_to_list (merged_entries prefix haveRamUpdates ramIter cursor)).

(** The visitor [it func(k, v []byte, step uint64) (cont bool, err error)];
    [A] stands for the variables its closure captures. *)
Definition Visitor (A : Type) : Type := A → bytes → bytes → N → A * bool * option Error.

Fixpoint visit {A} (it : Visitor A) (es : list (string * (bytes * N))) (acc : A) : Res A :=
  match es with
  | [] => Ok acc
  | e :: es' =>
      match it acc (Some (fst e)) (fst (snd e)) (snd (snd e)) with
      | (_, _, Some err) => Err err
      | (acc', false, None) => Ok acc'
      | (acc', true, None) => visit it es' acc'
      end
  end.

Section OverlayIter.

Context `{B : Backend} `{OM : !OverlayMethods}.

Definition debugIteratePrefix {A} (domain : Domain) (prefix : bytes)
    (haveRamUpdates : bool) (ramIter : gmap string dataWithPrevStep)
    (it : Visitor A) (acc : A) : M A :=
  emit (EvStoreCursor domain prefix) ;;
  tx <- gets roTtx ;;
  match tx_prefix_cursor tx domain prefix with
  | inl err => fail err
  | inr cursor =>
      lift (visit it (yielded_entries (content prefix) haveRamUpdates ramIter cursor) acc)
  end.

Definition IteratePrefix {A} (domain : Domain) (prefix : bytes)
    (it : Visitor A) (acc : A) : M A :=
  s <- gets id ;;
  let haveRamUpdates :=
    if decide (domain = StorageDomain) then negb (Nat.eqb (size (storage s)) 0) else false in
  let ramIter :=
    if decide (domain = StorageDomain) then storage s else ∅ in
  _ <- StepSize ;;
  debugIteratePrefix domain prefix haveRamUpdates ramIter it acc.

Definition IterateStoragePrefix {A} (prefix : bytes) (it : Visitor A) (acc : A) : M A :=
  IteratePrefix StorageDomain prefix it acc.

Definition HasPrefix (domain : Domain) (prefix : bytes) : M (bytes * bool) :=
  IteratePrefix domain prefix
    (fun _ k _ _ => ((k, true), false, None)) (None, false).

(** ** Deletion

    [DomainDel], [deleteAccount] and [DomainDelPrefix] call one another.
    Each body takes the functions it calls as arguments; the knot is tied
    below. *)

Definition DomainDel_body (deleteAccount : bytes → bytes → N → M unit)
    (domain : Domain) (k prevVal : bytes) (prevStep : N) : M unit :=
  p <- resolvePrev domain k prevVal prevStep ;;
  let prevVal := fst p in
  let prevStep := snd p in
  match domain with
  | AccountsDomain => deleteAccount k prevVal prevStep
  | StorageDomain => delAccountStorage k None prevVal prevStep
  | CodeDomain =>
      if is_nil prevVal then ret tt
      else updateAccountCode k None prevVal prevStep
  | CommitmentDomain =>
      key <- lift (toStringZeroCopy k) ;;
      updateCommitmentData key None prevVal prevStep
  | _ =>
      key <- lift (toStringZeroCopy k) ;;
      put domain key None ;;
      DeleteWithPrev domain k None prevVal prevStep
  end.

Definition tomb_visitor : Visitor (list (bytes * bytes * N)) :=
  fun tombs k v step => (tombs ++ [(k, v, step)], true, None).

Definition count_visitor : Visitor nat :=
  fun forgotten _ _ _ => (S forgotten, true, None).

Definition DomainDelPrefix_body (DomainDel : Domain → bytes → bytes → N → M unit)
    (domain : Domain) (prefix : bytes) : M unit :=
  if decide (domain = StorageDomain) then
    tombs <- IterateStoragePrefix prefix tomb_visitor [] ;;
    for_each tombs (fun tomb =>
      DomainDel StorageDomain (fst (fst tomb)) (snd (fst tomb)) (snd tomb)) ;;
    if assert_Enable then
      forgotten <- IterateStoragePrefix prefix count_visitor 0%nat ;;
      if Nat.ltb 0 forgotten then panic (PanicForgotten forgotten) else ret tt
    else ret tt
  else fail ErrNotSupported.

Definition deleteAccount_body
    (DomainDelPrefix : Domain → bytes → M unit)
    (DomainDel : Domain → bytes → bytes → N → M unit)
    (addr prev : bytes) (prevStep : N) : M unit :=
  let addrS := content addr in
  DomainDelPrefix StorageDomain addr ;;
  DomainDel CodeDomain addr None prevStep ;;
  TouchKey AccountsDomain addrS None ;;
  put AccountsDomain addrS None ;;
  DeleteWithPrev AccountsDomain addr None prev prevStep.

(** [DomainDel] as [DomainDelPrefix] and [deleteAccount] call it: always on
    the Storage or the Code domain, where it does not call back. *)
Definition DomainDel_inner : Domain → bytes → bytes → N → M unit :=
  DomainDel_body (fun _ _ _ => panic PanicUnreachable).

Definition DomainDelPrefix : Domain → bytes → M unit :=
  DomainDelPrefix_body DomainDel_inner.

Definition deleteAccount : bytes → bytes → N → M unit :=
  deleteAccount_body DomainDelPrefix DomainDel_inner.

Definition DomainDel : Domain → bytes → bytes → N → M unit :=
  DomainDel_body deleteAccount.

(** ** ClearRam, Flush, Unwind *)

Definition ClearRam (resetCommitment : bool) : M unit :=
  modify (fun s => set_cache (fun _ => ∅) (storage s) (estSize s) s) ;;
  (if resetCommitment then
     on_ctx EvUpdatesReset ctx_updates_Reset ;;
     on_ctx EvCtxReset ctx_Reset
   else ret tt) ;;
  modify (fun s => set_cache (domains s) ∅ 0%Z s).

Definition set_past (p : gmap string StateChangeSet) (s : SharedDomains) : SharedDomains :=
  {| sdCtx := sdCtx s; roTtx := roTtx s; txNum := txNum s;
     blockNum := blockNum s; estSize := estSize s; trace := trace s;
     domains := domains s; storage := storage s;
     domainWriters := domainWriters s; iiWriters := iiWriters s;
     currentChangesAccumulator := currentChangesAccumulator s;
     pastChangesAccumulator := p |}.

Definition set_tx_writer (d : Domain) (w : DomainBufferedWriter) (tx : TemporalTx)
    (s : SharedDomains) : SharedDomains :=
  {| sdCtx := sdCtx s; roTtx := tx; txNum := txNum s;
     blockNum := blockNum s; estSize := estSize s; trace := trace s;
     domains := domains s; storage := storage s;
     domainWriters := <[d := Some w]> (domainWriters s); iiWriters := iiWriters s;
     currentChangesAccumulator := currentChangesAccumulator s;
     pastChangesAccumulator := pastChangesAccumulator s |}.

Definition set_tx_ii (i : nat) (w : InvertedIndexBufferedWriter) (tx : TemporalTx)
    (s : SharedDomains) : SharedDomains :=
  {| sdCtx := sdCtx s; roTtx := tx; txNum := txNum s;
     blockNum := blockNum s; estSize := estSize s; trace := trace s;
     domains := domains s; storage := storage s;
     domainWriters := domainWriters s; iiWriters := <[i := Some w]> (iiWriters s);
     currentChangesAccumulator := currentChangesAccumulator s;
     pastChangesAccumulator := pastChangesAccumulator s |}.

(** [sd.ComputeCommitment(...)], declared outside the embedded file. *)
Definition ComputeCommitment (saveStateAfter : bool) (blockNum : N) (logPrefix : string) : M Hash :=
  fun st =>
    let r := sd_ComputeCommitment (sd st) saveStateAfter blockNum logPrefix in
    (fst r, {| sd := snd r; calls := calls st ++ [EvComputeCommitment blockNum] |}).

Definition flush_diffset (kc : string * StateChangeSet) : M unit :=
  let key := fst kc in
  if Nat.ltb (String.length key) 8 then panic PanicIndex
  else
    let blockNum := be_value (take_str 8 key) 0 in
    let blockHash := BytesToHash (toBytesZeroCopy (drop_str 8 key)) in
    on_tx (EvWriteDiffSet blockNum blockHash)
          (fun tx => tx_WriteDiffSet tx blockNum blockHash (snd kc)).

Definition flush_domain_writer (di : Domain) : M unit :=
  ws <- gets domainWriters ;;
  match ws di with
  | None => ret tt
  | Some w =>
      emit (EvWriterFlush di) ;;
      tx <- gets roTtx ;;
      let r := dw_Flush w tx in
      modify (set_tx_writer di (fst (fst r)) (snd (fst r))) ;;
      check (snd r) ;;
      on_tx (EvCloseValsCursor di) (fun tx => (tx_closeValsCursor tx di, None))
  end.

Definition flush_ii_writer (i : nat) : M unit :=
  ws <- gets iiWriters ;;
  match ws !! i with
  | Some (Some w) =>
      emit (EvIIFlush i) ;;
      tx <- gets roTtx ;;
      let r := iiw_Flush w tx in
      modify (set_tx_ii i (fst (fst r)) (snd (fst r))) ;;
      check (snd r)
  | _ => ret tt
  end.

Definition close_domain_writer (di : Domain) : M unit :=
  ws <- gets domainWriters ;;
  match ws di with
  | None => ret tt
  | Some w => emit (EvWriterClose di) ;; modify (set_writer di (dw_Close w))
  end.

Definition close_ii_writer (i : nat) : M unit :=
  ws <- gets iiWriters ;;
  match ws !! i with
  | Some (Some w) =>
      emit (EvIIClose i) ;;
      tx <- gets roTtx ;;
      modify (set_tx_ii i (iiw_close w) tx)
  | _ => ret tt
  end.

(** The range over the Go map [pastChangesAccumulator] visits the entries
    in an unspecified order; the embedding takes the order of
    [map_to_list]. *)
Definition Flush : M unit :=
  past <- gets pastChangesAccumulator ;;
  for_each (map_to_list past) flush_diffset ;;
  modify (set_past ∅) ;;
  bn <- gets blockNum ;;
  _ <- ComputeCommitment true bn "flush-commitment" ;;
  for_each all_domains flush_domain_writer ;;
  iis <- gets iiWriters ;;
  for_each (seq 0 (length iis)) flush_ii_writer ;;
  (if Z.eqb PruneOnFlushTimeout 0 then ret tt
   else on_tx EvPrune (fun tx => tx_PruneSmallBatches tx PruneOnFlushTimeout)) ;;
  for_each all_domains close_domain_writer ;;
  iis <- gets iiWriters ;;
  for_each (seq 0 (length iis)) close_ii_writer.

(** The RwTx handed to [Unwind] and [Flush] is the transaction the overlay
    is bound to. *)
Definition Unwind (blockUnwindTo txUnwindTo : N) (changeset : DomainDiffs) : M unit :=
  ss <- StepSize ;;
  _ <- lift (go_div txUnwindTo ss) ;;
  Flush ;;
  on_tx (EvTxUnwind txUnwindTo) (fun tx => tx_Unwind tx txUnwindTo changeset) ;;
  ClearRam true ;;
  SetTxNum txUnwindTo ;;
  SetBlockNum blockUnwindTo ;;
  Flush.

(** The entries a prefix iteration over the Storage domain visits in
    overlay state [s], or the error of the store's cursor. *)
Definition storage_entries (prefix : bytes) (s : SharedDomains) :
    Error + list (string * (bytes * N)) :=
  match tx_prefix_cursor (roTtx s) StorageDomain prefix with
  | inl err => inl err
  | inr cursor =>
      inr (yielded_entries (content prefix)
             (negb (Nat.eqb (size (storage s)) 0)) (storage s) cursor)
  end.

(** The tuple [DomainDelPrefix] records for a visited entry. *)
Definition tomb_of (e : string * (bytes * N)) : bytes * bytes * N :=
  (Some (fst e), fst (snd e), snd (snd e)).

(** ** The unwind protocol as the spec words it

    Steps (3) and (4): the overlay is empty, the commitment context reset,
    the position is [(blockTo, txTo)]; everything else is as step (2) left
    it. *)
Definition unwound (blockTo txTo : N) (s2 : St) : St :=
  {| sd := {| sdCtx := ctx_Reset (ctx_updates_Reset (sdCtx (sd s2)));
              roTtx := roTtx (sd s2); txNum := txTo; blockNum := blockTo;
              estSize := 0%Z; trace := trace (sd s2);
              domains := fun _ => ∅; storage := ∅;
              domainWriters := domainWriters (sd s2);
              iiWriters := iiWriters (sd s2);
              currentChangesAccumulator := currentChangesAccumulator (sd s2);
              pastChangesAccumulator := pastChangesAccumulator (sd s2) |};
     calls := calls s2 ++ [EvUpdatesReset; EvCtxReset] |}.

(** Step (2): the store rolls its history back to [txTo]. *)
Definition store_unwind (txTo : N) (changeset : DomainDiffs) : M unit :=
  on_tx (EvTxUnwind txTo) (fun tx => tx_Unwind tx txTo changeset).

(** (1) flush; (2) store unwind; (3)+(4) clear and reposition; (5) flush.
    A step that does not return normally ends the unwind with its result,
    in the state it left. *)
Definition Unwind_protocol (blockTo txTo : N) (changeset : DomainDiffs) : M unit :=
  fun st =>
    match Flush st with
    | (Ok _, s1) =>
        match store_unwind txTo changeset s1 with
        | (Ok _, s2) => Flush (unwound blockTo txTo s2)
        | (Err e, s2) => (Err e, s2)
        | (Panic p, s2) => (Panic p, s2)
        end
    | (Err e, s1) => (Err e, s1)
    | (Panic p, s1) => (Panic p, s1)
    end.

End OverlayIter.

(** ** ReadsValid *)

(** [KvList]: the write list, keys and values kept side by side. *)
Record KvList : Type := {
  Keys : list string;
  Vals : list bytes;
}.

Definition KvList_Push (l : KvList) (key : string) (val : bytes) : KvList :=
  {| Keys := Keys l ++ [key]; Vals := Vals l ++ [val] |}.

(** One [for i, key := range list.Keys] loop of [ReadsValid]: [Ok false]
    when it returns false, [Ok true] when it runs to its end. *)
Fixpoint reads_loop (m : gmap string dataWithPrevStep)
    (differs : bytes → dataWithPrevStep → Res bool)
    (vals : list bytes) (i : nat) (keys : list string) : Res bool :=
  match keys with
  | [] => Ok true
  | key :: keys' =>
      match m !! key with
      | Some val =>
          match vals !! i with
          | None => Panic PanicIndex
          | Some expected =>
              match differs expected val with
              | Ok true => Ok false
              | Ok false => reads_loop m differs vals (S i) keys'
              | Err e => Err e
              | Panic p => Panic p
              end
          end
      | None => reads_loop m differs vals (S i) keys'
      end
  end.

(** [!bytes.Equal(list.Vals[i], val.data)] *)
Definition value_differs (expected : bytes) (val : dataWithPrevStep) : Res bool :=
  Ok (negb (bytes_Equal expected (data val))).

(** [binary.BigEndian.Uint64(list.Vals[i]) != uint64(len(val.data))] *)
Definition size_differs (expected : bytes) (val : dataWithPrevStep) : Res bool :=
  if Nat.ltb (len expected) 8 then Panic PanicIndex
  else Ok (negb (N.eqb (be_value (take_str 8 (content expected)) 0)
                       (N.of_nat (len (data val))))).

Section OverlayReads.

Context `{B : Backend}.

Definition reads_table (s : SharedDomains) (table : string) (list : KvList) : Res bool :=
  if String.eqb table (Domain_String AccountsDomain) then
    reads_loop (domains s AccountsDomain) value_differs (Vals list) 0 (Keys list)
  else if String.eqb table (Domain_String CodeDomain) then
    reads_loop (domains s CodeDomain) value_differs (Vals list) 0 (Keys list)
  else if String.eqb table (Domain_String StorageDomain) then
    reads_loop (storage s) value_differs (Vals list) 0 (Keys list)
  else if String.eqb table CodeSizeTableFake then
    reads_loop (domains s CodeDomain) size_differs (Vals list) 0 (Keys list)
  else Panic (PanicStr table).

(** [readLists] is a Go map; the list gives its entries in the order the
    range statement happens to visit them. *)
Fixpoint ReadsValid (s : SharedDomains) (readLists : list (string * KvList)) : Res bool :=
  match readLists with
  | [] => Ok true
  | tl :: rest =>
      match reads_table s (fst tl) (snd tl) with
      | Ok true => ReadsValid s rest
      | r => r
      end
  end.

(** The case of the [switch table] a table name selects, if any; the cases
    are tried in source order. *)
Inductive TableKind : Type := KAccounts | KCode | KStorage | KCodeSize.

Definition table_kind (table : string) : option TableKind :=
  if String.eqb table (Domain_String AccountsDomain) then Some KAccounts
  else if String.eqb table (Domain_String CodeDomain) then Some KCode
  else if String.eqb table (Domain_String StorageDomain) then Some KStorage
  else if String.eqb table CodeSizeTableFake then Some KCodeSize
  else None.

(** The recorded read [(key, expected)] of a table is stale in overlay [s]:
    the key is cached and its cached value does not match.  For the three
    domains the match is byte equality; for the CodeSize table the recorded
    big-endian number is matched against the length of the cached code. *)
Definition stale (s : SharedDomains) (table key : string) (expected : bytes) : Prop :=
  match table_kind table with
  | Some KAccounts =>
      ∃ e, cache_of AccountsDomain s !! key = Some e ∧ content expected ≠ content (data e)
  | Some KCode =>
      ∃ e, cache_of CodeDomain s !! key = Some e ∧ content expected ≠ content (data e)
  | Some KStorage =>
      ∃ e, cache_of StorageDomain s !! key = Some e ∧ content expected ≠ content (data e)
  | Some KCodeSize =>
      ∃ e, cache_of CodeDomain s !! key = Some e ∧
           be_value (take_str 8 (content expected)) 0 ≠ N.of_nat (len (data e))
  | None => False
  end.

(** A read-set [ReadsValid] runs through without panicking: every table
    name selects a case, values and keys are kept side by side, and the
    values of the CodeSize table hold at least the eight bytes read. *)
Definition well_formed_reads (readLists : list (string * KvList)) : Prop :=
  Forall (fun tl =>
            is_Some (table_kind (fst tl)) ∧
            length (Keys (snd tl)) = length (Vals (snd tl)) ∧
            (table_kind (fst tl) = Some KCodeSize →
             Forall (fun v => 8 ≤ len v)%nat (Vals (snd tl))))
         readLists.

End OverlayReads.

(** ** A concrete backend

    A small in-memory store used to run the embedding on concrete inputs:
    the transaction is one finite map per domain, a buffered writer keeps
    its pending writes in a list and applies them on [Flush], the
    commitment context is the list of touched keys. *)

Module Sim.

Record SimWriter : Type := {
  w_domain : Domain;
  w_pending : list (string * (bytes * N));
}.

Definition SimTx : Type := Domain → gmap string (bytes * N).

Definition sim_name (d : Domain) : string :=
  match d with
  | AccountsDomain => "accounts"
  | StorageDomain => "storage"
  | CodeDomain => "code"
  | CommitmentDomain => "commitment"
  | ReceiptDomain => "receipt"
  | RCacheDomain => "rcache"
  end.

Definition sim_GetLatest (tx : SimTx) (d : Domain) (k : bytes) : Error + (bytes * N) :=
  match tx d !! content k with
  | Some vs => inr vs
  | None => inr (None, 0)
  end.

Definition sim_cursor (tx : SimTx) (d : Domain) (prefix : bytes) :
    Error + list (string * (bytes * N)) :=
  inr (merge_sort key_le
         (filter (fun kv => has_prefix (fst kv) (content prefix) = true)
                 (map_to_list (tx d)))).

Definition sim_apply (tx : SimTx) (w : SimWriter) : SimTx :=
  <[w_domain w := foldl (fun m kv => <[fst kv := snd kv]> m) (tx (w_domain w)) (w_pending w)]> tx.

#[global] Instance sim_backend : Backend := {|
  TemporalTx := SimTx;
  DomainBufferedWriter := SimWriter;
  InvertedIndexBufferedWriter := unit;
  CommitmentContext := list (Domain * string * bytes);
  StateChangeSet := unit;
  DomainDiffs := unit;
  Domain_String := sim_name;
  assert_Enable := true;
  PruneOnFlushTimeout := 0%Z;
  tx_StepSize := fun _ => 8;
  tx_GetLatest := sim_GetLatest;
  tx_prefix_cursor := sim_cursor;
  tx_Unwind := fun tx _ _ => (tx, None);
  tx_WriteDiffSet := fun tx _ _ _ => (tx, None);
  tx_closeValsCursor := fun tx _ => tx;
  tx_PruneSmallBatches := fun tx _ => (tx, None);
  dw_PutWithPrev := fun w k1 k2 v t _ _ =>
    ({| w_domain := w_domain w;
        w_pending := w_pending w ++ [(String.append (content k1) (content k2), (v, t / 8))] |},
     None);
  dw_DeleteWithPrev := fun w k1 k2 t _ _ =>
    ({| w_domain := w_domain w;
        w_pending := w_pending w ++ [(String.append (content k1) (content k2), (None, t / 8))] |},
     None);
  dw_Flush := fun w tx => (w, sim_apply tx w, None);
  dw_Close := fun w => {| w_domain := w_domain w; w_pending := [] |};
  iiw_Flush := fun w tx => (w, tx, None);
  iiw_close := fun w => w;
  ctx_TouchKey := fun c d k v => c ++ [(d, k, v)];
  ctx_updates_Reset := fun c => c;
  ctx_Reset := fun _ => [];
|}.

Definition zero_hash : Hash := zeros_str 32.

#[global] Instance sim_methods : OverlayMethods := {|
  sd_LatestCommitment := fun s k =>
    match domains s CommitmentDomain !! content k with
    | Some e => (Ok (data e, prevStep e), s)
    | None =>
        match sim_GetLatest (roTtx s) CommitmentDomain k with
        | inl e => (Err e, s)
        | inr vs => (Ok vs, s)
        end
    end;
  sd_ComputeCommitment := fun s _ _ _ => (Ok zero_hash, s);
|}.

(** The overlay right after [NewSharedDomains] on a store [tx]. *)
Definition fresh (tx : SimTx) : St :=
  {| sd := {| sdCtx := []; roTtx := tx; txNum := 0; blockNum := 0;
              estSize := 0%Z; trace := false;
              domains := fun _ => ∅; storage := ∅;
              domainWriters := fun d => Some {| w_domain := d; w_pending := [] |};
              iiWriters := [];
              currentChangesAccumulator := None;
              pastChangesAccumulator := ∅ |};
     calls := [] |}.

Definition empty_tx : SimTx := fun _ => ∅.

(** The changeset handed to [Unwind]; the store of this backend ignores
    it. *)
Definition no_diffs : @DomainDiffs sim_backend := tt.

(** A store holding two storage slots of account "A" and its code. *)
Definition tx1 : SimTx :=
  <[StorageDomain := {[ "A1" := (Some "x", 1); "A2" := (Some "y", 1); "B1" := (Some "z", 1) ]}]>
  (<[CodeDomain := {[ "A" := (Some "code", 1) ]}]> empty_tx).

(** Run a sequence of overlay operations, keeping the last result. *)
Definition run_from {A} (st : St) (m : M A) : Res A * St := m st.

End Sim.


(** * The verkle tree writer

    Package [verkletrie] works on byte slices and fixed [[32]byte] arrays;
    they are modelled as lists of byte values ([N] below 256).  A slice is
    taken to have no spare capacity, so [versionKey[:31]] panics when the
    key is shorter than 31 bytes.  The mutex of the writer serialises its
    callers and is not modelled. *)

Module Verkle.

Abbreviation buf := (list N) (only parsing).

Definition zeros (n : nat) : buf := replicate n 0.

(** [common.Hash{}] *)
Definition zero_hash : buf := zeros 32.

(** [common.BytesToHash] *)
Definition BytesToHash (b : buf) : buf :=
  let b' := if Nat.ltb 32 (length b) then drop (length b - 32) b else b in
  zeros (32 - length b') ++ b'.

(** The base-256 digits of [x], least significant first, at most [fuel] of
    them, stopping at the last non-zero digit. *)
Fixpoint le_digits (fuel : nat) (x : N) : buf :=
  match fuel with
  | O => []
  | S fuel' =>
      if N.eqb x 0 then [] else (x mod 256) :: le_digits fuel' (x / 256)
  end.

(** [x.ToBig().Bytes()]: the big-endian bytes of [x] without leading
    zeros; the bit length of [x] bounds their number. *)
Definition big_Bytes (x : N) : buf :=
  reverse (le_digits (N.to_nat (N.size x)) x).

(** [for i, b := range bbytes { buffer[len(bbytes)-i-1] = b }], from index
    [i] on; [n] is [len(bbytes)]. *)
Fixpoint store_reversed (n : nat) (bbytes : buf) (i : nat) (buffer : buf) : Res buf :=
  match bbytes with
  | [] => Ok buffer
  | b :: rest =>
      let idx := (n - i - 1)%nat in
      if Nat.ltb idx (length buffer)
      then store_reversed n rest (S i) (<[idx := b]> buffer)
      else Panic PanicIndex
  end.

Definition int256ToVerkleFormat (x : N) (buffer : buf) : Res buf :=
  let bbytes := big_Bytes x in
  store_reversed (length bbytes) bbytes 0 buffer.

(** [binary.LittleEndian.PutUint64(b, v)]: [_ = b[7]], then
    [b[i] = byte(v >> (8*i))] for [i] from 0 to 7. *)
Definition shifted_byte (v : N) (i : nat) : N :=
  N.shiftr v (8 * N.of_nat i) mod 256.

Definition LittleEndian_PutUint64 (b : buf) (v : N) : Res buf :=
  if Nat.ltb (length b) 8 then Panic PanicIndex
  else Ok (foldl (fun acc i => <[i := shifted_byte v i]> acc) b (seq 0 8)).

(** [var key [32]byte; copy(key[:], versionKey[:31]); key[31] = leaf] *)
Definition sub_key (versionKey : buf) (leaf : N) : Res buf :=
  if Nat.ltb (length versionKey) 31 then Panic PanicIndex
  else Ok (take 31 versionKey ++ [leaf]).

(** The fields of [accounts.Account] the writer reads. *)
Record Account : Type := {
  Nonce : N;
  Balance : N;
  CodeHash : buf;
}.

(** [kv.VerkleTrie] *)
Definition VerkleTrie : string := "VerkleTrie".

Class VerkleBackend : Type := {
  (** [kv.RwTx] *)
  DB : Type;
  (** [verkle.VerkleNode] *)
  VerkleNode : Type;
  (** the leaf suffixes of package [vtree] *)
  CodeKeccakLeafKey : N;
  NonceLeafKey : N;
  BalanceLeafKey : N;
  CodeSizeLeafKey : N;
  (** the error of [collector.Collect(k, v)], if any, given what is staged *)
  collect_error : list (buf * buf) → buf → buf → option Error;
  (** the order in which [collector.Load] feeds the staged entries:
      sorted by key *)
  etl_sorted : list (buf * buf) → list (buf * buf);
  (** [db.ClearTable(table)] *)
  db_ClearTable : DB → string → DB * option Error;
  (** [rawdb.ReadVerkleNode(db, root)] *)
  db_ReadVerkleNode : DB → buf → Error + VerkleNode;
  (** [rawdb.WriteVerkleNode(db, node)] *)
  db_WriteVerkleNode : DB → VerkleNode → DB * option Error;
  (** [next(originalK, k, v)] of a load into [table] *)
  db_load_next : DB → string → buf → option buf → option buf → DB * option Error;
  (** [verkle.New()] *)
  verkle_New : VerkleNode;
  (** [root.InsertOrdered(k, v, flush)]: the new root and the nodes handed
      to [flush], in order *)
  node_InsertOrdered :
    VerkleNode → buf → buf → VerkleNode * list VerkleNode * option Error;
  (** [rootNode.Insert(k, v, resolver)], the resolver reading [db] *)
  node_Insert : VerkleNode → DB → buf → buf → VerkleNode * option Error;
  (** [node.Commitment().Bytes()] *)
  node_Commitment_Bytes : VerkleNode → buf;
  (** [node.Serialize()] *)
  node_Serialize : VerkleNode → Error + buf;
  (** whether the type assertion of the node to an internal node holds *)
  node_is_internal : VerkleNode → bool;
  (** [node.Flush(fn)]: the node afterwards and the nodes handed to [fn] *)
  node_Flush : VerkleNode → VerkleNode * list VerkleNode;
}.

Inductive VEvent : Type :=
| EvCollect (k v : buf)
| EvClearTable (table : string)
| EvReadVerkleNode (root : buf)
| EvWriteVerkleNode
| EvLoadNext (table : string) (originalK : buf) (k v : option buf)
| EvInsertOrdered (k v : buf)
| EvInsert (k v : buf).

Section Writer.

Context `{VB : VerkleBackend}.

(** [VerkleTreeWriter]: the transaction and the staged entries of its
    collector; [vcalls] is the ghost log of collaborator calls. *)
Record VerkleTreeWriter : Type := {
  db : DB;
  collector : list (buf * buf);
  vcalls : list VEvent;
}.

Definition VM (A : Type) : Type := StM VerkleTreeWriter A.

Definition vlog (e : VEvent) : VM unit :=
  fun w => (Ok tt, {| db := db w; collector := collector w; vcalls := vcalls w ++ [e] |}).

Definition vgets {A} (f : VerkleTreeWriter → A) : VM A := fun w => (Ok (f w), w).

(** A call on the transaction that returns an error. *)
Definition on_db (ev : VEvent) (f : DB → DB * option Error) : VM unit :=
  vlog ev ;;
  d <- vgets db ;;
  let r := f d in
  (fun w => (Ok tt, {| db := fst r; collector := collector w; vcalls := vcalls w |})) ;;
  check (snd r).

(** [v.collector.Collect(k, v)] *)
Definition Collect (k v : buf) : VM unit :=
  vlog (EvCollect k v) ;;
  staged <- vgets collector ;;
  match collect_error staged k v with
  | Some err => fail err
  | None =>
      fun w => (Ok tt, {| db := db w; collector := collector w ++ [(k, v)];
                          vcalls := vcalls w |})
  end.

Definition UpdateAccount (versionKey : buf) (codeSize : N) (isContract : bool)
    (acc : Account) : VM unit :=
  codeHashKey <- lift (sub_key versionKey CodeKeccakLeafKey) ;;
  nonceKey <- lift (sub_key versionKey NonceLeafKey) ;;
  balanceKey <- lift (sub_key versionKey BalanceLeafKey) ;;
  codeSizeKey <- lift (sub_key versionKey CodeSizeLeafKey) ;;
  balance <- lift (int256ToVerkleFormat (Balance acc) (zeros 32)) ;;
  nonce <- lift (LittleEndian_PutUint64 (zeros 32) (Nonce acc)) ;;
  Collect versionKey [0] ;;
  Collect nonceKey nonce ;;
  Collect balanceKey balance ;;
  if isContract then
    cs <- lift (LittleEndian_PutUint64 (zeros 32) codeSize) ;;
    Collect codeHashKey (CodeHash acc) ;;
    Collect codeSizeKey cs
  else ret tt.

Definition DeleteAccount (versionKey : buf) (isContract : bool) : VM unit :=
  codeHashKey <- lift (sub_key versionKey CodeKeccakLeafKey) ;;
  nonceKey <- lift (sub_key versionKey NonceLeafKey) ;;
  balanceKey <- lift (sub_key versionKey BalanceLeafKey) ;;
  codeSizeKey <- lift (sub_key versionKey CodeSizeLeafKey) ;;
  Collect versionKey [0] ;;
  Collect nonceKey [0] ;;
  Collect balanceKey [0] ;;
  if isContract then
    Collect codeHashKey [0] ;;
    Collect codeSizeKey [0]
  else ret tt.

Definition Insert (key value : buf) : VM unit := Collect key value.

(** The callback of [flushVerkleNode]: once an error is set, the remaining
    nodes are skipped. *)
Fixpoint write_nodes (nodes : list VerkleNode) : VM unit :=
  match nodes with
  | [] => ret tt
  | node :: rest =>
      on_db EvWriteVerkleNode (fun d => db_WriteVerkleNode d node) ;;
      write_nodes rest
  end.

(** [flushVerkleNode(db, node, ...)]; returns the node as [Flush] left it. *)
Definition flushVerkleNode (node : VerkleNode) : VM VerkleNode :=
  if node_is_internal node then
    let r := node_Flush node in
    write_nodes (snd r) ;;
    ret (fst r)
  else panic PanicNilDeref.

(** The callback of [collectVerkleNode]. *)
Fixpoint collect_nodes (nodes : list VerkleNode) : VM unit :=
  match nodes with
  | [] => ret tt
  | node :: rest =>
      match node_Serialize node with
      | inl err => fail err
      | inr encodedNode =>
          Collect (node_Commitment_Bytes node) encodedNode ;;
          collect_nodes rest
      end
  end.

(** [collectVerkleNode(v.collector, node, ...)] *)
Definition collectVerkleNode (node : VerkleNode) : VM VerkleNode :=
  if node_is_internal node then
    let r := node_Flush node in
    collect_nodes (snd r) ;;
    ret (fst r)
  else panic PanicNilDeref.

(** [next(k, nil, nil)] *)
Definition load_next (table : string) (originalK : buf) (k v : option buf) : VM unit :=
  on_db (EvLoadNext table originalK k v) (fun d => db_load_next d table originalK k v).

(** The flush callback handed to [InsertOrdered] by
    [CommitVerkleTreeFromScratch]: it collects into the local
    [verkleCollector] and panics on an error. *)
Fixpoint stage_nodes (nodes : list VerkleNode) (verkleCollector : list (buf * buf)) :
    Res (list (buf * buf)) :=
  match nodes with
  | [] => Ok verkleCollector
  | node :: rest =>
      match node_Serialize node with
      | inl _ => Panic (PanicStr "Serialize")
      | inr encodedNode =>
          match collect_error verkleCollector (node_Commitment_Bytes node) encodedNode with
          | Some _ => Panic (PanicStr "Collect")
          | None =>
              stage_nodes rest
                (verkleCollector ++ [(node_Commitment_Bytes node, encodedNode)])
          end
      end
  end.

(** The load function of [CommitVerkleTreeFromScratch], run over the
    sorted staged entries; the state of the loop is the root under
    construction and the local [verkleCollector]. *)
Fixpoint scratch_load (entries : list (buf * buf))
    (root : VerkleNode) (verkleCollector : list (buf * buf)) :
    VM (VerkleNode * list (buf * buf)) :=
  match entries with
  | [] => ret (root, verkleCollector)
  | (k, val) :: rest =>
      if Nat.eqb (length val) 0 then
        load_next VerkleTrie k None None ;;
        scratch_load rest root verkleCollector
      else
        vlog (EvInsertOrdered k val) ;;
        let r := node_InsertOrdered root k val in
        vc <- lift (stage_nodes (snd (fst r)) verkleCollector) ;;
        check (snd r) ;;
        load_next VerkleTrie k None None ;;
        scratch_load rest (fst (fst r)) vc
  end.

(** [verkleCollector.Load(v.db, kv.VerkleTrie, etl.IdentityLoadFunc, ...)] *)
Definition load_identity (entries : list (buf * buf)) : VM unit :=
  for_each (etl_sorted entries)
    (fun kv => load_next VerkleTrie (fst kv) (Some (fst kv)) (Some (snd kv))).

(** The hash returned next to a non-nil error is dropped: a result is
    either the hash or the error. *)
Definition CommitVerkleTreeFromScratch : VM buf :=
  on_db (EvClearTable VerkleTrie) (fun d => db_ClearTable d VerkleTrie) ;;
  staged <- vgets collector ;;
  r <- scratch_load (etl_sorted staged) verkle_New [] ;;
  root <- collectVerkleNode (fst r) ;;
  load_identity (snd r) ;;
  ret (node_Commitment_Bytes root).

(** [insertionBeforeFlushing := 2_000_000] *)
Definition insertionBeforeFlushing : N := 2000000.

(** The load function of the incremental path. *)
Fixpoint incremental_load (entries : list (buf * buf))
    (rootNode : VerkleNode) (insertions : N) : VM VerkleNode :=
  match entries with
  | [] => ret rootNode
  | (key, value) :: rest =>
      r <- (if Nat.ltb 0 (length value) then
              vlog (EvInsert key value) ;;
              d <- vgets db ;;
              let r := node_Insert rootNode d key value in
              check (snd r) ;;
              ret (fst r, insertions + 1)
            else ret (rootNode, insertions)) ;;
      r' <- (if N.ltb insertionBeforeFlushing (snd r) then
               node <- flushVerkleNode (fst r) ;;
               ret (node, 0)
             else ret r) ;;
      load_next VerkleTrie key None None ;;
      incremental_load rest (fst r') (snd r')
  end.

Definition CommitVerkleTree (root : buf) : VM buf :=
  if decide (root ≠ zero_hash) then
    vlog (EvReadVerkleNode root) ;;
    d <- vgets db ;;
    match db_ReadVerkleNode d root with
    | inl err => fail err
    | inr rootNode =>
        staged <- vgets collector ;;
        rootNode <- incremental_load (etl_sorted staged) rootNode 0 ;;
        let commitment := node_Commitment_Bytes rootNode in
        _ <- flushVerkleNode rootNode ;;
        ret (BytesToHash commitment)
    end
  else CommitVerkleTreeFromScratch.

(** ** The encodings as the spec words them *)

(** Byte [i] of the little-endian representation of [v]. *)
Definition le_byte (v : N) (i : nat) : N := (v / 256 ^ N.of_nat i) mod 256.

(** [v] as an [n]-byte little-endian integer. *)
Definition le_bytes (n : nat) (v : N) : buf := map (le_byte v) (seq 0 n).

(** The number a little-endian byte string denotes. *)
Fixpoint le_value (b : buf) : N :=
  match b with
  | [] => 0
  | x :: rest => x + 256 * le_value rest
  end.

(** An 8-byte little-endian integer at the start of a zeroed 32-byte
    buffer. *)
Definition uint64_leaf (v : N) : buf := le_bytes 8 v ++ zeros 24.

(** The big-endian byte string of [x], reversed, at the start of a zeroed
    32-byte buffer. *)
Definition balance_leaf (x : N) : buf :=
  reverse (big_Bytes x) ++ zeros (32 - length (big_Bytes x)).

(** The leaves [UpdateAccount] stages, in order. *)
Definition account_leaves (versionKey : buf) (codeSize : N) (isContract : bool)
    (acc : Account) : list (buf * buf) :=
  [(versionKey, [0]);
   (take 31 versionKey ++ [NonceLeafKey], uint64_leaf (Nonce acc));
   (take 31 versionKey ++ [BalanceLeafKey], balance_leaf (Balance acc))] ++
  (if isContract then
     [(take 31 versionKey ++ [CodeKeccakLeafKey], CodeHash acc);
      (take 31 versionKey ++ [CodeSizeLeafKey], uint64_leaf codeSize)]
   else []).

End Writer.

(** A concrete backend: the table is a list of key/value pairs, a node is
    the list of leaves inserted under it. *)
#[global] Instance sim_verkle : VerkleBackend := {|
  DB := list (buf * buf);
  VerkleNode := list (buf * buf);
  CodeKeccakLeafKey := 3;
  NonceLeafKey := 2;
  BalanceLeafKey := 1;
  CodeSizeLeafKey := 4;
  collect_error := fun _ _ _ => None;
  etl_sorted := fun l => l;
  db_ClearTable := fun _ _ => ([], None);
  db_ReadVerkleNode := fun d _ => inr d;
  db_WriteVerkleNode := fun d node => (d ++ node, None);
  db_load_next := fun d _ _ k v =>
    (match k, v with Some k', Some v' => d ++ [(k', v')] | _, _ => d end, None);
  verkle_New := [];
  node_InsertOrdered := fun n k v => (n ++ [(k, v)], [], None);
  node_Insert := fun n _ k v => (n ++ [(k, v)], None);
  node_Commitment_Bytes := fun n => BytesToHash (map (fun kv => N.of_nat (length (fst kv))) n);
  node_Serialize := fun n => inr (concat (map snd n));
  node_is_internal := fun _ => true;
  node_Flush := fun n => (n, [n]);
|}.

(** A writer on a table that already holds one node. *)
Definition sim_writer : @VerkleTreeWriter sim_verkle :=
  {| db := [([7], [7])]; collector := []; vcalls := [] |}.

(** A 32-byte version key and an account with nonce 5 and balance 258. *)
Definition sim_key : buf := map N.of_nat (seq 1 32).

Definition sim_account : Account :=
  {| Nonce := 5; Balance := 258; CodeHash := zeros 32 |}.

End Verkle.

(** * Further operations

    The remaining operations of the three packages: the write list
    [KvList], the per-block changeset bookkeeping of the overlay, the code
    chunk writer of the verkle tree writer and the field checks of
    [ErigonLog.UnmarshalJSON]. *)

(** ** The write list *)

(** [l.Len()] *)
Definition KvList_Len (l : KvList) : nat := length (Keys l).

(** [l.Less(i, j)]: [l.Keys[i] < l.Keys[j]], byte-wise. *)
Definition KvList_Less (l : KvList) (i j : nat) : Res bool :=
  match Keys l !! i, Keys l !! j with
  | Some a, Some b => Ok (String.ltb a b)
  | _, _ => Panic PanicIndex
  end.

(** [l.Swap(i, j)]: the keys are exchanged first, then the values; each
    tuple assignment reads both operands before it writes. *)
Definition KvList_Swap (i j : nat) : StM KvList unit :=
  fun l =>
    match Keys l !! i, Keys l !! j with
    | Some ki, Some kj =>
        let keys' := <[j := ki]> (<[i := kj]> (Keys l)) in
        match Vals l !! i, Vals l !! j with
        | Some vi, Some vj =>
            (Ok tt, {| Keys := keys'; Vals := <[j := vi]> (<[i := vj]> (Vals l)) |})
        | _, _ => (Panic PanicIndex, {| Keys := keys'; Vals := Vals l |})
        end
    | _, _ => (Panic PanicIndex, l)
    end.

(** The list a sequence of [Push] calls builds from the empty list. *)
Definition KvList_of (pairs : list (string * bytes)) : KvList :=
  foldl (fun l kv => KvList_Push l (fst kv) (snd kv)) {| Keys := []; Vals := [] |} pairs.

(** The pairs a list holds, position by position. *)
Definition KvList_pairs (l : KvList) : list (string * bytes) := zip (Keys l) (Vals l).

(** ** Per-block changesets *)

(** [copy(key[8:], blockHash[:])] into the 32 bytes left of a 40-byte key. *)
Definition fit32 (h : Hash) : string :=
  take_str 32 (String.append h (zeros_str 32)).

(** The 40-byte key of a block: the big-endian block number, then the
    hash. *)
Definition diffset_key (blockHash : Hash) (blockNumber : N) : string :=
  String.append (BigEndian_PutUint64 blockNumber) (fit32 blockHash).

(** The collaborators of [GetDiffset]. *)
Class DiffStore `{B : Backend} : Type := {
  (** [kv.DomainEntryDiff] *)
  DomainEntryDiff : Type;
  (** [changeset.Diffs[d].GetDiffSet()] *)
  cs_GetDiffSet : StateChangeSet → Domain → list DomainEntryDiff;
  (** [ReadDiffSet(tx, blockNumber, blockHash)] *)
  tx_ReadDiffSet :
    TemporalTx → N → Hash → Error + ((Domain → list DomainEntryDiff) * bool);
}.

Section OverlayMore.

Context `{B : Backend} `{OM : !OverlayMethods} `{DS : !DiffStore}.

(** A nil [pastChangesAccumulator] is created on the first save; the
    embedding keeps the nil map as the empty map. *)
Definition SavePastChangesetAccumulator (blockHash : Hash) (blockNumber : N)
    (acc : StateChangeSet) : M unit :=
  modify (fun s =>
    set_past (<[diffset_key blockHash blockNumber := acc]> (pastChangesAccumulator s)) s).

(** The array literal of [GetDiffset] fills the first four slots, Accounts,
    Storage, Code and Commitment; the other slots stay nil. *)
Definition diffs_of (changeset : StateChangeSet) : Domain → list DomainEntryDiff :=
  fun d =>
    match d with
    | AccountsDomain | StorageDomain | CodeDomain | CommitmentDomain =>
        cs_GetDiffSet changeset d
    | _ => []
    end.

(** [GetDiffset(tx, blockHash, blockNumber)], on the overlay's
    transaction. *)
Definition GetDiffset (s : SharedDomains) (blockHash : Hash) (blockNumber : N) :
    Error + ((Domain → list DomainEntryDiff) * bool) :=
  match pastChangesAccumulator s !! diffset_key blockHash blockNumber with
  | Some changeset => inr (diffs_of changeset, true)
  | None => tx_ReadDiffSet (roTtx s) blockNumber blockHash
  end.

(** The call [Flush] makes for one entry of the past changesets. *)
Definition diffset_event (kc : string * StateChangeSet) : Event :=
  EvWriteDiffSet (be_value (take_str 8 (fst kc)) 0)
                 (BytesToHash (toBytesZeroCopy (drop_str 8 (fst kc)))).

(** The cache map a case of [ReadsValid] reads. *)
Definition table_cache (s : SharedDomains) (kind : TableKind) :
    gmap string dataWithPrevStep :=
  match kind with
  | KAccounts => domains s AccountsDomain
  | KCode | KCodeSize => domains s CodeDomain
  | KStorage => storage s
  end.

End OverlayMore.

Module SimMore.

Import Sim.

(** The changesets of the in-memory backend carry no diffs. *)
#[global] Instance sim_diffs : DiffStore := {|
  DomainEntryDiff := unit;
  cs_GetDiffSet := fun _ _ => [];
  tx_ReadDiffSet := fun _ _ _ => inr (fun _ => [], false);
|}.

(** A changeset of the in-memory backend. *)
Definition a_changeset : @StateChangeSet sim_backend := tt.

(** A 32-byte block hash. *)
Definition a_hash : Hash := String.append "0123456789abcdef" "0123456789abcdef".

End SimMore.

(** ** Code chunks *)

Module VerkleMore.

Import Verkle.

Section Chunks.

Context `{VB : VerkleBackend}.

(** [for i, codeKey := range codeKeys { Collect(codeKey, chunks[i]) }],
    from index [i] on. *)
Fixpoint write_chunks (i : nat) (codeKeys chunks : list buf) : VM unit :=
  match codeKeys with
  | [] => ret tt
  | codeKey :: rest =>
      match chunks !! i with
      | None => panic PanicIndex
      | Some chunk =>
          Collect codeKey chunk ;;
          write_chunks (S i) rest chunks
      end
  end.

Definition WriteContractCodeChunks (codeKeys chunks : list buf) : VM unit :=
  write_chunks 0 codeKeys chunks.

(** The leaves [DeleteAccount] stages, in order. *)
Definition deleted_leaves (versionKey : buf) (isContract : bool) : list (buf * buf) :=
  [(versionKey, [0]);
   (take 31 versionKey ++ [NonceLeafKey], [0]);
   (take 31 versionKey ++ [BalanceLeafKey], [0])] ++
  (if isContract then
     [(take 31 versionKey ++ [CodeKeccakLeafKey], [0]);
      (take 31 versionKey ++ [CodeSizeLeafKey], [0])]
   else []).

(** A staged entry the incremental load inserts into the tree: one with a
    value of non-zero length. *)
Definition is_insertion (kv : buf * buf) : bool := Nat.ltb 0 (length (snd kv)).

Definition insertions (entries : list (buf * buf)) : list (buf * buf) :=
  List.filter is_insertion entries.

(** The tree insertions a log records, in order. *)
Fixpoint logged_inserts (evs : list VEvent) : list (buf * buf) :=
  match evs with
  | [] => []
  | EvInsert k v :: rest => (k, v) :: logged_inserts rest
  | _ :: rest => logged_inserts rest
  end.

(** The number of node writes a log records. *)
Fixpoint logged_writes (evs : list VEvent) : nat :=
  match evs with
  | [] => 0
  | EvWriteVerkleNode :: rest => S (logged_writes rest)
  | _ :: rest => logged_writes rest
  end.

End Chunks.

End VerkleMore.

(** ** The field checks of [ErigonLog.UnmarshalJSON] *)

Module Log.

(** [ErigonLog]; a nil [Topics] slice is [None]. *)
Record ErigonLog : Type := {
  Address : string;
  Topics : option (list string);
  Data : bytes;
  BlockNumber : N;
  TxHash : string;
  TxIndex : N;
  BlockHash : string;
  Index : N;
  Removed : bool;
  Timestamp : N;
}.

(** The local struct of [UnmarshalJSON] that [json.Unmarshal] fills: a
    pointer per field, nil when the input has no such field. *)
Record Decoded : Type := {
  dAddress : option string;
  dTopics : option (list string);
  dData : option bytes;
  dBlockNumber : option N;
  dTxHash : option string;
  dTxIndex : option N;
  dBlockHash : option string;
  dIndex : option N;
  dRemoved : option bool;
  dTimestamp : option N;
}.

Inductive Field : Type :=
| FAddress | FTopics | FData | FTxHash.

(** [errors.New("missing required field '...' for ErigonLog")] *)
Definition ErrMissing (f : Field) : Error :=
  ErrExternal
    (match f with
     | FAddress => "missing required field 'address' for ErigonLog"
     | FTopics => "missing required field 'topics' for ErigonLog"
     | FData => "missing required field 'data' for ErigonLog"
     | FTxHash => "missing required field 'transactionHash' for ErigonLog"
     end).

Definition set_Address (v : string) : StM ErigonLog unit :=
  fun l => (Ok tt, {| Address := v; Topics := Topics l; Data := Data l;
                      BlockNumber := BlockNumber l; TxHash := TxHash l;
                      TxIndex := TxIndex l; BlockHash := BlockHash l; Index := Index l;
                      Removed := Removed l; Timestamp := Timestamp l |}).

Definition set_Topics (v : option (list string)) : StM ErigonLog unit :=
  fun l => (Ok tt, {| Address := Address l; Topics := v; Data := Data l;
                      BlockNumber := BlockNumber l; TxHash := TxHash l;
                      TxIndex := TxIndex l; BlockHash := BlockHash l; Index := Index l;
                      Removed := Removed l; Timestamp := Timestamp l |}).

Definition set_Data (v : bytes) : StM ErigonLog unit :=
  fun l => (Ok tt, {| Address := Address l; Topics := Topics l; Data := v;
                      BlockNumber := BlockNumber l; TxHash := TxHash l;
                      TxIndex := TxIndex l; BlockHash := BlockHash l; Index := Index l;
                      Removed := Removed l; Timestamp := Timestamp l |}).

Definition set_TxHash (v : string) : StM ErigonLog unit :=
  fun l => (Ok tt, {| Address := Address l; Topics := Topics l; Data := Data l;
                      BlockNumber := BlockNumber l; TxHash := v;
                      TxIndex := TxIndex l; BlockHash := BlockHash l; Index := Index l;
                      Removed := Removed l; Timestamp := Timestamp l |}).

(** The optional fields, assigned only when present. *)
Definition set_optional (dec : Decoded) (tail : bool) : StM ErigonLog unit :=
  fun l =>
    if tail then
      (Ok tt, {| Address := Address l; Topics := Topics l; Data := Data l;
                 BlockNumber := BlockNumber l; TxHash := TxHash l;
                 TxIndex := default (TxIndex l) (dTxIndex dec);
                 BlockHash := default (BlockHash l) (dBlockHash dec);
                 Index := default (Index l) (dIndex dec);
                 Removed := default (Removed l) (dRemoved dec);
                 Timestamp := default (Timestamp l) (dTimestamp dec) |})
    else
      (Ok tt, {| Address := Address l; Topics := Topics l; Data := Data l;
                 BlockNumber := default (BlockNumber l) (dBlockNumber dec);
                 TxHash := TxHash l;
                 TxIndex := TxIndex l; BlockHash := BlockHash l; Index := Index l;
                 Removed := Removed l; Timestamp := Timestamp l |}).

(** [UnmarshalJSON] after [json.Unmarshal(input, &dec)] has returned
    without an error. *)
Definition assign_decoded (dec : Decoded) : StM ErigonLog unit :=
  match dAddress dec with
  | None => fail (ErrMissing FAddress)
  | Some a =>
      set_Address a ;;
      match dTopics dec with
      | None => fail (ErrMissing FTopics)
      | Some t =>
          set_Topics (Some t) ;;
          match dData dec with
          | None => fail (ErrMissing FData)
          | Some d =>
              set_Data d ;;
              set_optional dec false ;;
              match dTxHash dec with
              | None => fail (ErrMissing FTxHash)
              | Some h =>
                  set_TxHash h ;;
                  set_optional dec true
              end
          end
      end
  end.

(** [UnmarshalJSON]; [decode] is [json.Unmarshal] into the local struct. *)
Definition UnmarshalJSON (decode : string → Error + Decoded) (input : string) :
    StM ErigonLog unit :=
  match decode input with
  | inl err => fail err
  | inr dec => assign_decoded dec
  end.

(** The decoded struct that holds every field of the log [l]; its topics
    are nil when those of [l] are. *)
Definition encoded (l : ErigonLog) : Decoded :=
  {| dAddress := Some (Address l); dTopics := Topics l; dData := Some (Data l);
     dBlockNumber := Some (BlockNumber l); dTxHash := Some (TxHash l);
     dTxIndex := Some (TxIndex l); dBlockHash := Some (BlockHash l);
     dIndex := Some (Index l); dRemoved := Some (Removed l);
     dTimestamp := Some (Timestamp l) |}.

End Log.

(** * Properties of the monad *)

Section MonadFacts.

Context {S : Type}.

Lemma bind_Ok {A C} (m : StM S A) (k : A → StM S C) (st : S) (c : C) (st' : S) :
  bind m k st = (Ok c, st') →
  ∃ a st1, m st = (Ok a, st1) ∧ k a st1 = (Ok c, st').
Proof.
  unfold bind. destruct (m st) as [[a|e|p] st1]; intros H; try discriminate.
  eauto.
Qed.

Lemma bind_inv {A C} (m : StM S A) (k : A → StM S C) (st : S) (r : Res C) (st' : S) :
  bind m k st = (r, st') →
  (∃ a st1, m st = (Ok a, st1) ∧ k a st1 = (r, st')) ∨
  ((∃ e, m st = (Err e, st') ∧ r = Err e) ∨ (∃ p, m st = (Panic p, st') ∧ r = Panic p)).
Proof.
  unfold bind. destruct (m st) as [[a|e|p] st1]; intros H.
  - left. eauto.
  - right. left. inversion H; subst. eauto.
  - right. right. inversion H; subst. eauto.
Qed.

End MonadFacts.

(** * Properties of the overlay *)

Section OverlayFacts.

Context `{B : Backend} `{OM : !OverlayMethods}.

(** [m] keeps the property [P] of the overlay, whatever its result. *)
Definition preserves {A} (P : SharedDomains → Prop) (m : M A) : Prop :=
  ∀ st r st', P (sd st) → m st = (r, st') → P (sd st').

Lemma preserves_bind {A C} P (m : M A) (k : A → M C) :
  preserves P m → (∀ a, preserves P (k a)) → preserves P (bind m k).
Proof.
  intros Hm Hk st r st' HP H.
  apply bind_inv in H as [(a & st1 & H1 & H2)|[(e & H1 & _)|(p & H1 & _)]].
  - eapply Hk; [|exact H2]. eapply Hm; eauto.
  - eapply Hm; eauto.
  - eapply Hm; eauto.
Qed.

Lemma preserves_pure {A} P (m : M A) :
  (∀ st, snd (m st) = st) → preserves P m.
Proof.
  intros Hm st r st' HP H. specialize (Hm st). rewrite H in Hm. simpl in Hm.
  by subst.
Qed.

Lemma preserves_ret {A} P (a : A) : preserves P (ret a).
Proof. by apply preserves_pure. Qed.

Lemma preserves_fail {A} P e : preserves P (@fail _ A e).
Proof. by apply preserves_pure. Qed.

Lemma preserves_panic {A} P p : preserves P (@panic _ A p).
Proof. by apply preserves_pure. Qed.

Lemma preserves_lift {A} P (r : Res A) : preserves P (lift r).
Proof. by apply preserves_pure. Qed.

Lemma preserves_gets {A} P (f : SharedDomains → A) : preserves P (gets f).
Proof. by apply preserves_pure. Qed.

Lemma preserves_check P o : preserves P (check o).
Proof. destruct o; by apply preserves_pure. Qed.

Lemma preserves_emit P ev : preserves P (emit ev).
Proof. intros st r st' HP H. inversion H; subst. exact HP. Qed.

Lemma preserves_modify P f :
  (∀ s, P s → P (f s)) → preserves P (modify f).
Proof. intros Hf st r st' HP H. inversion H; subst. simpl. auto. Qed.

Lemma preserves_for_each {A} P (l : list A) (f : A → M unit) :
  (∀ x, preserves P (f x)) → preserves P (for_each l f).
Proof.
  intros Hf. induction l as [|x l IH]; simpl.
  - apply preserves_ret.
  - apply preserves_bind; auto.
Qed.

(** A property that only reads the cache maps, the position and the
    transaction is kept by calls on the writers and on the context. *)
Definition cache_only (P : SharedDomains → Prop) : Prop :=
  ∀ s s', domains s' = domains s → storage s' = storage s →
          txNum s' = txNum s → roTtx s' = roTtx s → P s → P s'.

Lemma preserves_on_ctx P ev f : cache_only P → preserves P (on_ctx ev f).
Proof.
  intros HP. unfold on_ctx. apply preserves_bind; [apply preserves_emit|].
  intros _. apply preserves_modify. intros s. by apply HP.
Qed.

Lemma preserves_on_writer P d ev f : cache_only P → preserves P (on_writer d ev f).
Proof.
  intros HP. unfold on_writer. apply preserves_bind; [apply preserves_emit|].
  intros _. apply preserves_bind; [apply preserves_gets|]. intros ws.
  destruct (ws d); [|apply preserves_panic].
  apply preserves_bind; [|intros; apply preserves_check].
  apply preserves_modify. intros s. by apply HP.
Qed.

Lemma preserves_TouchKey P d k v : cache_only P → preserves P (TouchKey d k v).
Proof. intros. by apply preserves_on_ctx. Qed.

Lemma preserves_PutWithPrev P d k1 k2 v pv ps :
  cache_only P → preserves P (PutWithPrev d k1 k2 v pv ps).
Proof.
  intros. unfold PutWithPrev. apply preserves_bind; [apply preserves_gets|].
  intros. by apply preserves_on_writer.
Qed.

Lemma preserves_DeleteWithPrev P d k1 k2 pv ps :
  cache_only P → preserves P (DeleteWithPrev d k1 k2 pv ps).
Proof.
  intros. unfold DeleteWithPrev. apply preserves_bind; [apply preserves_gets|].
  intros. by apply preserves_on_writer.
Qed.

(** ** [put] and [get] *)

Definition entry_at (s : SharedDomains) (val : bytes) : dataWithPrevStep :=
  {| data := val; prevStep := txNum s / tx_StepSize (roTtx s) |}.

Lemma put_Ok domain key val st st' :
  put domain key val st = (Ok tt, st') →
  (∀ d, cache_of d (sd st') =
        if decide (d = domain) then <[key := entry_at (sd st) val]> (cache_of domain (sd st))
        else cache_of d (sd st)) ∧
  txNum (sd st') = txNum (sd st) ∧ roTtx (sd st') = roTtx (sd st) ∧
  calls st' = calls st.
Proof.
  unfold put, StepSize, bind, gets, lift, ret, go_div, modify, entry_at; simpl.
  destruct (N.eqb _ _); [discriminate|].
  destruct (decide (domain = StorageDomain)) as [->|Hd]; intros H; inversion H; subst; simpl.
  - split; [|done]. intros d. unfold cache_of; simpl.
    repeat case_decide; subst; done.
  - split; [|done]. intros d. unfold cache_of; simpl.
    repeat case_decide; subst; try done.
    + by rewrite fn_lookup_insert.
    + by rewrite fn_lookup_insert_ne.
Qed.

Lemma get_hit table key keyS e st :
  toStringZeroCopy key = Ok keyS →
  cache_of table (sd st) !! keyS = Some e →
  get table key st = (Ok (data e, prevStep e, true), st).
Proof.
  intros Hk He. unfold get, bind, lift, gets, ret. rewrite Hk. simpl.
  by rewrite He.
Qed.

Lemma toStringZeroCopy_nonempty (k : bytes) :
  content k ≠ EmptyString → toStringZeroCopy k = Ok (content k).
Proof. unfold toStringZeroCopy. destruct (content k); done. Qed.

Lemma GetLatest_hit domain key e st :
  domain ≠ CommitmentDomain →
  content key ≠ EmptyString →
  cache_of domain (sd st) !! content key = Some e →
  GetLatest domain key st = (Ok (data e, prevStep e), st).
Proof.
  intros Hd Hk He. unfold GetLatest.
  destruct (decide _); [done|].
  unfold bind. erewrite get_hit; eauto using toStringZeroCopy_nonempty.
Qed.

Lemma toStringZeroCopy_Ok (k : bytes) (s : string) :
  toStringZeroCopy k = Ok s → s = content k ∧ content k ≠ EmptyString.
Proof.
  unfold toStringZeroCopy. destruct (content k); [done|].
  intros H; inversion H; done.
Qed.

Lemma get_state table key st : snd (get table key st) = st.
Proof.
  unfold get. unfold bind, lift, gets, ret.
  destruct (toStringZeroCopy key); simpl; try done.
  destruct (cache_of table (sd st) !! a); done.
Qed.

Lemma GetLatest_sd domain k st r st1 :
  domain ≠ CommitmentDomain →
  GetLatest domain k st = (r, st1) → sd st1 = sd st.
Proof.
  intros Hd. unfold GetLatest. destruct (decide _); [done|].
  unfold bind at 1. pose proof (get_state domain k st) as Hg.
  destruct (get domain k st) as [[[[v ps] ok]|e|p] s0]; simpl in Hg; subst s0;
    [|intros H; inversion H; by subst..].
  destruct ok; [intros H; inversion H; by subst|].
  unfold bind, emit, gets, fail, ret. simpl.
  destruct (tx_GetLatest _ _ _) as [e|[v' step]]; intros H; inversion H; by subst.
Qed.

Lemma resolvePrev_sd domain k pv ps st r st1 :
  domain ≠ CommitmentDomain →
  resolvePrev domain k pv ps st = (r, st1) → sd st1 = sd st.
Proof.
  intros Hd. unfold resolvePrev. destruct (is_nil pv).
  - by apply GetLatest_sd.
  - intros H; inversion H; by subst.
Qed.

(** The overlay [s] is [s0] after one [put] of [val] under [key] in domain
    [d]: that entry is cached, every other entry, the position and the
    transaction are those of [s0]. *)
Definition written (d : Domain) (key : string) (val : bytes)
    (s0 s : SharedDomains) : Prop :=
  (∀ d', cache_of d' s =
         if decide (d' = d) then <[key := entry_at s0 val]> (cache_of d s0)
         else cache_of d' s0) ∧
  txNum s = txNum s0 ∧ roTtx s = roTtx s0.

Lemma cache_of_ext s s' d :
  domains s' = domains s → storage s' = storage s → cache_of d s' = cache_of d s.
Proof. intros Hd Hs. unfold cache_of. by rewrite Hd, Hs. Qed.

Lemma written_cache_only d key val s0 : cache_only (written d key val s0).
Proof.
  intros s s' Hd Hs Ht Hr (He & H1 & H2). unfold written.
  rewrite Ht, Hr. split; [|done]. intros d'.
  rewrite (cache_of_ext s s' d' Hd Hs). apply He.
Qed.

Lemma written_lookup d key val s0 s :
  written d key val s0 s → cache_of d s !! key = Some (entry_at s0 val).
Proof.
  intros (He & _). rewrite He, decide_True by done. apply lookup_insert_eq.
Qed.

Lemma put_then d key val (tail : M unit) st st' :
  preserves (written d key val (sd st)) tail →
  bind (put d key val) (fun _ => tail) st = (Ok tt, st') →
  written d key val (sd st) (sd st').
Proof.
  intros Ht H. apply bind_Ok in H as ([] & st1 & Hp & H2).
  apply put_Ok in Hp as (Hc & Htx & Hro & _).
  eapply Ht; [|exact H2]. split; [|done]. exact Hc.
Qed.

Lemma TouchKey_sd d key val st r st1 :
  TouchKey d key val st = (r, st1) →
  domains (sd st1) = domains (sd st) ∧ storage (sd st1) = storage (sd st) ∧
  txNum (sd st1) = txNum (sd st) ∧ roTtx (sd st1) = roTtx (sd st).
Proof.
  unfold TouchKey, on_ctx, bind, emit, modify. simpl.
  intros H; inversion H; subst; done.
Qed.

Lemma written_from s0 s0' d key val s :
  domains s0' = domains s0 → storage s0' = storage s0 →
  txNum s0' = txNum s0 → roTtx s0' = roTtx s0 →
  written d key val s0' s ↔ written d key val s0 s.
Proof.
  intros Hd Hs Ht Hr. unfold written, entry_at. rewrite Ht, Hr.
  rewrite (cache_of_ext s0 s0' d Hd Hs).
  split; intros (He & H12); (split; [|done]); intros d'; specialize (He d');
    by rewrite (cache_of_ext s0 s0' d' Hd Hs) in *.
Qed.

Lemma touch_put_then d' key' val' d key val (tail : M unit) st st' :
  preserves (written d key val (sd st)) tail →
  bind (TouchKey d' key' val') (fun _ => bind (put d key val) (fun _ => tail)) st
    = (Ok tt, st') →
  written d key val (sd st) (sd st').
Proof.
  intros Ht H. apply bind_Ok in H as ([] & st1 & Hp & H2).
  apply TouchKey_sd in Hp as (Hd & Hs & Htx & Hr).
  apply (written_from _ _ _ _ _ _ Hd Hs Htx Hr).
  eapply put_then; [|exact H2].
  intros st2 r st3 Hw Hrun.
  apply (written_from _ _ _ _ _ _ Hd Hs Htx Hr).
  apply (written_from _ _ _ _ _ _ Hd Hs Htx Hr) in Hw. eauto.
Qed.

(** A [DomainPut] that the equal-value check does not suppress leaves its
    value cached under the key, with the step of the put. *)
Lemma DomainPut_written d k1 val pv ps st st' :
  is_nil val = false →
  content k1 ≠ EmptyString →
  DomainPut d k1 None val pv ps st = (Ok tt, st') →
  (d = CodeDomain ∨ d = ReceiptDomain →
   ∀ p st1, resolvePrev d k1 pv ps st = (Ok p, st1) →
            bytes_Equal (fst p) val = false) →
  ∃ st1 p, resolvePrev d k1 pv ps st = (Ok p, st1) ∧
           written d (content k1) val (sd st1) (sd st').
Proof.
  intros Hval Hk H Hns. unfold DomainPut in H. simpl in H. rewrite Hval in H.
  apply bind_Ok in H as (p & st1 & Hp & H).
  exists st1, p. split; [done|].
  assert (Hkey : toStringZeroCopy k1 = Ok (content k1))
    by (by apply toStringZeroCopy_nonempty).
  destruct d; simpl in H.
  - unfold updateAccountData in H. eapply touch_put_then; [|exact H].
    apply preserves_PutWithPrev, written_cache_only.
  - unfold writeAccountStorage in H. simpl in H.
    eapply touch_put_then; [|exact H].
    apply preserves_PutWithPrev, written_cache_only.
  - rewrite (Hns (or_introl eq_refl) _ _ Hp) in H.
    unfold updateAccountCode in H. eapply touch_put_then; [|exact H].
    destruct (Nat.eqb _ _).
    + apply preserves_DeleteWithPrev, written_cache_only.
    + apply preserves_PutWithPrev, written_cache_only.
  - unfold bind at 1 in H. unfold lift in H. rewrite Hkey in H.
    eapply put_then; [|exact H].
    apply preserves_PutWithPrev, written_cache_only.
  - rewrite (Hns (or_intror eq_refl) _ _ Hp) in H.
    unfold bind at 1 in H. unfold lift in H. rewrite Hkey in H.
    eapply put_then; [|exact H].
    apply preserves_PutWithPrev, written_cache_only.
  - unfold bind at 1 in H. unfold lift in H. rewrite Hkey in H.
    eapply put_then; [|exact H].
    apply preserves_PutWithPrev, written_cache_only.
Qed.

(** C1 (amended). After a successful [DomainPut(D, K, nil, V, prev, step)]
    with a non-nil value [V] and a non-empty key [K] that the equal-value
    check of the Code and default branches does not suppress, the overlay
    lookup [get(D, K)] returns [V] with the step [txNum / StepSize] of the
    put; for every domain but Commitment [GetLatest(D, K)] returns that
    value and step and leaves the overlay and the log of collaborator calls
    as they are: no read reaches the store. *)
Theorem DomainPut_then_GetLatest d k1 val pv ps st st' :
  is_nil val = false →
  content k1 ≠ EmptyString →
  DomainPut d k1 None val pv ps st = (Ok tt, st') →
  (d = CodeDomain ∨ d = ReceiptDomain →
   ∀ p st1, resolvePrev d k1 pv ps st = (Ok p, st1) →
            bytes_Equal (fst p) val = false) →
  let step := txNum (sd st') / tx_StepSize (roTtx (sd st')) in
  get d k1 st' = (Ok (val, step, true), st') ∧
  (d ≠ CommitmentDomain →
   GetLatest d k1 st' = (Ok (val, step), st') ∧
   step = txNum (sd st) / tx_StepSize (roTtx (sd st))).
Proof.
  intros Hval Hk H Hns.
  destruct (DomainPut_written _ _ _ _ _ _ _ Hval Hk H Hns)
  as (st1 & p & Hp & Hw).
  pose proof (written_lookup _ _ _ _ _ Hw) as Hl.
  destruct Hw as (_ & Ht & Hr).
  simpl. rewrite Ht, Hr. split.
  - erewrite get_hit; [|by apply toStringZeroCopy_nonempty|exact Hl]. done.
  - intros Hd. split.
    + erewrite GetLatest_hit; [|done|done|exact Hl]. done.
    + by rewrite (resolvePrev_sd _ _ _ _ _ _ _ Hd Hp).
Qed.

(** C7 (amended). [DomainPut] with a nil value (and a nil second key part)
    returns the "trying to put nil value" error and leaves the overlay, the
    write buffers, the commitment context and the log of calls unchanged. *)
Theorem DomainPut_nil_value_rejected d k1 pv ps st :
  DomainPut d k1 None None pv ps st = (Err (ErrPutNil d), st).
Proof. reflexivity. Qed.

(** C9. [DomainPut] with a non-nil second key part panics with [panic(1)]
    before the nil-value check and before any state change, whatever the
    domain, keys and values. *)
Theorem DomainPut_k2_panics d k1 k2 val pv ps st :
  DomainPut d k1 (Some k2) val pv ps st = (Panic (PanicInt 1), st).
Proof. reflexivity. Qed.

(** ** Flush and ClearRam *)

(** A property of the cache maps alone. *)
Definition maps_only (P : SharedDomains → Prop) : Prop :=
  ∀ s s', domains s' = domains s → storage s' = storage s → P s → P s'.

Lemma maps_only_cache_only P : maps_only P → cache_only P.
Proof. intros HP s s' Hd Hs _ _. by apply HP. Qed.

Lemma preserves_on_tx P ev f : maps_only P → preserves P (on_tx ev f).
Proof.
  intros HP. unfold on_tx. apply preserves_bind; [apply preserves_emit|].
  intros _. apply preserves_bind; [apply preserves_gets|]. intros tx.
  apply preserves_bind; [|intros; apply preserves_check].
  apply preserves_modify. intros s. by apply HP.
Qed.

Lemma preserves_flush_diffset P kc : maps_only P → preserves P (flush_diffset kc).
Proof.
  intros HP. unfold flush_diffset. destruct (Nat.ltb _ _).
  - apply preserves_panic.
  - by apply preserves_on_tx.
Qed.

Lemma preserves_flush_domain_writer P di :
  maps_only P → preserves P (flush_domain_writer di).
Proof.
  intros HP. unfold flush_domain_writer.
  apply preserves_bind; [apply preserves_gets|]. intros ws.
  destruct (ws di); [|apply preserves_ret].
  apply preserves_bind; [apply preserves_emit|]. intros _.
  apply preserves_bind; [apply preserves_gets|]. intros tx.
  apply preserves_bind; [apply preserves_modify; intros s; by apply HP|]. intros _.
  apply preserves_bind; [apply preserves_check|]. intros _.
  by apply preserves_on_tx.
Qed.

Lemma preserves_flush_ii_writer P i : maps_only P → preserves P (flush_ii_writer i).
Proof.
  intros HP. unfold flush_ii_writer.
  apply preserves_bind; [apply preserves_gets|]. intros ws.
  destruct (ws !! i) as [[w|]|]; try apply preserves_ret.
  apply preserves_bind; [apply preserves_emit|]. intros _.
  apply preserves_bind; [apply preserves_gets|]. intros tx.
  apply preserves_bind; [apply preserves_modify; intros s; by apply HP|]. intros _.
  apply preserves_check.
Qed.

Lemma preserves_close_domain_writer P di :
  maps_only P → preserves P (close_domain_writer di).
Proof.
  intros HP. unfold close_domain_writer.
  apply preserves_bind; [apply preserves_gets|]. intros ws.
  destruct (ws di); [|apply preserves_ret].
  apply preserves_bind; [apply preserves_emit|]. intros _.
  apply preserves_modify; intros s; by apply HP.
Qed.

Lemma preserves_close_ii_writer P i : maps_only P → preserves P (close_ii_writer i).
Proof.
  intros HP. unfold close_ii_writer.
  apply preserves_bind; [apply preserves_gets|]. intros ws.
  destruct (ws !! i) as [[w|]|]; try apply preserves_ret.
  apply preserves_bind; [apply preserves_emit|]. intros _.
  apply preserves_bind; [apply preserves_gets|]. intros tx.
  apply preserves_modify; intros s; by apply HP.
Qed.

Lemma preserves_ComputeCommitment P b n lp :
  (∀ s, P s → P (snd (sd_ComputeCommitment s b n lp))) →
  preserves P (ComputeCommitment b n lp).
Proof.
  intros HP st r st' H0 H. unfold ComputeCommitment in H.
  inversion H; subst; simpl. by apply HP.
Qed.

(** [Flush] writes the cache maps nowhere but inside [ComputeCommitment]. *)
Lemma preserves_Flush P :
  maps_only P →
  (∀ s b n lp, P s → P (snd (sd_ComputeCommitment s b n lp))) →
  preserves P Flush.
Proof.
  intros HP HC. unfold Flush.
  apply preserves_bind; [apply preserves_gets|]. intros past.
  apply preserves_bind;
    [apply preserves_for_each; intros; by apply preserves_flush_diffset|]. intros _.
  apply preserves_bind; [apply preserves_modify; intros s; by apply HP|]. intros _.
  apply preserves_bind; [apply preserves_gets|]. intros bn.
  apply preserves_bind; [apply preserves_ComputeCommitment; auto|]. intros _.
  apply preserves_bind;
    [apply preserves_for_each; intros; by apply preserves_flush_domain_writer|].
  intros _.
  apply preserves_bind; [apply preserves_gets|]. intros iis.
  apply preserves_bind;
    [apply preserves_for_each; intros; by apply preserves_flush_ii_writer|].
  intros _.
  apply preserves_bind.
  { destruct (Z.eqb _ _); [apply preserves_ret|by apply preserves_on_tx]. }
  intros _.
  apply preserves_bind;
    [apply preserves_for_each; intros; by apply preserves_close_domain_writer|].
  intros _.
  apply preserves_bind; [apply preserves_gets|]. intros iis'.
  apply preserves_for_each; intros; by apply preserves_close_ii_writer.
Qed.

Lemma get_by_lookup table key st st' :
  cache_of table (sd st') !! content key = cache_of table (sd st) !! content key →
  fst (get table key st') = fst (get table key st).
Proof.
  intros H. unfold get, bind, lift, gets, ret.
  destruct (toStringZeroCopy key) as [keyS| |] eqn:Hk; simpl; try done.
  apply toStringZeroCopy_Ok in Hk as [-> _]. rewrite H.
  by destruct (cache_of table (sd st) !! content key).
Qed.

Lemma ClearRam_empties b st d :
  cache_of d (sd (snd (ClearRam b st))) = ∅.
Proof.
  unfold ClearRam, cache_of. destruct b; simpl; by case_decide.
Qed.

(** C6. A successful [Flush] leaves every cached read as it was: for each
    domain and key, [get] returns the same value, step and hit flag after
    the flush as before it, provided [ComputeCommitment] (the one callee of
    [Flush] that receives the overlay, declared outside the embedded file)
    does not rewrite that cache entry.  [ClearRam] after the flush does
    empty the cache: the same [get] then misses. *)
Theorem Flush_keeps_read_cache d k st st' :
  (∀ s b n lp,
     cache_of d (snd (sd_ComputeCommitment s b n lp)) !! content k
     = cache_of d s !! content k) →
  Flush st = (Ok tt, st') →
  fst (get d k st') = fst (get d k st) ∧
  (∀ b, content k ≠ EmptyString →
        fst (get d k (snd (ClearRam b st'))) = Ok (None, 0, false)).
Proof.
  intros HC H. split.
  - apply get_by_lookup.
    pose (P := fun s : SharedDomains =>
                 cache_of d s !! content k = cache_of d (sd st) !! content k).
    assert (HP : maps_only P).
    { intros s s' Hd Hs. unfold P. by rewrite (cache_of_ext s s' d Hd Hs). }
    refine (preserves_Flush P HP _ st _ st' _ H); [|done].
    intros s b n lp. unfold P. by rewrite HC.
  - intros b Hk. unfold get, bind, lift, gets, ret.
    rewrite (toStringZeroCopy_nonempty _ Hk). simpl.
    by rewrite ClearRam_empties, lookup_empty.
Qed.

(** ** Unwind *)

(** Steps (3) and (4) always return normally, in the state [unwound]. *)
Lemma reposition_run {A} blockTo txTo (k : M A) s2 :
  (ClearRam true ;; SetTxNum txTo ;; SetBlockNum blockTo ;; k) s2
  = k (unwound blockTo txTo s2).
Proof.
  unfold unwound.
  change (calls s2 ++ [EvUpdatesReset; EvCtxReset])
    with (calls s2 ++ ([EvUpdatesReset] ++ [EvCtxReset])).
  rewrite app_assoc. reflexivity.
Qed.

(** C2. With a non-zero aggregation step size, [Unwind] is the five-step
    protocol: a [Flush]; the store's unwind to [txTo] with the changeset;
    the overlay cleared, the commitment context reset and the position set
    to [(blockTo, txTo)]; a final [Flush].  When the first flush or the
    store's unwind does not return normally, [Unwind] ends there with that
    result and no later step runs. *)
Theorem Unwind_is_protocol blockTo txTo changeset st :
  tx_StepSize (roTtx (sd st)) ≠ 0 →
  Unwind blockTo txTo changeset st = Unwind_protocol blockTo txTo changeset st.
Proof.
  intros Hss. unfold Unwind, Unwind_protocol, store_unwind.
  unfold bind at 1. unfold StepSize at 1. unfold bind at 1, gets at 1, ret at 1.
  unfold bind at 1. unfold lift, go_div.
  destruct (N.eqb_spec (tx_StepSize (roTtx (sd st))) 0) as [|_]; [done|].
  unfold bind at 1. destruct (Flush st) as [[[]|e|p] s1]; [|done..].
  unfold bind at 1.
  destruct (on_tx _ _ s1) as [[[]|e|p] s2]; [|done..].
  apply reposition_run.
Qed.

(** ** Prefix deletion *)

Lemma ram_view_size (m : gmap string dataWithPrevStep) :
  ram_view (negb (Nat.eqb (size m) 0)) m = (fun e => (data e, prevStep e)) <$> m.
Proof.
  unfold ram_view. destruct (Nat.eqb_spec (size m) 0) as [H0|]; simpl; [|done].
  apply map_size_empty_inv in H0. subst. by rewrite fmap_empty.
Qed.

(** Once every visited key holds an empty value in the overlay and the
    other keys are as before, nothing is left to visit. *)
Lemma merged_entries_after_tombs prefix (m m' : gmap string dataWithPrevStep) cursor :
  (∀ k, is_Some (merged_entries prefix (negb (Nat.eqb (size m) 0)) m cursor !! k) →
        ∃ e, m' !! k = Some e ∧ len (data e) = 0%nat) →
  (∀ k, merged_entries prefix (negb (Nat.eqb (size m) 0)) m cursor !! k = None →
        m' !! k = m !! k) →
  merged_entries prefix (negb (Nat.eqb (size m') 0)) m' cursor = ∅.
Proof.
  unfold merged_entries. rewrite !ram_view_size. intros Hin Hout.
  apply map_empty_filter. intros k x Hx Hlive.
  assert (Hsame_if : m' !! k = m !! k →
    (((fun e => (data e, prevStep e)) <$> m') ∪ list_to_map cursor) !! k =
    (((fun e => (data e, prevStep e)) <$> m) ∪ list_to_map cursor) !! k).
  { intros Hs. by rewrite !lookup_union, !lookup_fmap, Hs. }
  destruct (filter (live_under prefix)
              (((fun e => (data e, prevStep e)) <$> m) ∪ list_to_map cursor) !! k)
    as [y|] eqn:Hy.
  - destruct (Hin k (mk_is_Some _ _ Hy)) as (e & He & Hlen).
    apply lookup_union_Some_raw in Hx as [Hx|[Hx _]];
      rewrite lookup_fmap, He in Hx; simpl in Hx; [|done].
    inversion Hx; subst x. destruct Hlive as [_ Hl]. by simpl in Hl.
  - pose proof (Hsame_if (Hout k Hy)) as Hsame. rewrite Hsame in Hx.
    apply map_lookup_filter_None in Hy as [Hnone|Hnot]; [congruence|].
    by apply (Hnot x).
Qed.

Lemma yielded_entries_live prefix b m cursor e :
  e ∈ yielded_entries prefix b m cursor →
  merged_entries prefix b m cursor !! fst e = Some (snd e) ∧ len (fst (snd e)) ≠ 0%nat.
Proof.
  unfold yielded_entries. rewrite merge_sort_Permutation.
  destruct e as [k x]. rewrite elem_of_map_to_list. intros H. split; [done|].
  unfold merged_entries in H. apply map_lookup_filter_Some in H as [_ [_ Hl]]. done.
Qed.

Lemma yielded_entries_keys prefix b m cursor k :
  k ∈ (yielded_entries prefix b m cursor).*1 ↔
  is_Some (merged_entries prefix b m cursor !! k).
Proof.
  unfold yielded_entries. rewrite merge_sort_Permutation.
  rewrite list_elem_of_fmap. split.
  - intros ([k' x] & -> & H). apply elem_of_map_to_list in H. by eexists.
  - intros [x Hx]. exists (k, x). split; [done|]. by apply elem_of_map_to_list.
Qed.

Lemma yielded_entries_empty prefix b m cursor :
  merged_entries prefix b m cursor = ∅ → yielded_entries prefix b m cursor = [].
Proof.
  intros H. unfold yielded_entries. rewrite H, map_to_list_empty. reflexivity.
Qed.

Lemma visit_tombs es acc :
  visit tomb_visitor es acc = Ok (acc ++ map tomb_of es).
Proof.
  revert acc. induction es as [|e es IH]; intros acc; simpl.
  - by rewrite app_nil_r.
  - rewrite IH. by rewrite <- app_assoc.
Qed.

Lemma visit_count es n :
  visit count_visitor es n = Ok (length es + n)%nat.
Proof.
  revert n. induction es as [|e es IH]; intros n; simpl; [done|].
  rewrite IH. f_equal. lia.
Qed.

Lemma IteratePrefix_storage {A} prefix (it : Visitor A) acc st :
  IteratePrefix StorageDomain prefix it acc st =
  (match storage_entries prefix (sd st) with
   | inl err => Err err
   | inr es => visit it es acc
   end,
   {| sd := sd st; calls := calls st ++ [EvStoreCursor StorageDomain prefix] |}).
Proof.
  unfold IteratePrefix, IterateStoragePrefix, debugIteratePrefix, storage_entries,
    StepSize, bind, gets, emit, ret, fail, lift. simpl.
  by destruct (tx_prefix_cursor _ _ _).
Qed.

(** One step of the deletion loop: a direct Storage delete of a visited
    entry writes a tombstone under its key. *)
Lemma DomainDel_storage_step k v step st st' :
  is_nil v = false →
  DomainDel_inner StorageDomain (Some k) v step st = (Ok tt, st') →
  written StorageDomain k None (sd st) (sd st').
Proof.
  intros Hv H. unfold DomainDel_inner, DomainDel_body, resolvePrev in H.
  rewrite Hv in H. unfold bind at 1 in H. unfold ret at 1 in H.
  unfold delAccountStorage in H. simpl in H.
  eapply touch_put_then; [|exact H].
  apply preserves_DeleteWithPrev, written_cache_only.
Qed.

Lemma written_storage k val s0 s :
  written StorageDomain k val s0 s →
  storage s = <[k := entry_at s0 val]> (storage s0) ∧
  (∀ d, d ≠ StorageDomain → cache_of d s = cache_of d s0) ∧
  txNum s = txNum s0 ∧ roTtx s = roTtx s0.
Proof.
  intros (He & Ht & Hr). split; [|split; [|done]].
  - specialize (He StorageDomain). rewrite decide_True in He by done. exact He.
  - intros d Hd. specialize (He d). by rewrite decide_False in He.
Qed.

(** The deletion loop over the snapshot [es]: each visited key ends as a
    tombstone, every other storage key, the other domains and the
    transaction are untouched. *)
Lemma delete_loop es st st' :
  (∀ e, e ∈ es → len (fst (snd e)) ≠ 0%nat) →
  for_each (map tomb_of es)
    (fun tomb => DomainDel_inner StorageDomain (fst (fst tomb)) (snd (fst tomb)) (snd tomb))
    st = (Ok tt, st') →
  (∀ k, k ∈ es.*1 → ∃ e, storage (sd st') !! k = Some e ∧ data e = None) ∧
  (∀ k, k ∉ es.*1 → storage (sd st') !! k = storage (sd st) !! k) ∧
  (∀ d, d ≠ StorageDomain → cache_of d (sd st') = cache_of d (sd st)) ∧
  txNum (sd st') = txNum (sd st) ∧ roTtx (sd st') = roTtx (sd st).
Proof.
  revert st. induction es as [|e es IH]; intros st Hlive H; simpl in H.
  - inversion H; subst. split; [|done]. intros k Hk. by apply elem_of_nil in Hk.
  - apply bind_Ok in H as ([] & st1 & H1 & H2).
    apply DomainDel_storage_step in H1.
    2:{ assert (Hl : len (fst (snd e)) ≠ 0%nat) by (apply Hlive; left).
        destruct (fst (snd e)); [done|]. by simpl in Hl. }
    apply written_storage in H1 as (Hs1 & Hd1 & Ht1 & Hr1).
    apply IH in H2 as (Hin & Hout & Hd2 & Ht2 & Hr2).
    2:{ intros e' He'. apply Hlive. by right. }
    split; [|split; [|split; [|split]]].
    + intros k Hk. destruct (decide (k ∈ es.*1)) as [Hk'|Hk']; [by apply Hin|].
      rewrite (Hout k Hk'), Hs1.
      simpl in Hk. apply elem_of_cons in Hk as [->|]; [|done].
      rewrite lookup_insert_eq. by eexists.
    + intros k Hk. simpl in Hk. apply not_elem_of_cons in Hk as [Hne Hk].
      rewrite (Hout k Hk), Hs1. by rewrite lookup_insert_ne.
    + intros d Hd. by rewrite Hd2, Hd1.
    + congruence.
    + congruence.
Qed.

(** What [DomainDelPrefix] does on the Storage domain, step by step. *)
Lemma DomainDelPrefix_inv prefix st st' :
  DomainDelPrefix StorageDomain prefix st = (Ok tt, st') →
  ∃ es st2,
    storage_entries prefix (sd st) = inr es ∧
    for_each (map tomb_of es)
      (fun tomb => DomainDel StorageDomain (fst (fst tomb)) (snd (fst tomb)) (snd tomb))
      {| sd := sd st; calls := calls st ++ [EvStoreCursor StorageDomain prefix] |}
      = (Ok tt, st2) ∧
    sd st' = sd st2.
Proof.
  unfold DomainDelPrefix, DomainDelPrefix_body. rewrite decide_True by done.
  intros H. apply bind_Ok in H as (tombs & st1 & H1 & H).
  unfold IterateStoragePrefix in H1. rewrite IteratePrefix_storage in H1.
  destruct (storage_entries prefix (sd st)) as [err|es] eqn:Hes; [done|].
  rewrite visit_tombs in H1. simpl in H1. inversion H1; subst tombs st1. clear H1.
  apply bind_Ok in H as ([] & st2 & H2 & H).
  exists es, st2. split; [done|]. split; [exact H2|].
  destruct assert_Enable; [|by inversion H].
  apply bind_Ok in H as (n & st3 & H3 & H).
  unfold IterateStoragePrefix in H3. rewrite IteratePrefix_storage in H3.
  inversion H3; subst st3. simpl in H.
  destruct (Nat.ltb 0 n); inversion H; by subst.
Qed.

(** After a successful prefix deletion the overlay shadows every entry
    under the prefix with an empty value. *)
Lemma DomainDelPrefix_effect prefix st st' :
  DomainDelPrefix StorageDomain prefix st = (Ok tt, st') →
  storage_entries prefix (sd st') = inr [] ∧
  (∀ d, d ≠ StorageDomain → cache_of d (sd st') = cache_of d (sd st)) ∧
  txNum (sd st') = txNum (sd st) ∧ roTtx (sd st') = roTtx (sd st).
Proof.
  intros H. apply DomainDelPrefix_inv in H as (es & st2 & Hes & Hloop & Hsd).
  rewrite Hsd. clear Hsd st'.
  unfold storage_entries in Hes.
  destruct (tx_prefix_cursor (roTtx (sd st)) StorageDomain prefix) as [|cursor] eqn:Hc;
    [done|].
  inversion Hes as [Hes']. clear Hes.
  apply delete_loop in Hloop as (Hin & Hout & Hd & Ht & Hr); simpl in *.
  2:{ intros e He. rewrite <- Hes' in He. by apply yielded_entries_live in He as [_ ?]. }
  split; [|done].
  unfold storage_entries. rewrite Hr, Hc. f_equal.
  apply yielded_entries_empty.
  apply (merged_entries_after_tombs _ (storage (sd st))).
  - intros k Hk. apply yielded_entries_keys in Hk. rewrite Hes' in Hk.
    destruct (Hin k Hk) as (e & He & Hnil). exists e. split; [done|].
    by rewrite Hnil.
  - intros k Hk. apply Hout. rewrite <- Hes'. rewrite yielded_entries_keys, Hk.
    by intros [? ?].
Qed.

(** C5. After [DomainDelPrefix(Storage, prefix)] returns successfully, in
    any overlay state (so after any sequence of puts and deletes), a prefix
    iteration over the Storage domain under [prefix] has no entry to visit:
    [IteratePrefix] returns the visitor's initial state untouched.  The
    deletion works on a snapshot: the entries are first collected by the
    iterator in the starting state, then each is deleted by a direct
    Storage [DomainDel]. *)
Theorem DomainDelPrefix_leaves_nothing prefix st st' :
  DomainDelPrefix StorageDomain prefix st = (Ok tt, st') →
  storage_entries prefix (sd st') = inr [] ∧
  (∀ A (it : Visitor A) (acc : A),
     fst (IteratePrefix StorageDomain prefix it acc st') = Ok acc) ∧
  (∃ es st2,
     storage_entries prefix (sd st) = inr es ∧
     for_each (map tomb_of es)
       (fun tomb => DomainDel StorageDomain (fst (fst tomb)) (snd (fst tomb)) (snd tomb))
       {| sd := sd st; calls := calls st ++ [EvStoreCursor StorageDomain prefix] |}
       = (Ok tt, st2) ∧
     sd st' = sd st2).
Proof.
  intros H. pose proof (DomainDelPrefix_effect _ _ _ H) as (He & _).
  split; [done|]. split; [|by apply DomainDelPrefix_inv].
  intros A it acc. rewrite IteratePrefix_storage, He. reflexivity.
Qed.

(** ** Account deletion *)

Lemma GetLatest_cached domain k st p st' e :
  domain ≠ CommitmentDomain →
  GetLatest domain k st = (Ok p, st') →
  cache_of domain (sd st) !! content k = Some e →
  p = (data e, prevStep e).
Proof.
  intros Hd H He. unfold GetLatest in H. rewrite decide_False in H by done.
  apply bind_Ok in H as (r & st1 & Hg & H).
  unfold get, bind, lift, gets, ret in Hg.
  destruct (toStringZeroCopy k) as [keyS| |] eqn:Hk; simpl in Hg; try done.
  apply toStringZeroCopy_Ok in Hk as [-> _]. rewrite He in Hg.
  inversion Hg; subst. by inversion H.
Qed.

Lemma storage_entries_ext prefix s s' :
  storage s' = storage s → roTtx s' = roTtx s →
  storage_entries prefix s' = storage_entries prefix s.
Proof. intros Hs Hr. unfold storage_entries. by rewrite Hs, Hr. Qed.

Lemma yielded_entries_nil prefix b m cursor :
  yielded_entries prefix b m cursor = [] → merged_entries prefix b m cursor = ∅.
Proof.
  unfold yielded_entries. intros H.
  apply map_to_list_empty_iff. apply Permutation_nil_r.
  rewrite <- H. by rewrite merge_sort_Permutation.
Qed.

(** With nothing left to visit, every overlay entry under the prefix has an
    empty value. *)
Lemma no_entries_no_live_overlay prefix s k e :
  storage_entries prefix s = inr [] →
  storage s !! k = Some e →
  has_prefix k (content prefix) = true →
  len (data e) = 0%nat.
Proof.
  unfold storage_entries. destruct (tx_prefix_cursor _ _ _) as [|cursor]; [done|].
  intros H He Hp. inversion H as [H']. apply yielded_entries_nil in H'.
  unfold merged_entries in H'. rewrite ram_view_size in H'.
  destruct (decide (len (data e) = 0%nat)) as [|Hne]; [done|]. exfalso.
  eapply (map_filter_empty_not_lookup _ _ k (data e, prevStep e) H').
  - split; simpl; done.
  - apply lookup_union_Some_raw. left. by rewrite lookup_fmap, He.
Qed.

(** The cascaded Code delete: afterwards a cached Code entry of the
    account, if there is one, is a tombstone. *)
Lemma DomainDel_code_effect addr ps st st' :
  DomainDel_inner CodeDomain addr None ps st = (Ok tt, st') →
  (∀ e, cache_of CodeDomain (sd st') !! content addr = Some e → data e = None) ∧
  storage (sd st') = storage (sd st) ∧
  cache_of AccountsDomain (sd st') = cache_of AccountsDomain (sd st) ∧
  txNum (sd st') = txNum (sd st) ∧ roTtx (sd st') = roTtx (sd st).
Proof.
  intros H. unfold DomainDel_inner, DomainDel_body, resolvePrev in H. simpl in H.
  apply bind_Ok in H as (p & st1 & Hg & H).
  pose proof (GetLatest_sd CodeDomain _ _ _ _ ltac:(done) Hg) as Hsd.
  destruct (is_nil (fst p)) eqn:Hnil.
  - inversion H; subst st'. rewrite Hsd. split; [|done].
    intros e He.
    assert (Hpe : p = (data e, prevStep e))
      by (by eapply (GetLatest_cached CodeDomain); [|exact Hg|exact He]).
    subst p. simpl in Hnil. by destruct (data e).
  - unfold updateAccountCode in H. simpl in H.
    apply touch_put_then in H.
    2:{ apply preserves_DeleteWithPrev, written_cache_only. }
    pose proof (written_lookup _ _ _ _ _ H) as Hl.
    destruct H as (He & Ht & Hr). rewrite Hsd in *.
    split; [|split; [|split]].
    + intros e He'. rewrite Hl in He'. by inversion He'.
    + specialize (He StorageDomain). by rewrite decide_False in He.
    + specialize (He AccountsDomain). by rewrite decide_False in He.
    + done.
Qed.

(** C4. A successful [DomainDel] on the Accounts domain for key [A] runs,
    in order, the prefix deletion [DomainDelPrefix(Storage, A)], the direct
    Code delete [DomainDel(Code, A, nil, _)] and the account's own
    touch / cache / write-buffer delete; the prefix deletion in turn is a
    direct Storage [DomainDel] of every entry visited under [A].  Afterwards
    no live storage or code under [A] is left in the overlay: a prefix
    iteration over Storage under [A] visits nothing, every cached Storage
    entry under [A] holds an empty value, the cached Code entry of [A], if
    any, holds nil, and the account entry itself is a tombstone. *)
Theorem DomainDel_account_cascades addr pv ps st st' :
  DomainDel AccountsDomain addr pv ps st = (Ok tt, st') →
  (∃ p st0 st1 st2,
     resolvePrev AccountsDomain addr pv ps st = (Ok p, st0) ∧
     DomainDelPrefix StorageDomain addr st0 = (Ok tt, st1) ∧
     DomainDel CodeDomain addr None (snd p) st1 = (Ok tt, st2) ∧
     bind (TouchKey AccountsDomain (content addr) None) (fun _ =>
       bind (put AccountsDomain (content addr) None) (fun _ =>
         DeleteWithPrev AccountsDomain addr None (fst p) (snd p))) st2 = (Ok tt, st') ∧
     ∃ es st1',
       storage_entries addr (sd st0) = inr es ∧
       for_each (map tomb_of es)
         (fun tomb => DomainDel StorageDomain (fst (fst tomb)) (snd (fst tomb)) (snd tomb))
         {| sd := sd st0; calls := calls st0 ++ [EvStoreCursor StorageDomain addr] |}
         = (Ok tt, st1') ∧
       sd st1 = sd st1') ∧
  storage_entries addr (sd st') = inr [] ∧
  (∀ k e, storage (sd st') !! k = Some e →
          has_prefix k (content addr) = true → len (data e) = 0%nat) ∧
  (∀ e, cache_of CodeDomain (sd st') !! content addr = Some e → data e = None) ∧
  cache_of AccountsDomain (sd st') !! content addr = Some (entry_at (sd st) None).
Proof.
  intros H. unfold DomainDel, DomainDel_body in H.
  apply bind_Ok in H as (p & st0 & Hp & H). simpl in H.
  unfold deleteAccount, deleteAccount_body in H.
  apply bind_Ok in H as ([] & st1 & Hpre & H).
  apply bind_Ok in H as ([] & st2 & Hcode & H).
  pose proof (resolvePrev_sd AccountsDomain _ _ _ _ _ _ ltac:(done) Hp) as Hsd0.
  pose proof (DomainDelPrefix_effect _ _ _ Hpre) as (Hnone & Hd1 & Ht1 & Hr1).
  pose proof (DomainDel_code_effect _ _ _ _ Hcode) as (Hc2 & Hs2 & Ha2 & Ht2 & Hr2).
  pose proof H as Hacc.
  apply touch_put_then in Hacc.
  2:{ apply preserves_DeleteWithPrev, written_cache_only. }
  pose proof (written_lookup _ _ _ _ _ Hacc) as Hl.
  destruct Hacc as (He & Ht3 & Hr3).
  assert (Hs3 : storage (sd st') = storage (sd st2)).
  { specialize (He StorageDomain). by rewrite decide_False in He. }
  assert (Hc3 : cache_of CodeDomain (sd st') = cache_of CodeDomain (sd st2)).
  { specialize (He CodeDomain). by rewrite decide_False in He. }
  assert (Hent : storage_entries addr (sd st') = inr []).
  { rewrite <- Hnone. apply storage_entries_ext; congruence. }
  split; [|split; [|split; [|split]]].
  - exists p, st0, st1, st2. repeat (split; [done|]).
    by apply DomainDelPrefix_inv.
  - done.
  - intros k e Hk Hpx. by eapply no_entries_no_live_overlay.
  - intros e. rewrite Hc3. apply Hc2.
  - rewrite Hl. f_equal. unfold entry_at. f_equal. congruence.
Qed.

(** ** ReadsValid *)

Lemma reads_loop_spec (m : gmap string dataWithPrevStep) differs vals :
  (∀ expected e, expected ∈ vals → ∃ b, differs expected e = Ok b) →
  ∀ keys i,
    (i + length keys ≤ length vals)%nat →
    ∃ b, reads_loop m differs vals i keys = Ok b ∧
         (b = false ↔
          ∃ j key expected e,
            keys !! j = Some key ∧ vals !! (i + j)%nat = Some expected ∧
            m !! key = Some e ∧ differs expected e = Ok true).
Proof.
  intros Hd keys. induction keys as [|key keys IH]; intros i Hlen; simpl in *.
  - exists true. split; [done|]. split; [done|].
    intros (j & ? & ? & ? & Hj & _). by rewrite lookup_nil in Hj.
  - destruct (IH (S i) ltac:(lia)) as (b & Hb & Hiff).
    assert (Hshift : (∃ j key0 expected e,
                keys !! j = Some key0 ∧ vals !! (S i + j)%nat = Some expected ∧
                m !! key0 = Some e ∧ differs expected e = Ok true) →
              ∃ j key0 expected e,
                (key :: keys) !! j = Some key0 ∧ vals !! (i + j)%nat = Some expected ∧
                m !! key0 = Some e ∧ differs expected e = Ok true).
    { intros (j & k0 & ex & e & H1 & H2 & H3 & H4).
      exists (S j), k0, ex, e. repeat split; try done.
      by replace (i + S j)%nat with (S i + j)%nat by lia. }
    destruct (m !! key) as [val|] eqn:Hm.
    + destruct (lookup_lt_is_Some_2 vals i ltac:(lia)) as [expected Hex].
      rewrite Hex.
      destruct (Hd expected val) as [[] Hdv].
      { eapply list_elem_of_lookup_2; eauto. }
      * rewrite Hdv. exists false. split; [done|]. split; [|done]. intros _.
        exists 0%nat, key, expected, val. rewrite Nat.add_0_r. done.
      * rewrite Hdv. exists b. split; [done|]. rewrite Hiff. split; [done|].
        intros ([|j] & k0 & ex & e & H1 & H2 & H3 & H4).
        -- simpl in H1. inversion H1; subst k0. rewrite Nat.add_0_r in H2.
           congruence.
        -- exists j, k0, ex, e. repeat split; try done.
           by replace (S i + j)%nat with (i + S j)%nat by lia.
    + exists b. split; [done|]. rewrite Hiff. split; [done|].
      intros ([|j] & k0 & ex & e & H1 & H2 & H3 & H4).
      * simpl in H1. inversion H1; subst k0. congruence.
      * exists j, k0, ex, e. repeat split; try done.
        by replace (S i + j)%nat with (i + S j)%nat by lia.
Qed.

Lemma value_differs_true expected e :
  value_differs expected e = Ok true ↔ content expected ≠ content (data e).
Proof.
  unfold value_differs, bytes_Equal. case_bool_decide; simpl; split; try done.
Qed.

Lemma size_differs_true expected e :
  (8 ≤ len expected)%nat →
  size_differs expected e = Ok true ↔
  be_value (take_str 8 (content expected)) 0 ≠ N.of_nat (len (data e)).
Proof.
  intros Hlen. unfold size_differs.
  destruct (Nat.ltb_spec (len expected) 8) as [|_]; [lia|].
  destruct (N.eqb_spec (be_value (take_str 8 (content expected)) 0)
                       (N.of_nat (len (data e)))) as [Heq|Hne]; simpl.
  - split; [done|]. intros Hne. by destruct Hne.
  - done.
Qed.

Lemma reads_table_spec s table list :
  is_Some (table_kind table) →
  length (Keys list) = length (Vals list) →
  (table_kind table = Some KCodeSize → Forall (fun v => 8 ≤ len v)%nat (Vals list)) →
  ∃ b, reads_table s table list = Ok b ∧
       (b = false ↔
        ∃ i key expected,
          Keys list !! i = Some key ∧ Vals list !! i = Some expected ∧
          stale s table key expected).
Proof.
  intros [kind Hkind] Hlen Hsz.
  assert (Hv : ∀ expected e, expected ∈ Vals list → ∃ b, value_differs expected e = Ok b)
    by (intros; eexists; reflexivity).
  unfold stale, reads_table. unfold table_kind in Hkind, Hsz |- *.
  destruct (String.eqb table (Domain_String AccountsDomain)).
  { destruct (reads_loop_spec (domains s AccountsDomain) _ _ Hv (Keys list) 0%nat
                ltac:(simpl; lia)) as (b & Hb & Hiff).
    exists b. split; [done|]. rewrite Hiff. simpl.
    split; intros (i & key & ex & H); exists i, key, ex.
    - destruct H as (e & H1 & H2 & H3 & H4). repeat split; try done.
      exists e. split; [done|]. by apply value_differs_true.
    - destruct H as (H1 & H2 & e & H3 & H4). exists e. repeat split; try done.
      by apply value_differs_true. }
  destruct (String.eqb table (Domain_String CodeDomain)).
  { destruct (reads_loop_spec (domains s CodeDomain) _ _ Hv (Keys list) 0%nat
                ltac:(simpl; lia)) as (b & Hb & Hiff).
    exists b. split; [done|]. rewrite Hiff. simpl.
    split; intros (i & key & ex & H); exists i, key, ex.
    - destruct H as (e & H1 & H2 & H3 & H4). repeat split; try done.
      exists e. split; [done|]. by apply value_differs_true.
    - destruct H as (H1 & H2 & e & H3 & H4). exists e. repeat split; try done.
      by apply value_differs_true. }
  destruct (String.eqb table (Domain_String StorageDomain)).
  { destruct (reads_loop_spec (storage s) _ _ Hv (Keys list) 0%nat
                ltac:(simpl; lia)) as (b & Hb & Hiff).
    exists b. split; [done|]. rewrite Hiff. simpl.
    split; intros (i & key & ex & H); exists i, key, ex.
    - destruct H as (e & H1 & H2 & H3 & H4). repeat split; try done.
      exists e. split; [done|]. by apply value_differs_true.
    - destruct H as (H1 & H2 & e & H3 & H4). exists e. repeat split; try done.
      by apply value_differs_true. }
  destruct (String.eqb table CodeSizeTableFake); [|done].
  specialize (Hsz eq_refl).
  assert (Hs : ∀ expected e, expected ∈ Vals list → ∃ b, size_differs expected e = Ok b).
  { intros expected e Hin. rewrite Forall_forall in Hsz.
    apply list_elem_of_In in Hin. specialize (Hsz _ Hin).
    unfold size_differs. destruct (Nat.ltb_spec (len expected) 8); [lia|].
    eexists; reflexivity. }
  destruct (reads_loop_spec (domains s CodeDomain) _ _ Hs (Keys list) 0%nat
              ltac:(simpl; lia)) as (b & Hb & Hiff).
  exists b. split; [done|]. rewrite Hiff. simpl.
  rewrite Forall_forall in Hsz.
  split; intros (i & key & ex & H); exists i, key, ex.
  - destruct H as (e & H1 & H2 & H3 & H4). repeat split; try done.
    exists e. split; [done|]. apply size_differs_true; [|done].
    apply Hsz, list_elem_of_In. eapply list_elem_of_lookup_2; eauto.
  - destruct H as (H1 & H2 & e & H3 & H4). exists e. repeat split; try done.
    apply size_differs_true; [|done].
    apply Hsz, list_elem_of_In. eapply list_elem_of_lookup_2; eauto.
Qed.

(** C3 (amended). On a read-set whose table names are all among the names
    of the Accounts, Code and Storage domains and the CodeSize pseudo-table,
    with values kept side by side with the keys (and at least eight bytes
    long for CodeSize), [ReadsValid] returns, and it returns false exactly
    when some recorded key is cached in the overlay with a value that does
    not match the recorded one: byte inequality for the three domains, and
    for CodeSize the recorded big-endian number differing from the length
    of the cached code.  A key that is not cached never makes it false. *)
Theorem ReadsValid_false_iff_stale s readLists :
  well_formed_reads readLists →
  ∃ b, ReadsValid s readLists = Ok b ∧
       (b = false ↔
        ∃ tl i key expected,
          tl ∈ readLists ∧
          Keys (snd tl) !! i = Some key ∧ Vals (snd tl) !! i = Some expected ∧
          stale s (fst tl) key expected).
Proof.
  induction readLists as [|tl rest IH]; intros Hwf; simpl.
  - exists true. split; [done|]. split; [done|].
    intros (? & ? & ? & ? & Hin & _). by apply elem_of_nil in Hin.
  - inversion Hwf as [|? ? (Hk & Hlen & Hsz) Hwf']; subst. clear Hwf.
    rename Hwf' into Hwf.
    destruct (reads_table_spec s (fst tl) (snd tl) Hk Hlen Hsz) as (b & Hb & Hiff).
    rewrite Hb. destruct b.
    + destruct (IH Hwf) as (b' & Hb' & Hiff'). exists b'. split; [done|].
      rewrite Hiff'. split.
      * intros (tl' & i & key & ex & Hin & H). exists tl', i, key, ex.
        split; [by right|done].
      * intros (tl' & i & key & ex & Hin & H).
        apply elem_of_cons in Hin as [->|Hin].
        -- assert (true = false); [|done]. apply Hiff. by exists i, key, ex.
        -- by exists tl', i, key, ex.
    + exists false. split; [done|]. split; [|done]. intros _.
      destruct (proj1 Hiff eq_refl) as (i & key & ex & H).
      exists tl, i, key, ex. split; [by left|done].
Qed.

End OverlayFacts.

(** * Properties of the verkle tree writer *)

Module VerkleFacts.

Import Verkle.

(** ** Encodings *)

Lemma shifted_byte_le v i : shifted_byte v i = le_byte v i.
Proof.
  unfold shifted_byte, le_byte. rewrite N.shiftr_div_pow2.
  replace (2 ^ (8 * N.of_nat i)) with (256 ^ N.of_nat i); [done|].
  rewrite N.pow_mul_r. reflexivity.
Qed.

Lemma PutUint64_zeros v :
  LittleEndian_PutUint64 (zeros 32) v = Ok (uint64_leaf v).
Proof.
  unfold uint64_leaf, le_bytes.
  rewrite <- (map_ext _ _ (shifted_byte_le v)). reflexivity.
Qed.

Lemma le_byte_succ v i : le_byte v (S i) = le_byte (v / 256) i.
Proof.
  unfold le_byte. rewrite Nat2N.inj_succ, N.pow_succ_r', N.Div0.div_div. done.
Qed.

Lemma le_bytes_succ n v : le_bytes (S n) v = (v mod 256) :: le_bytes n (v / 256).
Proof.
  unfold le_bytes. simpl. f_equal.
  - unfold le_byte. simpl. by rewrite N.div_1_r.
  - rewrite <- seq_shift, map_map. apply map_ext. intros i. apply le_byte_succ.
Qed.

Lemma le_value_le_bytes n v : v < 256 ^ N.of_nat n → le_value (le_bytes n v) = v.
Proof.
  revert v. induction n as [|n IH]; intros v Hv.
  - simpl in *. lia.
  - rewrite le_bytes_succ. simpl le_value. rewrite IH.
    + pose proof (N.div_mod v 256 ltac:(done)). lia.
    + rewrite Nat2N.inj_succ, N.pow_succ_r' in Hv.
      apply N.Div0.div_lt_upper_bound. lia.
Qed.

Lemma le_value_app_zeros b n : le_value (b ++ zeros n) = le_value b.
Proof.
  induction b as [|x b IH]; simpl.
  - induction n as [|n IHn]; simpl; [done|]. unfold zeros in IHn. rewrite IHn. done.
  - by rewrite IH.
Qed.

Lemma le_digits_length fuel x k :
  x < 256 ^ N.of_nat k → (length (le_digits fuel x) ≤ k)%nat.
Proof.
  revert x k. induction fuel as [|fuel IH]; intros x k Hx; simpl; [lia|].
  destruct (N.eqb_spec x 0) as [|Hne]; simpl; [lia|].
  destruct k as [|k]; [simpl in Hx; lia|].
  apply le_n_S, IH.
  rewrite Nat2N.inj_succ, N.pow_succ_r' in Hx.
  apply N.Div0.div_lt_upper_bound. lia.
Qed.

Lemma le_value_le_digits fuel x :
  x < 256 ^ N.of_nat fuel → le_value (le_digits fuel x) = x.
Proof.
  revert x. induction fuel as [|fuel IH]; intros x Hx; simpl.
  - simpl in Hx. lia.
  - destruct (N.eqb_spec x 0) as [->|Hne]; [done|]. simpl. rewrite IH.
    + pose proof (N.div_mod x 256 ltac:(done)). lia.
    + rewrite Nat2N.inj_succ, N.pow_succ_r' in Hx.
      apply N.Div0.div_lt_upper_bound. lia.
Qed.

(** The bit length of [x] is fuel enough for all its digits. *)
Lemma size_fuel x : x < 256 ^ N.of_nat (N.to_nat (N.size x)).
Proof.
  rewrite N2Nat.id. eapply N.lt_le_trans; [apply N.size_gt|].
  apply N.pow_le_mono_l. lia.
Qed.

Lemma le_value_rev_big_Bytes x : le_value (reverse (big_Bytes x)) = x.
Proof.
  unfold big_Bytes. rewrite reverse_involutive.
  apply le_value_le_digits, size_fuel.
Qed.

Lemma big_Bytes_length x k :
  x < 256 ^ N.of_nat k → (length (big_Bytes x) ≤ k)%nat.
Proof.
  intros Hx. unfold big_Bytes. rewrite length_reverse. by apply le_digits_length.
Qed.

(** The digits end at a non-zero one. *)
Lemma le_digits_last fuel x :
  x < 256 ^ N.of_nat fuel → list.last (le_digits fuel x) ≠ Some 0.
Proof.
  revert x. induction fuel as [|fuel IH]; intros x Hx; simpl; [done|].
  destruct (N.eqb_spec x 0) as [|Hne]; [done|].
  assert (Hq : x / 256 < 256 ^ N.of_nat fuel).
  { rewrite Nat2N.inj_succ, N.pow_succ_r' in Hx.
    apply N.Div0.div_lt_upper_bound. lia. }
  pose proof (le_value_le_digits fuel (x / 256) Hq) as Hv.
  destruct (le_digits fuel (x / 256)) as [|d ds] eqn:Hd.
  - simpl in Hv. simpl. intros [= Hz].
    pose proof (N.div_mod x 256 ltac:(done)). lia.
  - specialize (IH _ Hq). rewrite Hd in IH. exact IH.
Qed.

(** [big.Int.Bytes] is trimmed: no leading zero byte. *)
Lemma big_Bytes_trimmed x : list.head (big_Bytes x) ≠ Some 0.
Proof.
  unfold big_Bytes. rewrite head_reverse. apply le_digits_last, size_fuel.
Qed.

(** The loop of [int256ToVerkleFormat] writes the bytes back to front at
    the start of the buffer. *)
Lemma store_reversed_ok n bbytes buffer :
  (length bbytes ≤ n)%nat → (n ≤ length buffer)%nat →
  store_reversed n bbytes (n - length bbytes) buffer
  = Ok (reverse bbytes ++ drop (length bbytes) buffer).
Proof.
  revert buffer. induction bbytes as [|b rest IH]; intros buffer Hn Hb; simpl.
  - by rewrite drop_0.
  - simpl in Hn.
    replace (n - (n - S (length rest)) - 1)%nat with (length rest) by lia.
    destruct (Nat.ltb_spec (length rest) (length buffer)) as [Hlt|]; [|lia].
    replace (S (n - S (length rest))) with (n - length rest)%nat by lia.
    rewrite IH; [|lia|by rewrite length_insert].
    f_equal. rewrite reverse_cons, <- app_assoc. f_equal. simpl.
    destruct (lookup_lt_is_Some_2 buffer (length rest) Hlt) as [y Hy].
    rewrite (drop_S (<[length rest:=b]> buffer) b (length rest)).
    + f_equal. by rewrite drop_insert_lt by lia.
    + by apply list_lookup_insert_eq.
Qed.

Lemma int256ToVerkleFormat_zeros x :
  x < 2 ^ 256 →
  int256ToVerkleFormat x (zeros 32) = Ok (balance_leaf x).
Proof.
  intros Hx. unfold int256ToVerkleFormat, balance_leaf.
  assert (Hl : (length (big_Bytes x) ≤ 32)%nat) by (by apply big_Bytes_length).
  pose proof (store_reversed_ok (length (big_Bytes x)) (big_Bytes x) (zeros 32)
                ltac:(done)) as H.
  rewrite Nat.sub_diag in H. rewrite H.
  - unfold zeros. by rewrite drop_replicate.
  - unfold zeros. by rewrite length_replicate.
Qed.

Lemma balance_leaf_length x : x < 2 ^ 256 → length (balance_leaf x) = 32%nat.
Proof.
  intros Hx. unfold balance_leaf, zeros.
  assert (Hl : (length (big_Bytes x) ≤ 32)%nat) by (by apply big_Bytes_length).
  rewrite length_app, length_reverse, length_replicate. lia.
Qed.

Lemma balance_leaf_value x : le_value (balance_leaf x) = x.
Proof.
  unfold balance_leaf. rewrite le_value_app_zeros. apply le_value_rev_big_Bytes.
Qed.

Lemma uint64_leaf_value v : v < 2 ^ 64 → le_value (uint64_leaf v) = v.
Proof.
  intros Hv. unfold uint64_leaf. rewrite le_value_app_zeros.
  by apply le_value_le_bytes.
Qed.

(** ** Staging and committing *)

Section WriterFacts.

Context `{VB : VerkleBackend}.

Lemma lift_Ok {A} (r : Res A) (w : VerkleTreeWriter) a w' :
  lift r w = (Ok a, w') → r = Ok a ∧ w' = w.
Proof. unfold lift. intros H; inversion H; done. Qed.

Lemma sub_key_Ok versionKey leaf key :
  sub_key versionKey leaf = Ok key → key = take 31 versionKey ++ [leaf].
Proof.
  unfold sub_key. destruct (Nat.ltb _ _); [done|]. intros H; by inversion H.
Qed.

Lemma Collect_Ok k v w w' :
  Collect k v w = (Ok tt, w') →
  collector w' = collector w ++ [(k, v)] ∧ db w' = db w ∧
  vcalls w' = vcalls w ++ [EvCollect k v].
Proof.
  unfold Collect, bind, vlog, vgets, fail. simpl.
  destruct (collect_error _ _ _); [done|]. intros H; inversion H; done.
Qed.

(** C8. A successful [UpdateAccount] stages, after the version leaf, the
    nonce and balance leaves and, only when [isContract] is true, the code
    hash and code size leaves; each key is the first 31 bytes of the version
    key followed by the leaf suffix.  Nonce and code size are 8-byte
    little-endian integers at the start of zeroed 32-byte buffers; the
    balance buffer is the reversed big-endian byte string of the balance (no
    leading zero byte) padded with zeros to 32 bytes, which is the balance
    in little-endian. *)
Theorem UpdateAccount_stages_leaves versionKey codeSize isContract acc w w' :
  Nonce acc < 2 ^ 64 → codeSize < 2 ^ 64 → Balance acc < 2 ^ 256 →
  UpdateAccount versionKey codeSize isContract acc w = (Ok tt, w') →
  collector w' = collector w ++ account_leaves versionKey codeSize isContract acc ∧
  length (account_leaves versionKey codeSize isContract acc)
    = (if isContract then 5 else 3)%nat ∧
  length (uint64_leaf (Nonce acc)) = 32%nat ∧
  le_value (uint64_leaf (Nonce acc)) = Nonce acc ∧
  length (uint64_leaf codeSize) = 32%nat ∧
  le_value (uint64_leaf codeSize) = codeSize ∧
  length (balance_leaf (Balance acc)) = 32%nat ∧
  le_value (balance_leaf (Balance acc)) = Balance acc ∧
  list.head (big_Bytes (Balance acc)) ≠ Some 0.
Proof.
  intros Hn Hc Hb H.
  split; [|split; [by destruct isContract|]].
  2:{ repeat split; auto using uint64_leaf_value, balance_leaf_length,
        balance_leaf_value, big_Bytes_trimmed. }
  unfold UpdateAccount in H.
  apply bind_Ok in H as (codeHashKey & w1 & H1 & H).
  apply lift_Ok in H1 as [H1 ->]. apply sub_key_Ok in H1 as ->.
  apply bind_Ok in H as (nonceKey & w1 & H1 & H).
  apply lift_Ok in H1 as [H1 ->]. apply sub_key_Ok in H1 as ->.
  apply bind_Ok in H as (balanceKey & w1 & H1 & H).
  apply lift_Ok in H1 as [H1 ->]. apply sub_key_Ok in H1 as ->.
  apply bind_Ok in H as (codeSizeKey & w1 & H1 & H).
  apply lift_Ok in H1 as [H1 ->]. apply sub_key_Ok in H1 as ->.
  apply bind_Ok in H as (balance & w1 & H1 & H).
  apply lift_Ok in H1 as [H1 ->].
  rewrite (int256ToVerkleFormat_zeros _ Hb) in H1. inversion H1; subst balance.
  apply bind_Ok in H as (nonce & w1 & H2 & H).
  apply lift_Ok in H2 as [H2 ->].
  rewrite PutUint64_zeros in H2. inversion H2; subst nonce.
  apply bind_Ok in H as ([] & w1 & Hc1 & H). apply Collect_Ok in Hc1 as (Hc1 & _).
  apply bind_Ok in H as ([] & w2 & Hc2 & H). apply Collect_Ok in Hc2 as (Hc2 & _).
  apply bind_Ok in H as ([] & w3 & Hc3 & H). apply Collect_Ok in Hc3 as (Hc3 & _).
  unfold account_leaves. destruct isContract.
  - apply bind_Ok in H as (cs & w4 & H4 & H).
    apply lift_Ok in H4 as [H4 ->].
    rewrite PutUint64_zeros in H4. inversion H4; subst cs.
    apply bind_Ok in H as ([] & w5 & Hc5 & H). apply Collect_Ok in Hc5 as (Hc5 & _).
    apply Collect_Ok in H as (Hc6 & _).
    rewrite Hc6, Hc5, Hc3, Hc2, Hc1. by rewrite <- !app_assoc.
  - inversion H; subst w'. rewrite Hc3, Hc2, Hc1. by rewrite <- !app_assoc.
Qed.

(** [m] appends calls to the log, all of them satisfying [Q]. *)
Definition emits {A} (Q : VEvent → Prop) (m : VM A) : Prop :=
  ∀ w r w', m w = (r, w') → ∃ evs, vcalls w' = vcalls w ++ evs ∧ Forall Q evs.

Lemma emits_silent {A} Q (m : VM A) :
  (∀ w, vcalls (snd (m w)) = vcalls w) → emits Q m.
Proof.
  intros Hm w r w' H. exists []. split; [|constructor].
  specialize (Hm w). rewrite H in Hm. simpl in Hm. by rewrite app_nil_r.
Qed.

Lemma emits_ret {A} Q (a : A) : emits Q (ret a).
Proof. by apply emits_silent. Qed.

Lemma emits_lift {A} Q (r : Res A) : emits Q (lift r).
Proof. by apply emits_silent. Qed.

Lemma emits_fail {A} Q e : emits Q (@fail _ A e).
Proof. by apply emits_silent. Qed.

Lemma emits_panic {A} Q p : emits Q (@panic _ A p).
Proof. by apply emits_silent. Qed.

Lemma emits_check Q o : emits Q (check o).
Proof. destruct o; by apply emits_silent. Qed.

Lemma emits_vgets {A} Q (f : VerkleTreeWriter → A) : emits Q (vgets f).
Proof. by apply emits_silent. Qed.

Lemma emits_vlog (Q : VEvent → Prop) ev : Q ev → emits Q (vlog ev).
Proof.
  intros HQ w r w' H. inversion H; subst. exists [ev]. split; [done|].
  by constructor.
Qed.

Lemma emits_bind {A C} Q (m : VM A) (k : A → VM C) :
  emits Q m → (∀ a, emits Q (k a)) → emits Q (bind m k).
Proof.
  intros Hm Hk w r w' H.
  apply bind_inv in H as [(a & w1 & H1 & H2)|[(e & H1 & _)|(p & H1 & _)]].
  - destruct (Hm _ _ _ H1) as (ev1 & He1 & HQ1).
    destruct (Hk a _ _ _ H2) as (ev2 & He2 & HQ2).
    exists (ev1 ++ ev2). split; [by rewrite He2, He1, app_assoc|].
    by apply Forall_app.
  - eapply Hm; eauto.
  - eapply Hm; eauto.
Qed.

Lemma emits_for_each {A} Q (l : list A) (f : A → VM unit) :
  (∀ x, emits Q (f x)) → emits Q (for_each l f).
Proof.
  intros Hf. induction l as [|x l IH]; simpl.
  - apply emits_ret.
  - apply emits_bind; auto.
Qed.

Lemma emits_on_db (Q : VEvent → Prop) ev f : Q ev → emits Q (on_db ev f).
Proof.
  intros HQ. unfold on_db. apply emits_bind; [by apply emits_vlog|]. intros _.
  apply emits_bind; [apply emits_vgets|]. intros d.
  apply emits_bind; [by apply emits_silent|]. intros _. apply emits_check.
Qed.

Lemma emits_Collect (Q : VEvent → Prop) k v : Q (EvCollect k v) → emits Q (Collect k v).
Proof.
  intros HQ. unfold Collect. apply emits_bind; [by apply emits_vlog|]. intros _.
  apply emits_bind; [apply emits_vgets|]. intros staged.
  destruct (collect_error _ _ _); [apply emits_fail|by apply emits_silent].
Qed.

(** An event other than a table clear. *)
Definition not_clear (ev : VEvent) : Prop := ∀ table, ev ≠ EvClearTable table.

Lemma emits_load_next (Q : VEvent → Prop) table ok k v :
  Q (EvLoadNext table ok k v) → emits Q (load_next table ok k v).
Proof. intros. by apply emits_on_db. Qed.

Lemma emits_write_nodes (Q : VEvent → Prop) nodes :
  Q EvWriteVerkleNode → emits Q (write_nodes nodes).
Proof.
  intros HQ. induction nodes as [|node rest IH]; simpl.
  - apply emits_ret.
  - apply emits_bind; [by apply emits_on_db|]. intros _. exact IH.
Qed.

Lemma emits_collect_nodes (Q : VEvent → Prop) nodes :
  (∀ k v, Q (EvCollect k v)) → emits Q (collect_nodes nodes).
Proof.
  intros HQ. induction nodes as [|node rest IH]; simpl.
  - apply emits_ret.
  - destruct (node_Serialize node); [apply emits_fail|].
    apply emits_bind; [by apply emits_Collect|]. intros _. exact IH.
Qed.

Lemma emits_flushVerkleNode (Q : VEvent → Prop) node :
  Q EvWriteVerkleNode → emits Q (flushVerkleNode node).
Proof.
  intros HQ. unfold flushVerkleNode. destruct (node_is_internal node).
  - apply emits_bind; [by apply emits_write_nodes|]. intros _. apply emits_ret.
  - apply emits_panic.
Qed.

Lemma emits_collectVerkleNode (Q : VEvent → Prop) node :
  (∀ k v, Q (EvCollect k v)) → emits Q (collectVerkleNode node).
Proof.
  intros HQ. unfold collectVerkleNode. destruct (node_is_internal node).
  - apply emits_bind; [by apply emits_collect_nodes|]. intros _. apply emits_ret.
  - apply emits_panic.
Qed.

Lemma emits_incremental_load entries rootNode insertions :
  emits not_clear (incremental_load entries rootNode insertions).
Proof.
  revert rootNode insertions.
  induction entries as [|[key value] rest IH]; intros rootNode insertions; simpl.
  - apply emits_ret.
  - apply emits_bind.
    { destruct (Nat.ltb _ _); [|apply emits_ret].
      apply emits_bind; [by apply emits_vlog|]. intros _.
      apply emits_bind; [apply emits_vgets|]. intros d.
      apply emits_bind; [apply emits_check|]. intros _. apply emits_ret. }
    intros r. apply emits_bind.
    { destruct (N.ltb _ _); [|apply emits_ret].
      apply emits_bind; [by apply emits_flushVerkleNode|]. intros node.
      apply emits_ret. }
    intros r'. apply emits_bind; [by apply emits_load_next|]. intros _. apply IH.
Qed.

Lemma emits_scratch_load entries root vc :
  emits (fun _ => True) (scratch_load entries root vc).
Proof.
  revert root vc.
  induction entries as [|[k val] rest IH]; intros root vc; simpl.
  - apply emits_ret.
  - destruct (Nat.eqb _ _).
    + apply emits_bind; [by apply emits_load_next|]. intros _. apply IH.
    + apply emits_bind; [by apply emits_vlog|]. intros _.
      apply emits_bind; [apply emits_lift|]. intros vc'.
      apply emits_bind; [apply emits_check|]. intros _.
      apply emits_bind; [by apply emits_load_next|]. intros _. apply IH.
Qed.

(** [CommitVerkleTreeFromScratch] begins by clearing the verkle-trie
    table. *)
Lemma FromScratch_clears_first w r w' :
  CommitVerkleTreeFromScratch w = (r, w') →
  ∃ rest, vcalls w' = vcalls w ++ EvClearTable VerkleTrie :: rest.
Proof.
  unfold CommitVerkleTreeFromScratch. intros H.
  pose (w1 := {| db := fst (db_ClearTable (db w) VerkleTrie);
                 collector := collector w;
                 vcalls := vcalls w ++ [EvClearTable VerkleTrie] |}).
  assert (Hfirst : on_db (EvClearTable VerkleTrie) (fun d => db_ClearTable d VerkleTrie) w
                   = (match snd (db_ClearTable (db w) VerkleTrie) with
                      | Some e => Err e | None => Ok tt end, w1)).
  { unfold on_db, bind, vlog, vgets, check, fail, ret. simpl.
    by destruct (snd (db_ClearTable (db w) VerkleTrie)). }
  unfold bind at 1 in H. rewrite Hfirst in H.
  destruct (snd (db_ClearTable (db w) VerkleTrie)).
  - inversion H; subst. by exists [].
  - assert (Hrest : emits (fun _ => True)
      (staged <- vgets collector ;;
       r <- scratch_load (etl_sorted staged) verkle_New [] ;;
       root <- collectVerkleNode (fst r) ;;
       load_identity (snd r) ;;
       ret (node_Commitment_Bytes root))).
    { apply emits_bind; [apply emits_vgets|]. intros staged.
      apply emits_bind; [apply emits_scratch_load|]. intros r0.
      apply emits_bind; [by apply emits_collectVerkleNode|]. intros root.
      apply emits_bind; [|intros; apply emits_ret].
      apply emits_for_each. intros kv. by apply emits_load_next. }
    destruct (Hrest _ _ _ H) as (evs & Hevs & _). exists evs.
    rewrite Hevs. simpl. by rewrite <- app_assoc.
Qed.

(** C10. A run of [CommitVerkleTree(root)] with the all-zero root is a run
    of [CommitVerkleTreeFromScratch], whose first call clears the persisted
    verkle-trie table; with any other root it takes the incremental path:
    its first call reads the root node and no call clears a table. *)
Theorem CommitVerkleTree_paths root w r w' :
  CommitVerkleTree root w = (r, w') →
  ∃ rest,
    if decide (root = zero_hash) then
      CommitVerkleTreeFromScratch w = (r, w') ∧
      vcalls w' = vcalls w ++ EvClearTable VerkleTrie :: rest
    else
      vcalls w' = vcalls w ++ EvReadVerkleNode root :: rest ∧
      Forall not_clear rest.
Proof.
  intros H. unfold CommitVerkleTree in H.
  destruct (decide (root = zero_hash)) as [Hz|Hnz].
  - rewrite decide_False in H by (by intros Hne).
    destruct (FromScratch_clears_first _ _ _ H) as (rest & Hrest).
    by exists rest.
  - rewrite decide_True in H by done.
    unfold bind at 1 in H. unfold vlog at 1 in H.
    assert (Hrest : emits not_clear
      (d <- vgets db ;;
       match db_ReadVerkleNode d root with
       | inl err => fail err
       | inr rootNode =>
           staged <- vgets collector ;;
           rootNode <- incremental_load (etl_sorted staged) rootNode 0 ;;
           let commitment := node_Commitment_Bytes rootNode in
           _ <- flushVerkleNode rootNode ;;
           ret (BytesToHash commitment)
       end)).
    { apply emits_bind; [apply emits_vgets|]. intros d.
      destruct (db_ReadVerkleNode d root); [apply emits_fail|].
      apply emits_bind; [apply emits_vgets|]. intros staged.
      apply emits_bind; [apply emits_incremental_load|]. intros rootNode.
      apply emits_bind; [by apply emits_flushVerkleNode|]. intros _.
      apply emits_ret. }
    destruct (Hrest _ _ _ H) as (evs & Hevs & HQ). exists evs.
    rewrite Hevs. simpl. by rewrite <- app_assoc.
Qed.

End WriterFacts.

End VerkleFacts.

(** * Further properties of the overlay *)

Section OverlayMoreFacts.

Context `{B : Backend} `{OM : !OverlayMethods}.

(** ** What a write changes *)

(** The overlays [s] and [s'] differ at most in the commitment context and
    the domain writers. *)
Definition same_but_ctx_writers (s s' : SharedDomains) : Prop :=
  roTtx s' = roTtx s ∧ txNum s' = txNum s ∧ blockNum s' = blockNum s ∧
  estSize s' = estSize s ∧ domains s' = domains s ∧ storage s' = storage s ∧
  iiWriters s' = iiWriters s ∧
  currentChangesAccumulator s' = currentChangesAccumulator s ∧
  pastChangesAccumulator s' = pastChangesAccumulator s.

Lemma same_refl s : same_but_ctx_writers s s.
Proof. by repeat split. Qed.

Lemma same_trans s1 s2 s3 :
  same_but_ctx_writers s1 s2 → same_but_ctx_writers s2 s3 →
  same_but_ctx_writers s1 s3.
Proof.
  unfold same_but_ctx_writers. intros H1 H2.
  destruct H1 as (?&?&?&?&?&?&?&?&?), H2 as (?&?&?&?&?&?&?&?&?).
  repeat split; congruence.
Qed.

Lemma same_cache_of s s' d :
  same_but_ctx_writers s s' → cache_of d s' = cache_of d s.
Proof. intros (_&_&_&_&Hd&Hs&_). by apply cache_of_ext. Qed.

Lemma on_ctx_same ev f st r st' :
  on_ctx ev f st = (r, st') → same_but_ctx_writers (sd st) (sd st').
Proof.
  unfold on_ctx, bind, emit, modify. simpl. intros H; inversion H; subst.
  by repeat split.
Qed.

Lemma on_writer_same d ev f st r st' :
  on_writer d ev f st = (r, st') → same_but_ctx_writers (sd st) (sd st').
Proof.
  unfold on_writer, bind, emit, gets, modify, panic. simpl.
  destruct (domainWriters (sd st) d) as [w|]; simpl.
  - destruct (snd (f w)); simpl; intros H; inversion H; subst; by repeat split.
  - intros H; inversion H; subst. by repeat split.
Qed.

Lemma TouchKey_same d key val st r st' :
  TouchKey d key val st = (r, st') → same_but_ctx_writers (sd st) (sd st').
Proof. apply on_ctx_same. Qed.

Lemma PutWithPrev_same d k1 k2 v pv ps st r st' :
  PutWithPrev d k1 k2 v pv ps st = (r, st') → same_but_ctx_writers (sd st) (sd st').
Proof. unfold PutWithPrev, bind at 1, gets. simpl. apply on_writer_same. Qed.

Lemma DeleteWithPrev_same d k1 k2 pv ps st r st' :
  DeleteWithPrev d k1 k2 pv ps st = (r, st') → same_but_ctx_writers (sd st) (sd st').
Proof. unfold DeleteWithPrev, bind at 1, gets. simpl. apply on_writer_same. Qed.

(** The size counter after a [put]. *)
Lemma put_size domain key val st st' :
  put domain key val st = (Ok tt, st') →
  estSize (sd st') = bump (estSize (sd st)) key val (cache_of domain (sd st) !! key).
Proof.
  unfold put, StepSize, bind, gets, lift, ret, go_div, modify; simpl.
  destruct (N.eqb _ _); [discriminate|]. unfold cache_of.
  destruct (decide (domain = StorageDomain)); intros H; inversion H; done.
Qed.

(** A successful [DomainPut] is either suppressed by the equal-value check
    and changes nothing, or is one [put] between calls on the commitment
    context and on the domain writer. *)
Lemma DomainPut_steps d k1 val pv ps st st' :
  DomainPut d k1 None val pv ps st = (Ok tt, st') →
  ∃ p st1,
    resolvePrev d k1 pv ps st = (Ok p, st1) ∧
    (((d = CodeDomain ∨ d = ReceiptDomain) ∧
      bytes_Equal (fst p) val = true ∧ st' = st1) ∨
     (∃ st2 st3,
        same_but_ctx_writers (sd st1) (sd st2) ∧
        put d (content k1) val st2 = (Ok tt, st3) ∧
        same_but_ctx_writers (sd st3) (sd st'))).
Proof.
  intros H. unfold DomainPut in H. simpl in H.
  destruct (is_nil val); [discriminate|].
  apply bind_Ok in H as (p & st1 & Hp & H). exists p, st1. split; [done|].
  assert (Htail : ∀ dd stA,
    bind (lift (toStringZeroCopy k1)) (fun key =>
      bind (put dd key val) (fun _ =>
        PutWithPrev dd k1 None val (fst p) (snd p))) stA = (Ok tt, st') →
    ∃ st3, put dd (content k1) val stA = (Ok tt, st3) ∧
           same_but_ctx_writers (sd st3) (sd st')).
  { intros dd stA HH. apply bind_Ok in HH as (key & stB & Hk & HH).
    unfold lift in Hk. inversion Hk; subst stB.
    match goal with Hz : toStringZeroCopy k1 = Ok key |- _ =>
      apply toStringZeroCopy_Ok in Hz as [-> _] end.
    apply bind_Ok in HH as ([] & st3 & Hput & HH).
    exists st3. split; [done|]. by eapply PutWithPrev_same. }
  destruct d; simpl in H.
  - right. unfold updateAccountData in H.
    apply bind_Ok in H as ([] & st2 & Ht & H).
    apply bind_Ok in H as ([] & st3 & Hput & H).
    exists st2, st3. split; [by eapply TouchKey_same|]. split; [done|].
    by eapply PutWithPrev_same.
  - right. unfold writeAccountStorage in H. simpl in H.
    apply bind_Ok in H as ([] & st2 & Ht & H).
    apply bind_Ok in H as ([] & st3 & Hput & H).
    exists st2, st3. split; [by eapply TouchKey_same|]. split; [done|].
    by eapply PutWithPrev_same.
  - destruct (bytes_Equal (fst p) val) eqn:Heq.
    + left. inversion H; subst. by repeat split; [left|..].
    + right. unfold updateAccountCode in H.
      apply bind_Ok in H as ([] & st2 & Ht & H).
      apply bind_Ok in H as ([] & st3 & Hput & H).
      exists st2, st3. split; [by eapply TouchKey_same|]. split; [done|].
      destruct (Nat.eqb _ _);
        [by eapply DeleteWithPrev_same|by eapply PutWithPrev_same].
  - right. destruct (Htail _ _ H) as (st3 & ? & ?).
    exists st1, st3. split; [apply same_refl|done].
  - destruct (bytes_Equal (fst p) val) eqn:Heq.
    + left. inversion H; subst. by repeat split; [right|..].
    + right. destruct (Htail _ _ H) as (st3 & ? & ?).
      exists st1, st3. split; [apply same_refl|done].
  - right. destruct (Htail _ _ H) as (st3 & ? & ?).
    exists st1, st3. split; [apply same_refl|done].
Qed.

(** X1. A successful [DomainPut] of a key that is not cached, in a domain
    other than Commitment and not suppressed by the equal-value check,
    raises [SizeEstimate] by four times the length of key plus value, as
    long as the counter stays within range. *)
Theorem DomainPut_new_key_grows_estimate d k1 val pv ps st st' :
  d ≠ CommitmentDomain →
  DomainPut d k1 None val pv ps st = (Ok tt, st') →
  (d = CodeDomain ∨ d = ReceiptDomain →
   ∀ p st1, resolvePrev d k1 pv ps st = (Ok p, st1) →
            bytes_Equal (fst p) val = false) →
  cache_of d (sd st) !! content k1 = None →
  (0 ≤ estSize (sd st))%Z →
  (estSize (sd st) + Z.of_nat (len k1 + len val) < 2 ^ 61)%Z →
  ∃ n, fst (SizeEstimate st) = Ok n ∧
       fst (SizeEstimate st') = Ok (n + 4 * N.of_nat (len k1 + len val)).
Proof.
  intros Hd H Hns Hnew H0 Hmax.
  destruct (DomainPut_steps _ _ _ _ _ _ _ H) as (p & st1 & Hp & Hcase).
  pose proof (resolvePrev_sd _ _ _ _ _ _ _ Hd Hp) as Hsd.
  destruct Hcase as [(Hdd & Heq & _)|(st2 & st3 & H12 & Hput & H3)].
  { rewrite (Hns Hdd _ _ Hp) in Heq. discriminate. }
  apply put_size in Hput.
  rewrite (same_cache_of _ _ d H12), Hsd, Hnew in Hput. simpl in Hput.
  destruct H12 as (_&_&_&He2&_). destruct H3 as (_&_&_&He3&_).
  rewrite He2, Hsd in Hput.
  exists (Z.to_N (estSize (sd st) * 4)).
  unfold SizeEstimate, bind, gets, ret. simpl.
  rewrite He3, Hput. unfold wrap_u64, wrap_int, len in *.
  split; f_equal.
  - rewrite (Z.mod_small (estSize (sd st))) by lia.
    rewrite Z2N.id by lia. rewrite Z.mod_small by lia. done.
  - set (e := estSize (sd st)) in *.
    set (k := Z.of_nat (String.length (content k1))).
    set (v := Z.of_nat (String.length (content val))).
    assert (Hkv : Z.of_nat (String.length (content k1) + String.length (content val))
                  = (k + v)%Z) by (unfold k, v; lia).
    rewrite Hkv in Hmax.
    replace ((e + (k + v) + 2 ^ 63) mod 2 ^ 64 - 2 ^ 63)%Z with (e + (k + v))%Z.
    2:{ rewrite Z.mod_small by lia. lia. }
    rewrite (Z.mod_small (e + (k + v))) by lia.
    rewrite Z2N.id by lia. rewrite Z.mod_small by lia.
    replace (N.of_nat (String.length (content k1) + String.length (content val)))
      with (Z.to_N (k + v)) by (unfold k, v; lia).
    lia.
Qed.

(** X2. A successful [DomainPut] in a domain other than Commitment leaves
    every other cached entry as it was: a lookup under another key, or in
    another domain, gives the same result before and after. *)
Theorem DomainPut_keeps_other_entries d k1 val pv ps st st' d' key' :
  d ≠ CommitmentDomain →
  DomainPut d k1 None val pv ps st = (Ok tt, st') →
  d' ≠ d ∨ key' ≠ content k1 →
  cache_of d' (sd st') !! key' = cache_of d' (sd st) !! key'.
Proof.
  intros Hd H Hne.
  destruct (DomainPut_steps _ _ _ _ _ _ _ H) as (p & st1 & Hp & Hcase).
  pose proof (resolvePrev_sd _ _ _ _ _ _ _ Hd Hp) as Hsd.
  destruct Hcase as [(_ & _ & ->)|(st2 & st3 & H12 & Hput & H3)].
  { by rewrite Hsd. }
  apply put_Ok in Hput as (Hc & _).
  rewrite (same_cache_of _ _ d' H3), Hc.
  rewrite <- Hsd, <- (same_cache_of _ _ d' H12).
  destruct (decide (d' = d)) as [->|]; [|done].
  destruct Hne as [|Hk]; [done|]. by rewrite lookup_insert_ne.
Qed.

(** ** Deleting *)

(** A successful [DomainDel] outside the Accounts domain is a no-op (Code
    with no previous value) or one [put] of nil between calls on the
    commitment context and on the domain writer. *)
Lemma DomainDel_steps d k pv ps st st' :
  d ≠ AccountsDomain →
  DomainDel d k pv ps st = (Ok tt, st') →
  ∃ p st1,
    resolvePrev d k pv ps st = (Ok p, st1) ∧
    ((d = CodeDomain ∧ is_nil (fst p) = true ∧ st' = st1) ∨
     (∃ st2 st3,
        same_but_ctx_writers (sd st1) (sd st2) ∧
        put d (content k) None st2 = (Ok tt, st3) ∧
        same_but_ctx_writers (sd st3) (sd st'))).
Proof.
  intros Hd H. unfold DomainDel, DomainDel_body in H.
  apply bind_Ok in H as (p & st1 & Hp & H). exists p, st1. split; [done|].
  assert (Htail : ∀ stA,
    bind (lift (toStringZeroCopy k)) (fun key =>
      bind (put d key None) (fun _ =>
        DeleteWithPrev d k None (fst p) (snd p))) stA = (Ok tt, st') →
    ∃ st3, put d (content k) None stA = (Ok tt, st3) ∧
           same_but_ctx_writers (sd st3) (sd st')).
  { intros stA HH. apply bind_Ok in HH as (key & stB & Hk & HH).
    unfold lift in Hk. inversion Hk; subst stB.
    match goal with Hz : toStringZeroCopy k = Ok key |- _ =>
      apply toStringZeroCopy_Ok in Hz as [-> _] end.
    apply bind_Ok in HH as ([] & st3 & Hput & HH).
    exists st3. split; [done|]. by eapply DeleteWithPrev_same. }
  destruct d; simpl in H; try done.
  - right. unfold delAccountStorage in H. simpl in H.
    apply bind_Ok in H as ([] & st2 & Ht & H).
    apply bind_Ok in H as ([] & st3 & Hput & H).
    exists st2, st3. split; [by eapply TouchKey_same|]. split; [done|].
    by eapply DeleteWithPrev_same.
  - destruct (is_nil (fst p)) eqn:Hnil.
    + left. by inversion H.
    + right. unfold updateAccountCode in H. simpl in H.
      apply bind_Ok in H as ([] & st2 & Ht & H).
      apply bind_Ok in H as ([] & st3 & Hput & H).
      exists st2, st3. split; [by eapply TouchKey_same|]. split; [done|].
      by eapply DeleteWithPrev_same.
  - right. apply bind_Ok in H as (key & stB & Hk & H).
    unfold lift in Hk. inversion Hk; subst stB.
    match goal with Hz : toStringZeroCopy k = Ok key |- _ =>
      apply toStringZeroCopy_Ok in Hz as [-> _] end.
    unfold updateCommitmentData in H.
    apply bind_Ok in H as ([] & st3 & Hput & H).
    exists st1, st3. split; [apply same_refl|]. split; [done|].
    by eapply PutWithPrev_same.
  - right. destruct (Htail _ H) as (st3 & ? & ?).
    exists st1, st3. split; [apply same_refl|done].
  - right. destruct (Htail _ H) as (st3 & ? & ?).
    exists st1, st3. split; [apply same_refl|done].
Qed.

(** The value [GetLatest] returns depends on the overlay only, not on the
    log of calls. *)
Lemma GetLatest_fst_sd d k st st1 :
  d ≠ CommitmentDomain → sd st1 = sd st →
  fst (GetLatest d k st1) = fst (GetLatest d k st).
Proof.
  intros Hd Hsd. unfold GetLatest. rewrite !decide_False by done.
  unfold get, bind, lift, gets, ret, emit, fail. rewrite Hsd.
  destruct (toStringZeroCopy k); simpl; try done.
  destruct (cache_of d (sd st) !! a); simpl; [done|].
  rewrite Hsd. by destruct (tx_GetLatest _ _ _) as [|[]].
Qed.

(** X3. After a successful [DomainDel(D, K)] with a non-empty key, in any
    domain but Commitment, [GetLatest(D, K)] returns the nil value: the
    delete is read back.  Except for a Code delete that found nothing to
    delete, the key is then cached as a tombstone and [get] hits it. *)
Theorem DomainDel_then_GetLatest_nil d k pv ps st st' :
  d ≠ CommitmentDomain →
  content k ≠ EmptyString →
  DomainDel d k pv ps st = (Ok tt, st') →
  (∃ step, fst (GetLatest d k st') = Ok (None, step)) ∧
  (d ≠ CodeDomain →
   get d k st' = (Ok (None, txNum (sd st') / tx_StepSize (roTtx (sd st')), true), st')).
Proof.
  intros Hd Hk H.
  assert (Hhit : ∀ s0, written d (content k) None s0 (sd st') →
    (∃ step, fst (GetLatest d k st') = Ok (None, step)) ∧
    get d k st' = (Ok (None, txNum (sd st') / tx_StepSize (roTtx (sd st')), true), st')).
  { intros s0 Hw. pose proof (written_lookup _ _ _ _ _ Hw) as Hl.
    destruct Hw as (_ & Ht & Hr). split.
    - eexists. erewrite GetLatest_hit; [|done|done|exact Hl]. reflexivity.
    - erewrite get_hit; [|by apply toStringZeroCopy_nonempty|exact Hl].
      simpl. by rewrite Ht, Hr. }
  destruct (decide (d = AccountsDomain)) as [->|Hna].
  - unfold DomainDel, DomainDel_body in H.
    apply bind_Ok in H as (p & st0 & Hp & H). simpl in H.
    unfold deleteAccount, deleteAccount_body in H.
    apply bind_Ok in H as ([] & st1 & Hpre & H).
    apply bind_Ok in H as ([] & st2 & Hcode & H).
    apply touch_put_then in H.
    2:{ apply preserves_DeleteWithPrev, written_cache_only. }
    destruct (Hhit _ H) as [H1 H2]. by split.
  - destruct (DomainDel_steps _ _ _ _ _ _ Hna H) as (p & st1 & Hp & Hcase).
    pose proof (resolvePrev_sd _ _ _ _ _ _ _ Hd Hp) as Hsd.
    destruct Hcase as [(-> & Hnil & ->)|(st2 & st3 & H12 & Hput & H3)].
    + split; [|done]. unfold resolvePrev in Hp.
      destruct (is_nil pv) eqn:Hpv.
      * rewrite (GetLatest_fst_sd CodeDomain k st st1 Hd Hsd), Hp. simpl.
        destruct p as [[v|] step]; [done|]. by exists step.
      * inversion Hp; subst. simpl in Hnil. congruence.
    + assert (Hw : written d (content k) None (sd st2) (sd st')).
      { apply put_Ok in Hput as (Hc & Ht & Hr & _).
        destruct H3 as (Hr3 & Ht3 & _ & _ & Hd3 & Hs3 & _).
        split; [|split; congruence].
        intros d'. rewrite (cache_of_ext _ _ d' Hd3 Hs3). apply Hc. }
      destruct (Hhit _ Hw) as [H1 H2]. by split.
Qed.

(** X4. A successful [DomainDel] outside the Accounts and Commitment
    domains leaves every other cached entry as it was. *)
Theorem DomainDel_keeps_other_entries d k pv ps st st' d' key' :
  d ≠ AccountsDomain → d ≠ CommitmentDomain →
  DomainDel d k pv ps st = (Ok tt, st') →
  d' ≠ d ∨ key' ≠ content k →
  cache_of d' (sd st') !! key' = cache_of d' (sd st) !! key'.
Proof.
  intros Hna Hd H Hne.
  destruct (DomainDel_steps _ _ _ _ _ _ Hna H) as (p & st1 & Hp & Hcase).
  pose proof (resolvePrev_sd _ _ _ _ _ _ _ Hd Hp) as Hsd.
  destruct Hcase as [(_ & _ & ->)|(st2 & st3 & H12 & Hput & H3)].
  { by rewrite Hsd. }
  apply put_Ok in Hput as (Hc & _).
  rewrite (same_cache_of _ _ d' H3), Hc.
  rewrite <- Hsd, <- (same_cache_of _ _ d' H12).
  destruct (decide (d' = d)) as [->|]; [|done].
  destruct Hne as [|Hk]; [done|]. by rewrite lookup_insert_ne.
Qed.

(** X5. Deleting an account leaves the storage of other accounts alone: a
    cached Storage entry whose key does not start with the account key is
    unchanged, and so is every entry of a domain other than Storage, Code
    and Accounts. *)
Theorem DomainDel_account_keeps_foreign_storage addr pv ps st st' :
  DomainDel AccountsDomain addr pv ps st = (Ok tt, st') →
  (∀ key, has_prefix key (content addr) = false →
          storage (sd st') !! key = storage (sd st) !! key) ∧
  (∀ d, d ≠ StorageDomain → d ≠ CodeDomain → d ≠ AccountsDomain →
        cache_of d (sd st') = cache_of d (sd st)).
Proof.
  intros H. unfold DomainDel, DomainDel_body in H.
  apply bind_Ok in H as (p & st0 & Hp & H). simpl in H.
  unfold deleteAccount, deleteAccount_body in H.
  apply bind_Ok in H as ([] & st1 & Hpre & H).
  apply bind_Ok in H as ([] & st2 & Hcode & H).
  pose proof (resolvePrev_sd AccountsDomain _ _ _ _ _ _ ltac:(done) Hp) as Hsd0.
  apply DomainDelPrefix_inv in Hpre as (es & st1' & Hes & Hloop & Hsd1).
  unfold storage_entries in Hes.
  destruct (tx_prefix_cursor _ _ _) as [|cursor]; [done|]. inversion Hes as [Hes'].
  apply delete_loop in Hloop as (_ & Hout & Hd1 & _); simpl in *.
  2:{ intros e He. rewrite <- Hes' in He. by apply yielded_entries_live in He as [_ ?]. }
  assert (Hcode' : DomainDel CodeDomain addr None (snd p) st1 = (Ok tt, st2)) by exact Hcode.
  apply touch_put_then in H.
  2:{ apply preserves_DeleteWithPrev, written_cache_only. }
  destruct H as (He3 & _).
  assert (Hc2 : ∀ d, d ≠ CodeDomain → cache_of d (sd st2) = cache_of d (sd st1)).
  { intros d Hdc.
    destruct (DomainDel_steps CodeDomain _ _ _ _ _ ltac:(done) Hcode') as (q & sa & Hq & Hcase).
    pose proof (resolvePrev_sd CodeDomain _ _ _ _ _ _ ltac:(done) Hq) as Hsa.
    destruct Hcase as [(_ & _ & ->)|(sb & sc & Hab & Hput & Hc)]; [by rewrite Hsa|].
    apply put_Ok in Hput as (Hcc & _).
    rewrite (same_cache_of _ _ d Hc), Hcc, decide_False by done.
    by rewrite (same_cache_of _ _ d Hab), Hsa. }
  split.
  - intros key Hkey.
    pose proof (He3 StorageDomain) as E3. rewrite decide_False in E3 by done.
    pose proof (Hc2 StorageDomain ltac:(done)) as E2.
    unfold cache_of in E3, E2. simpl in E3, E2. rewrite E3, E2, Hsd1, Hout, Hsd0; [done|].
    intros Hin. rewrite <- Hes' in Hin.
    apply list_elem_of_fmap in Hin as (e & -> & He).
    apply yielded_entries_live in He as [He _].
    unfold merged_entries in He. apply map_lookup_filter_Some in He as [_ [Hpx _]].
    simpl in Hpx. congruence.
  - intros d Hs Hc Ha.
    rewrite (He3 d), decide_False by done.
    rewrite (Hc2 d Hc), Hsd1, (Hd1 d Hs). by rewrite Hsd0.
Qed.

(** X6. A Storage key put and then deleted still costs its key length: the
    size counter ends at its starting value plus the length of the key,
    the value's length being released by the delete. *)
Theorem put_then_delete_keeps_key_cost k val pv ps pv' ps' st st1 st2 :
  DomainPut StorageDomain k None val pv ps st = (Ok tt, st1) →
  DomainDel StorageDomain k pv' ps' st1 = (Ok tt, st2) →
  storage (sd st) !! content k = None →
  (0 ≤ estSize (sd st))%Z →
  (estSize (sd st) + Z.of_nat (len k + len val) < 2 ^ 63)%Z →
  estSize (sd st2) = (estSize (sd st) + Z.of_nat (len k))%Z.
Proof.
  intros Hput Hdel Hnew H0 Hmax.
  destruct (DomainPut_steps _ _ _ _ _ _ _ Hput) as (p & sa & Hp & Hcase).
  pose proof (resolvePrev_sd StorageDomain _ _ _ _ _ _ ltac:(done) Hp) as Hsa.
  destruct Hcase as [([|] & _)|(sb & sc & Hab & Hpt & Hc)]; try done.
  destruct (DomainDel_steps StorageDomain _ _ _ _ _ ltac:(done) Hdel) as (q & ta & Hq & Hcase).
  pose proof (resolvePrev_sd StorageDomain _ _ _ _ _ _ ltac:(done) Hq) as Hta.
  destruct Hcase as [(? & _)|(tb & tc & Htab & Hdl & Htc)]; [done|].
  pose proof (put_size _ _ _ _ _ Hpt) as Hs1.
  pose proof (put_size _ _ _ _ _ Hdl) as Hs2.
  apply put_Ok in Hpt as (Hc1 & _).
  rewrite (same_cache_of _ _ _ Htab), Hta, (same_cache_of _ _ _ Hc), Hc1 in Hs2.
  rewrite decide_True, lookup_insert_eq in Hs2 by done. simpl in Hs2.
  rewrite (same_cache_of _ _ _ Hab), Hsa in Hs1.
  unfold cache_of in Hs1. simpl in Hs1. rewrite Hnew in Hs1. simpl in Hs1.
  destruct Hab as (_&_&_&Eb&_), Hc as (_&_&_&Ec&_),
           Htab as (_&_&_&Etb&_), Htc as (_&_&_&Etc&_).
  rewrite Etc, Hs2, Etb, Hta, Ec, Hs1, Eb, Hsa.
  unfold wrap_int, len in *. simpl.
  set (e := estSize (sd st)) in *.
  set (kl := Z.of_nat (String.length (content k))) in *.
  set (vl := Z.of_nat (String.length (content val))) in *.
  assert (Hkv : Z.of_nat (String.length (content k) + String.length (content val))
                = (kl + vl)%Z) by (unfold kl, vl; lia).
  rewrite Hkv in Hmax.
  assert (0 ≤ kl)%Z by (unfold kl; lia). assert (0 ≤ vl)%Z by (unfold vl; lia).
  rewrite (Z.mod_small (e + (kl + vl) + 2 ^ 63)) by lia.
  replace (e + (kl + vl) + 2 ^ 63 - 2 ^ 63 + (0 - vl) + 2 ^ 63)%Z
    with (e + kl + 2 ^ 63)%Z by lia.
  rewrite Z.mod_small by lia. lia.
Qed.

(** ** HasPrefix *)

(** X7. After a successful [DomainDelPrefix(Storage, prefix)],
    [HasPrefix(Storage, prefix)] reports that no key is left. *)
Theorem HasPrefix_after_DomainDelPrefix prefix st st' :
  DomainDelPrefix StorageDomain prefix st = (Ok tt, st') →
  fst (HasPrefix StorageDomain prefix st') = Ok (None, false).
Proof.
  intros H. apply DomainDelPrefix_effect in H as (He & _).
  unfold HasPrefix. rewrite IteratePrefix_storage, He. reflexivity.
Qed.

(** X8. After a successful [DomainPut] of a non-empty value under a Storage
    key, [HasPrefix] finds a key under every prefix of that key, provided
    the store's cursor opens. *)
Theorem HasPrefix_after_DomainPut k val pv ps prefix st st' :
  DomainPut StorageDomain k None val pv ps st = (Ok tt, st') →
  len val ≠ 0%nat →
  has_prefix (content k) (content prefix) = true →
  (∃ cursor, tx_prefix_cursor (roTtx (sd st')) StorageDomain prefix = inr cursor) →
  ∃ key, fst (HasPrefix StorageDomain prefix st') = Ok (Some key, true) ∧
         has_prefix key (content prefix) = true.
Proof.
  intros H Hlen Hpx [cursor Hcur].
  destruct (DomainPut_steps _ _ _ _ _ _ _ H) as (p & st1 & Hp & Hcase).
  destruct Hcase as [([|] & _)|(st2 & st3 & H12 & Hput & H3)]; try done.
  apply put_Ok in Hput as (Hc & _).
  assert (Hl : storage (sd st') !! content k = Some (entry_at (sd st2) val)).
  { pose proof (same_cache_of _ _ StorageDomain H3) as E. rewrite Hc in E.
    rewrite decide_True in E by done. unfold cache_of at 1 in E. simpl in E.
    rewrite E. apply lookup_insert_eq. }
  unfold HasPrefix. rewrite IteratePrefix_storage. unfold storage_entries.
  rewrite Hcur.
  set (es := yielded_entries _ _ _ _).
  assert (Hin : content k ∈ es.*1).
  { apply yielded_entries_keys. unfold merged_entries. rewrite ram_view_size.
    exists (val, txNum (sd st2) / tx_StepSize (roTtx (sd st2))).
    apply map_lookup_filter_Some. split; [|by split].
    apply lookup_union_Some_raw. left. by rewrite lookup_fmap, Hl. }
  destruct es as [|e es'] eqn:Hes; [by apply elem_of_nil in Hin|].
  exists (fst e). split; [reflexivity|].
  assert (He : e ∈ yielded_entries (content prefix)
                 (negb (Nat.eqb (size (storage (sd st'))) 0)) (storage (sd st')) cursor).
  { fold es. rewrite Hes. by left. }
  apply yielded_entries_live in He as [He _].
  unfold merged_entries in He. by apply map_lookup_filter_Some in He as [_ [? _]].
Qed.

(** ** The order of a flush *)

(** [m] only appends to the log of calls. *)
Definition appends {A} (m : M A) : Prop :=
  ∀ st r st', m st = (r, st') → ∃ evs, calls st' = calls st ++ evs.

Lemma appends_silent {A} (m : M A) :
  (∀ st, calls (snd (m st)) = calls st) → appends m.
Proof.
  intros Hm st r st' H. exists []. specialize (Hm st). rewrite H in Hm.
  simpl in Hm. by rewrite app_nil_r.
Qed.

Lemma appends_bind {A C} (m : M A) (k : A → M C) :
  appends m → (∀ a, appends (k a)) → appends (bind m k).
Proof.
  intros Hm Hk st r st' H.
  apply bind_inv in H as [(a & st1 & H1 & H2)|[(e & H1 & _)|(p & H1 & _)]].
  - destruct (Hm _ _ _ H1) as (ev1 & He1). destruct (Hk a _ _ _ H2) as (ev2 & He2).
    exists (ev1 ++ ev2). by rewrite He2, He1, app_assoc.
  - eapply Hm; eauto.
  - eapply Hm; eauto.
Qed.

Lemma appends_emit ev : appends (emit ev).
Proof. intros st r st' H. inversion H; subst. by exists [ev]. Qed.

Lemma appends_for_each {A} (l : list A) (f : A → M unit) :
  (∀ x, appends (f x)) → appends (for_each l f).
Proof.
  intros Hf. induction l as [|x l IH]; simpl.
  - by apply appends_silent.
  - apply appends_bind; auto.
Qed.

Lemma appends_check o : appends (check o).
Proof. destruct o; by apply appends_silent. Qed.

Lemma appends_on_tx ev f : appends (on_tx ev f).
Proof.
  unfold on_tx. apply appends_bind; [apply appends_emit|]. intros _.
  apply appends_bind; [by apply appends_silent|]. intros tx.
  apply appends_bind; [by apply appends_silent|]. intros _. apply appends_check.
Qed.

Lemma appends_flush_domain_writer di : appends (flush_domain_writer di).
Proof.
  unfold flush_domain_writer. apply appends_bind; [by apply appends_silent|].
  intros ws. destruct (ws di); [|by apply appends_silent].
  apply appends_bind; [apply appends_emit|]. intros _.
  apply appends_bind; [by apply appends_silent|]. intros tx.
  apply appends_bind; [by apply appends_silent|]. intros _.
  apply appends_bind; [apply appends_check|]. intros _. apply appends_on_tx.
Qed.

Lemma appends_flush_ii_writer i : appends (flush_ii_writer i).
Proof.
  unfold flush_ii_writer. apply appends_bind; [by apply appends_silent|].
  intros ws. destruct (ws !! i) as [[w|]|]; try by apply appends_silent.
  apply appends_bind; [apply appends_emit|]. intros _.
  apply appends_bind; [by apply appends_silent|]. intros tx.
  apply appends_bind; [by apply appends_silent|]. intros _. apply appends_check.
Qed.

Lemma appends_close_domain_writer di : appends (close_domain_writer di).
Proof.
  unfold close_domain_writer. apply appends_bind; [by apply appends_silent|].
  intros ws. destruct (ws di); [|by apply appends_silent].
  apply appends_bind; [apply appends_emit|]. intros _. by apply appends_silent.
Qed.

Lemma appends_close_ii_writer i : appends (close_ii_writer i).
Proof.
  unfold close_ii_writer. apply appends_bind; [by apply appends_silent|].
  intros ws. destruct (ws !! i) as [[w|]|]; try by apply appends_silent.
  apply appends_bind; [apply appends_emit|]. intros _.
  apply appends_bind; [by apply appends_silent|]. intros tx. by apply appends_silent.
Qed.

(** A call that persists a changeset. *)
Definition is_diffset_write (ev : Event) : Prop :=
  ∃ n h, ev = EvWriteDiffSet n h.

(** The loop of [Flush] over the past changesets. *)
Lemma flush_diffsets_run l st r st1 :
  for_each l flush_diffset st = (r, st1) →
  ∃ evs, calls st1 = calls st ++ evs ∧ Forall is_diffset_write evs ∧
         (r = Ok tt → evs = map diffset_event l) ∧
         pastChangesAccumulator (sd st1) = pastChangesAccumulator (sd st) ∧
         blockNum (sd st1) = blockNum (sd st) ∧
         domains (sd st1) = domains (sd st) ∧ storage (sd st1) = storage (sd st).
Proof.
  revert st. induction l as [|kc l IH]; intros st H; simpl in H.
  - inversion H; subst. exists []. rewrite app_nil_r. by repeat split.
  - assert (Hone : ∀ r1 s1, flush_diffset kc st = (r1, s1) →
      ∃ evs, calls s1 = calls st ++ evs ∧ Forall is_diffset_write evs ∧
             (r1 = Ok tt → evs = [diffset_event kc]) ∧
             pastChangesAccumulator (sd s1) = pastChangesAccumulator (sd st) ∧
             blockNum (sd s1) = blockNum (sd st) ∧
             domains (sd s1) = domains (sd st) ∧ storage (sd s1) = storage (sd st)).
    { intros r1 s1. unfold flush_diffset. destruct (Nat.ltb _ _).
      - intros E; inversion E; subst. exists []. rewrite app_nil_r.
        by repeat split.
      - unfold on_tx, bind, emit, gets, modify, check, fail, ret. simpl.
        destruct (snd (tx_WriteDiffSet _ _ _ _)); intros E; inversion E; subst;
          simpl; (eexists; split; [reflexivity|]);
          (split; [repeat constructor; by eexists _, _|]); by repeat split. }
    apply bind_inv in H as [([] & s1 & H1 & H2)|[(e & H1 & ->)|(q & H1 & ->)]].
    + destruct (Hone _ _ H1) as (ev1 & E1 & F1 & O1 & P1 & B1 & D1 & S1).
      destruct (IH _ H2) as (ev2 & E2 & F2 & O2 & P2 & B2 & D2 & S2).
      exists (ev1 ++ ev2). rewrite E2, E1, app_assoc.
      split; [done|]. split; [by apply Forall_app|].
      split; [|repeat split; congruence].
      intros Hr. rewrite (O1 eq_refl), (O2 Hr). done.
    + destruct (Hone _ _ H1) as (ev1 & E1 & F1 & O1 & P1 & B1 & D1 & S1).
      exists ev1. by repeat split.
    + destruct (Hone _ _ H1) as (ev1 & E1 & F1 & O1 & P1 & B1 & D1 & S1).
      exists ev1. by repeat split.
Qed.

(** The two ways a run of [Flush] can go. *)
Lemma Flush_run st r st' :
  Flush st = (r, st') →
  (∃ evs, calls st' = calls st ++ evs ∧ Forall is_diffset_write evs ∧
          r ≠ Ok tt ∧
          pastChangesAccumulator (sd st') = pastChangesAccumulator (sd st) ∧
          domains (sd st') = domains (sd st) ∧ storage (sd st') = storage (sd st)) ∨
  (∃ rest,
     calls st' = calls st ++
       map diffset_event (map_to_list (pastChangesAccumulator (sd st))) ++
       EvComputeCommitment (blockNum (sd st)) :: rest).
Proof.
  unfold Flush. intros H. unfold bind at 1 in H. unfold gets at 1 in H.
  apply bind_inv in H as [([] & s1 & H1 & H2)|[(e & H1 & ->)|(q & H1 & ->)]].
  - right. destruct (flush_diffsets_run _ _ _ _ H1) as (ev1 & E1 & _ & O1 & _ & B1 & _).
    rewrite (O1 eq_refl) in E1.
    unfold bind at 1 in H2. unfold modify at 1 in H2.
    unfold bind at 1 in H2. unfold gets at 1 in H2. simpl in H2.
    set (s2 := {| sd := set_past ∅ (sd s1); calls := calls s1 |}) in *.
    assert (Hrest : appends
      (for_each all_domains flush_domain_writer ;;
       iis <- gets iiWriters ;;
       for_each (seq 0 (length iis)) flush_ii_writer ;;
       (if Z.eqb PruneOnFlushTimeout 0 then ret tt
        else on_tx EvPrune (fun tx => tx_PruneSmallBatches tx PruneOnFlushTimeout)) ;;
       for_each all_domains close_domain_writer ;;
       iis <- gets iiWriters ;;
       for_each (seq 0 (length iis)) close_ii_writer)).
    { apply appends_bind;
        [apply appends_for_each; intros; apply appends_flush_domain_writer|].
      intros _. apply appends_bind; [by apply appends_silent|]. intros iis.
      apply appends_bind;
        [apply appends_for_each; intros; apply appends_flush_ii_writer|].
      intros _. apply appends_bind.
      { destruct (Z.eqb _ _); [by apply appends_silent|apply appends_on_tx]. }
      intros _. apply appends_bind;
        [apply appends_for_each; intros; apply appends_close_domain_writer|].
      intros _. apply appends_bind; [by apply appends_silent|]. intros iis'.
      apply appends_for_each; intros; apply appends_close_ii_writer. }
    unfold bind at 1 in H2. unfold ComputeCommitment at 1 in H2.
    set (cc := sd_ComputeCommitment _ _ _ _) in H2.
    set (s3 := {| sd := snd cc; calls := calls s2 ++ [EvComputeCommitment (blockNum (sd s1))] |}) in *.
    assert (Hc3 : calls s3 = calls st ++
              map diffset_event (map_to_list (pastChangesAccumulator (sd st))) ++
              [EvComputeCommitment (blockNum (sd st))]).
    { unfold s3, s2. simpl. by rewrite E1, B1, <- app_assoc. }
    destruct (fst cc) as [h|e|q] eqn:Hcc.
    + destruct (Hrest _ _ _ H2) as (evs & Hevs). exists evs.
      rewrite Hevs, Hc3, <- !app_assoc. done.
    + inversion H2; subst. exists []. by rewrite Hc3.
    + inversion H2; subst. exists []. by rewrite Hc3.
  - left. destruct (flush_diffsets_run _ _ _ _ H1) as (ev1 & E1 & F1 & _ & P1 & _ & D1 & S1).
    exists ev1. by repeat split.
  - left. destruct (flush_diffsets_run _ _ _ _ H1) as (ev1 & E1 & F1 & _ & P1 & _ & D1 & S1).
    exists ev1. by repeat split.
Qed.

(** X9. Every run of [Flush] either stops while it persists the past
    changesets, and then returns an error or panics with the changesets
    still held in memory, the cache untouched and no commitment computed,
    or it has persisted every past changeset, one [WriteDiffSet] each,
    before it computes the commitment. *)
Theorem Flush_persists_changesets_first st r st' :
  Flush st = (r, st') →
  (∃ evs, calls st' = calls st ++ evs ∧ Forall is_diffset_write evs ∧
          r ≠ Ok tt ∧
          pastChangesAccumulator (sd st') = pastChangesAccumulator (sd st) ∧
          domains (sd st') = domains (sd st) ∧ storage (sd st') = storage (sd st)) ∨
  (∃ rest,
     calls st' = calls st ++
       map diffset_event (map_to_list (pastChangesAccumulator (sd st))) ++
       EvComputeCommitment (blockNum (sd st)) :: rest).
Proof.
  intros H. destruct (Flush_run _ _ _ H) as [Hstop|Hgo]; [left|right]; assumption.
Qed.

(** ** The key of a block's changeset *)

Lemma length_be_bytes k v acc :
  String.length (be_bytes k v acc) = (k + String.length acc)%nat.
Proof.
  revert v acc. induction k as [|k IH]; intros v acc; simpl; [done|].
  rewrite IH. simpl. lia.
Qed.

Lemma be_value_be_bytes k v acc a :
  be_value (be_bytes k v acc) a
  = be_value acc (a * 256 ^ N.of_nat k + v mod 256 ^ N.of_nat k).
Proof.
  revert v acc a. induction k as [|k IH]; intros v acc a.
  - simpl. rewrite N.mod_1_r. f_equal. lia.
  - simpl be_bytes. rewrite IH. simpl be_value.
    rewrite N_ascii_embedding by (apply N.mod_lt; done).
    f_equal. rewrite Nat2N.inj_succ, N.pow_succ_r'.
    rewrite (N.Div0.mod_mul_r v 256 (256 ^ N.of_nat k)). lia.
Qed.

Lemma take_str_app a b :
  take_str (String.length a) (String.append a b) = a.
Proof. induction a as [|c a IH]; simpl; [by destruct b|]. by rewrite IH. Qed.

Lemma drop_str_app a b :
  drop_str (String.length a) (String.append a b) = b.
Proof. induction a as [|c a IH]; simpl; [by destruct b|]. done. Qed.

Lemma length_append a b :
  String.length (String.append a b) = (String.length a + String.length b)%nat.
Proof. induction a as [|c a IH]; simpl; [done|]. by rewrite IH. Qed.

Lemma fit32_id h : String.length h = 32%nat → fit32 h = h.
Proof. intros Hl. unfold fit32. rewrite <- Hl at 1. apply take_str_app. Qed.

Lemma BytesToHash_id h :
  String.length h = 32%nat → BytesToHash (toBytesZeroCopy h) = h.
Proof.
  intros Hl. unfold BytesToHash, toBytesZeroCopy. simpl. rewrite Hl.
  change (Nat.ltb 32 32) with false. cbv iota. by rewrite Hl.
Qed.

(** The key decodes to the block it was built from. *)
Lemma diffset_key_decode h n :
  String.length h = 32%nat → n < 2 ^ 64 →
  be_value (take_str 8 (diffset_key h n)) 0 = n ∧
  BytesToHash (toBytesZeroCopy (drop_str 8 (diffset_key h n))) = h ∧
  String.length (diffset_key h n) = 40%nat.
Proof.
  intros Hl Hn. unfold diffset_key, BigEndian_PutUint64.
  assert (H8 : String.length (be_bytes 8 n EmptyString) = 8%nat)
    by (by rewrite length_be_bytes).
  rewrite fit32_id by done.
  split; [|split].
  - rewrite <- H8 at 1. rewrite take_str_app, be_value_be_bytes. simpl be_value.
    rewrite N.mod_small; [lia|]. exact Hn.
  - rewrite <- H8 at 1. rewrite drop_str_app. by apply BytesToHash_id.
  - rewrite length_append, H8, Hl. done.
Qed.

Lemma diffset_key_inj h n h' n' :
  String.length h = 32%nat → String.length h' = 32%nat →
  n < 2 ^ 64 → n' < 2 ^ 64 →
  diffset_key h n = diffset_key h' n' → h = h' ∧ n = n'.
Proof.
  intros Hl Hl' Hn Hn' Heq.
  destruct (diffset_key_decode h n Hl Hn) as (E1 & E2 & _).
  destruct (diffset_key_decode h' n' Hl' Hn') as (E1' & E2' & _).
  rewrite Heq in E1, E2. split; congruence.
Qed.

(** X12. A changeset saved for a block is persisted by the next successful
    [Flush] under that block: the 40-byte key it is held under decodes to
    the same block number and hash, so the [WriteDiffSet] call for
    [(blockNumber, blockHash)] is made before the commitment is
    computed. *)
Theorem Save_then_Flush_persists_block `{DS : !DiffStore} h n acc st st1 st' :
  String.length h = 32%nat → n < 2 ^ 64 →
  SavePastChangesetAccumulator h n acc st = (Ok tt, st1) →
  Flush st1 = (Ok tt, st') →
  ∃ pre post,
    calls st' = calls st ++ pre ++ EvComputeCommitment (blockNum (sd st)) :: post ∧
    EvWriteDiffSet n h ∈ pre ∧ Forall is_diffset_write pre.
Proof.
  intros Hl Hn Hsave Hflush.
  unfold SavePastChangesetAccumulator, modify in Hsave. inversion Hsave; subst st1.
  clear Hsave.
  destruct (Flush_run _ _ _ Hflush) as [(_ & _ & _ & Hne & _)|(rest & Hc)]; [done|].
  simpl in Hc.
  exists (map diffset_event
            (map_to_list (<[diffset_key h n := acc]> (pastChangesAccumulator (sd st))))),
         rest.
  split; [exact Hc|]. split.
  - apply list_elem_of_fmap. exists (diffset_key h n, acc). split.
    + unfold diffset_event. cbn [fst snd].
      destruct (diffset_key_decode h n Hl Hn) as (E1 & E2 & _).
      by rewrite E1, E2.
    + apply elem_of_map_to_list, lookup_insert_eq.
  - apply Forall_fmap, Forall_true. intros kc. by eexists _, _.
Qed.

(** X13. [GetDiffset] after a save: the saved block is found in memory with
    the diffs of its changeset, and a lookup of any other block is
    answered as before the save. *)
Theorem GetDiffset_after_save `{DS : !DiffStore} h n acc h' n' st st1 :
  String.length h = 32%nat → String.length h' = 32%nat →
  n < 2 ^ 64 → n' < 2 ^ 64 →
  SavePastChangesetAccumulator h n acc st = (Ok tt, st1) →
  GetDiffset (sd st1) h n = inr (diffs_of acc, true) ∧
  (h' ≠ h ∨ n' ≠ n → GetDiffset (sd st1) h' n' = GetDiffset (sd st) h' n').
Proof.
  intros Hl Hl' Hn Hn' Hsave.
  unfold SavePastChangesetAccumulator, modify in Hsave. inversion Hsave; subst st1.
  unfold GetDiffset. simpl. split.
  - by rewrite lookup_insert_eq.
  - intros Hne. rewrite lookup_insert_ne; [done|].
    intros Heq. apply diffset_key_inj in Heq as [-> ->]; try done.
    by destruct Hne.
Qed.

(** ** Unwind *)

(** X10. After a successful [Unwind] a key is not cached any more, provided
    [ComputeCommitment] does not cache it: the next [get] misses and
    [GetLatest] has to ask the store. *)
Theorem Unwind_empties_cache blockTo txTo changeset d k st st' :
  (∀ s b n lp,
     cache_of d s !! content k = None →
     cache_of d (snd (sd_ComputeCommitment s b n lp)) !! content k = None) →
  Unwind blockTo txTo changeset st = (Ok tt, st') →
  cache_of d (sd st') !! content k = None ∧
  (content k ≠ EmptyString → get d k st' = (Ok (None, 0, false), st')).
Proof.
  intros HC H. unfold Unwind in H.
  apply bind_Ok in H as (ss & s0 & _ & H).
  apply bind_Ok in H as (? & s0' & _ & H).
  apply bind_Ok in H as ([] & s1 & _ & H).
  apply bind_Ok in H as ([] & s2 & _ & H).
  apply bind_Ok in H as ([] & s3 & Hclear & H).
  apply bind_Ok in H as ([] & s4 & Htx & H).
  apply bind_Ok in H as ([] & s5 & Hbn & H).
  pose (P := fun s : SharedDomains => cache_of d s !! content k = None).
  assert (HP : maps_only P).
  { intros s s' Hd Hs. unfold P. by rewrite (cache_of_ext s s' d Hd Hs). }
  assert (H3 : P (sd s3)).
  { unfold P. pose proof (ClearRam_empties true s2 d) as E.
    rewrite Hclear in E. simpl in E. by rewrite E, lookup_empty. }
  assert (H5 : P (sd s5)).
  { unfold SetTxNum, modify in Htx. inversion Htx; subst s4.
    unfold SetBlockNum, modify in Hbn. inversion Hbn; subst s5.
    unfold P, cache_of in *. simpl. exact H3. }
  assert (Hfin : P (sd st')).
  { refine (preserves_Flush P HP _ s5 _ st' H5 H). intros s b n lp. apply HC. }
  split; [exact Hfin|]. intros Hk.
  unfold get, bind, lift, gets, ret. rewrite (toStringZeroCopy_nonempty _ Hk). simpl.
  unfold P in Hfin. by rewrite Hfin.
Qed.

(** ** ReadsValid on keys that are not cached *)

Lemma reads_loop_uncached (m : gmap string dataWithPrevStep) differs vals keys i :
  (∀ key, key ∈ keys → m !! key = None) →
  reads_loop m differs vals i keys = Ok true.
Proof.
  revert i. induction keys as [|key keys IH]; intros i Hk; simpl; [done|].
  rewrite (Hk key) by (by left). apply IH. intros key' Hin. apply Hk. by right.
Qed.

(** X11. When no key of the read-set is cached, [ReadsValid] returns true
    whatever the recorded values are, even when values are missing: a value
    is only looked at for a cached key.  The table names still have to
    select a case. *)
Theorem ReadsValid_uncached s readLists :
  (∀ tl, tl ∈ readLists →
     ∃ kind, table_kind (fst tl) = Some kind ∧
             ∀ key, key ∈ Keys (snd tl) → table_cache s kind !! key = None) →
  ReadsValid s readLists = Ok true.
Proof.
  induction readLists as [|tl rest IH]; intros H; simpl; [done|].
  assert (Ht : reads_table s (fst tl) (snd tl) = Ok true).
  { destruct (H tl ltac:(by left)) as (kind & Hkind & Hkeys).
    unfold reads_table. unfold table_kind in Hkind.
    destruct (String.eqb (fst tl) (Domain_String AccountsDomain)).
    { inversion Hkind; subst. by apply reads_loop_uncached. }
    destruct (String.eqb (fst tl) (Domain_String CodeDomain)).
    { inversion Hkind; subst. by apply reads_loop_uncached. }
    destruct (String.eqb (fst tl) (Domain_String StorageDomain)).
    { inversion Hkind; subst. by apply reads_loop_uncached. }
    destruct (String.eqb (fst tl) CodeSizeTableFake); [|done].
    inversion Hkind; subst. by apply reads_loop_uncached. }
  rewrite Ht. apply IH. intros tl' Hin. apply H. by right.
Qed.

End OverlayMoreFacts.

(** * Properties of the write list *)

Section KvListFacts.

(** The index a swap of [i] and [j] reads position [k] from. *)
Definition swap_idx (i j k : nat) : nat :=
  if decide (k = j) then i else if decide (k = i) then j else k.

Lemma swap_idx_invol i j k : swap_idx i j (swap_idx i j k) = k.
Proof. unfold swap_idx. repeat case_decide; congruence. Qed.

Lemma swap_lookup {A} (l : list A) i j x y k :
  l !! i = Some x → l !! j = Some y →
  <[j := x]> (<[i := y]> l) !! k = l !! swap_idx i j k.
Proof.
  intros Hi Hj. unfold swap_idx.
  pose proof (lookup_lt_Some _ _ _ Hi). pose proof (lookup_lt_Some _ _ _ Hj).
  destruct (decide (k = j)) as [->|Hkj].
  - rewrite list_lookup_insert_eq by (by rewrite length_insert). done.
  - rewrite list_lookup_insert_ne by done.
    destruct (decide (k = i)) as [->|Hki].
    + by rewrite list_lookup_insert_eq.
    + by rewrite list_lookup_insert_ne.
Qed.

Lemma swap_back {A} (l : list A) i j x y :
  l !! i = Some x → l !! j = Some y →
  let l' := <[j := x]> (<[i := y]> l) in
  ∃ x' y', l' !! i = Some x' ∧ l' !! j = Some y' ∧
           <[j := x']> (<[i := y']> l') = l.
Proof.
  intros Hi Hj l'.
  assert (Hi' : l' !! i = l !! swap_idx i j i) by (by apply swap_lookup).
  assert (Hj' : l' !! j = l !! swap_idx i j j) by (by apply swap_lookup).
  assert (Ei : ∃ x', l' !! i = Some x').
  { rewrite Hi'. unfold swap_idx. repeat case_decide; subst; eauto. }
  assert (Ej : ∃ y', l' !! j = Some y').
  { rewrite Hj'. unfold swap_idx. repeat case_decide; subst; eauto. }
  destruct Ei as [x' Ex], Ej as [y' Ey]. exists x', y'. repeat split; try done.
  apply list_eq. intros k.
  rewrite (swap_lookup l' i j x' y' k Ex Ey).
  unfold l'. rewrite (swap_lookup l i j x y _ Hi Hj). by rewrite swap_idx_invol.
Qed.

Lemma KvList_of_fields pairs l0 :
  let l := foldl (fun l kv => KvList_Push l (fst kv) (snd kv)) l0 pairs in
  Keys l = Keys l0 ++ pairs.*1 ∧ Vals l = Vals l0 ++ pairs.*2.
Proof.
  revert l0. induction pairs as [|kv pairs IH]; intros l0; simpl.
  - by rewrite !app_nil_r.
  - destruct (IH (KvList_Push l0 (fst kv) (snd kv))) as [E1 E2].
    rewrite E1, E2. simpl. by rewrite <- !app_assoc.
Qed.

(** X14. A list built by [Push] calls holds exactly the pushed pairs, in
    order, keys and values side by side: its length is the number of
    pushes and position [i] holds the [i]-th pair. *)
Theorem KvList_Push_keeps_pairs pairs :
  KvList_pairs (KvList_of pairs) = pairs ∧
  KvList_Len (KvList_of pairs) = length pairs ∧
  length (Keys (KvList_of pairs)) = length (Vals (KvList_of pairs)).
Proof.
  unfold KvList_of, KvList_pairs, KvList_Len.
  destruct (KvList_of_fields pairs {| Keys := []; Vals := [] |}) as [E1 E2].
  simpl in E1, E2. rewrite E1, E2.
  split; [apply zip_fst_snd|]. by rewrite !length_fmap.
Qed.

(** X15. On a list whose keys and values have the same length, [Swap] of
    two positions in range exchanges the two pairs and leaves every other
    pair in place, key and value staying together; a second [Swap] of the
    same positions restores the list. *)
Theorem KvList_Swap_exchanges l i j :
  length (Keys l) = length (Vals l) →
  (i < KvList_Len l)%nat → (j < KvList_Len l)%nat →
  ∃ l', KvList_Swap i j l = (Ok tt, l') ∧
        length (Keys l') = length (Vals l') ∧
        KvList_Len l' = KvList_Len l ∧
        (∀ k, KvList_pairs l' !! k = KvList_pairs l !! swap_idx i j k) ∧
        KvList_Swap i j l' = (Ok tt, l).
Proof.
  unfold KvList_Len. intros Hal Hi Hj.
  destruct (lookup_lt_is_Some_2 (Keys l) i Hi) as [ki Hki].
  destruct (lookup_lt_is_Some_2 (Keys l) j Hj) as [kj Hkj].
  destruct (lookup_lt_is_Some_2 (Vals l) i ltac:(lia)) as [vi Hvi].
  destruct (lookup_lt_is_Some_2 (Vals l) j ltac:(lia)) as [vj Hvj].
  unfold KvList_Swap at 1. rewrite Hki, Hkj, Hvi, Hvj.
  eexists. split; [reflexivity|]. simpl.
  split; [by rewrite !length_insert|]. split; [by rewrite !length_insert|].
  split.
  - intros k. unfold KvList_pairs. simpl. rewrite !lookup_zip_with.
    by rewrite (swap_lookup _ i j ki kj k Hki Hkj),
               (swap_lookup _ i j vi vj k Hvi Hvj).
  - destruct (swap_back (Keys l) i j ki kj Hki Hkj) as (ki' & kj' & Eki & Ekj & Ek).
    destruct (swap_back (Vals l) i j vi vj Hvi Hvj) as (vi' & vj' & Evi & Evj & Ev).
    unfold KvList_Swap. simpl. rewrite Eki, Ekj, Evi, Evj, Ek, Ev.
    by destruct l.
Qed.

(** X16. [Swap] is not atomic on a list with fewer values than keys: with
    both positions among the keys but one beyond the values it panics
    after the keys have been exchanged, the values staying as they
    were. *)
Theorem KvList_Swap_short_values l i j ki kj :
  Keys l !! i = Some ki → Keys l !! j = Some kj →
  (length (Vals l) ≤ i ∨ length (Vals l) ≤ j)%nat →
  KvList_Swap i j l
  = (Panic PanicIndex,
     {| Keys := <[j := ki]> (<[i := kj]> (Keys l)); Vals := Vals l |}).
Proof.
  intros Hki Hkj Hshort. unfold KvList_Swap. rewrite Hki, Hkj.
  destruct Hshort as [H|H].
  - by rewrite (lookup_ge_None_2 _ _ H).
  - rewrite (lookup_ge_None_2 _ j H). by destruct (Vals l !! i).
Qed.

End KvListFacts.

(** * Further properties of the verkle tree writer *)

Module VerkleMoreFacts.

Import Verkle VerkleMore VerkleFacts.

Lemma int256ToVerkleFormat_cases (x : N) (buffer : buf) :
  int256ToVerkleFormat x buffer =
  if decide (length (big_Bytes x) ≤ length buffer)%nat
  then Ok (reverse (big_Bytes x) ++ drop (length (big_Bytes x)) buffer)
  else Panic PanicIndex.
Proof.
  unfold int256ToVerkleFormat. case_decide as Hlen.
  - pose proof (store_reversed_ok (length (big_Bytes x)) (big_Bytes x) buffer
                  ltac:(done) Hlen) as H.
    by rewrite Nat.sub_diag in H.
  - destruct (big_Bytes x) as [|b rest]; simpl in *; [lia|].
    replace (length rest - 0)%nat with (length rest) by lia.
    destruct (Nat.ltb_spec (length rest) (length buffer)); [lia|done].
Qed.

(** X17. [int256ToVerkleFormat] writes the big-endian bytes of the number
    back to front at the start of the buffer and keeps the bytes of the
    buffer beyond them; when the buffer is shorter than the byte string it
    panics, on its first write. *)
Theorem int256ToVerkleFormat_spec (x : N) (buffer : buf) :
  int256ToVerkleFormat x buffer =
  if decide (length (big_Bytes x) ≤ length buffer)%nat
  then Ok (reverse (big_Bytes x) ++ drop (length (big_Bytes x)) buffer)
  else Panic PanicIndex.
Proof. apply int256ToVerkleFormat_cases. Qed.

Section MoreWriterFacts.

Context `{VB : VerkleBackend}.

(** [m] stages a prefix of [ls] and all of [ls] when it returns normally;
    it never touches the transaction. *)
Definition stages (m : VM unit) (ls : list (buf * buf)) : Prop :=
  ∀ w r w', m w = (r, w') →
    db w' = db w ∧
    ∃ staged, collector w' = collector w ++ staged ∧ staged `prefix_of` ls ∧
              (r = Ok tt → staged = ls).

Lemma stages_ret : stages (ret tt) [].
Proof.
  intros w r w' H. inversion H; subst. split; [done|]. exists [].
  by rewrite app_nil_r.
Qed.

Lemma stages_stop (m : VM unit) ls :
  (∀ w, ∃ r, m w = (r, w) ∧ r ≠ Ok tt) → stages m ls.
Proof.
  intros Hm w r w' H. destruct (Hm w) as (r0 & E & Hne). rewrite E in H.
  inversion H; subst. split; [done|]. exists []. rewrite app_nil_r.
  split; [done|]. split; [apply prefix_nil|done].
Qed.

Lemma stages_Collect k v : stages (Collect k v) [(k, v)].
Proof.
  intros w r w'. unfold Collect, bind, vlog, vgets, fail. simpl.
  destruct (collect_error _ _ _); intros H; inversion H; subst; simpl;
    (split; [done|]).
  - exists []. rewrite app_nil_r. split; [done|]. split; [apply prefix_nil|done].
  - by exists [(k, v)].
Qed.

Lemma stages_bind (m k : VM unit) l1 l2 :
  stages m l1 → stages k l2 → stages (bind m (fun _ => k)) (l1 ++ l2).
Proof.
  intros Hm Hk w r w' H.
  apply bind_inv in H as [([] & w1 & H1 & H2)|[(e & H1 & ->)|(p & H1 & ->)]].
  - destruct (Hm _ _ _ H1) as (D1 & s1 & C1 & _ & F1).
    destruct (Hk _ _ _ H2) as (D2 & s2 & C2 & P2 & F2).
    rewrite (F1 eq_refl) in C1. split; [congruence|].
    exists (l1 ++ s2). rewrite C2, C1, app_assoc. split; [done|].
    split; [by apply prefix_app|]. intros Hr. by rewrite (F2 Hr).
  - destruct (Hm _ _ _ H1) as (D1 & s1 & C1 & P1 & _). split; [done|].
    exists s1. split; [done|]. split; [by apply prefix_app_r|done].
  - destruct (Hm _ _ _ H1) as (D1 & s1 & C1 & P1 & _). split; [done|].
    exists s1. split; [done|]. split; [by apply prefix_app_r|done].
Qed.

Lemma stages_lift {A} (r : Res A) (k : A → VM unit) ls :
  (∀ a, r = Ok a → stages (k a) ls) → stages (bind (lift r) k) ls.
Proof.
  intros Hk. destruct r as [a|e|p].
  - intros w r w' H. unfold bind, lift in H. by apply (Hk a eq_refl).
  - apply stages_stop. intros w. by eexists.
  - apply stages_stop. intros w. by eexists.
Qed.

(** X18. Whatever its result, [UpdateAccount] stages a prefix of the leaves
    of a successful run, in order, and all of them when it succeeds: a
    failing [Collect] leaves the leaves staged before it in the collector.
    It never touches the transaction. *)
Theorem UpdateAccount_stages_prefix versionKey codeSize isContract acc w r w' :
  UpdateAccount versionKey codeSize isContract acc w = (r, w') →
  db w' = db w ∧
  ∃ staged,
    collector w' = collector w ++ staged ∧
    staged `prefix_of` account_leaves versionKey codeSize isContract acc ∧
    (r = Ok tt → staged = account_leaves versionKey codeSize isContract acc).
Proof.
  revert w r w'. change (stages (UpdateAccount versionKey codeSize isContract acc)
                           (account_leaves versionKey codeSize isContract acc)).
  unfold UpdateAccount.
  apply stages_lift. intros k1 E1. apply sub_key_Ok in E1 as ->.
  apply stages_lift. intros k2 E2. apply sub_key_Ok in E2 as ->.
  apply stages_lift. intros k3 E3. apply sub_key_Ok in E3 as ->.
  apply stages_lift. intros k4 E4. apply sub_key_Ok in E4 as ->.
  apply stages_lift. intros balance Eb.
  rewrite int256ToVerkleFormat_cases in Eb. case_decide as Hlen; [|done].
  inversion Eb; subst balance. clear Eb.
  assert (Hbal : reverse (big_Bytes (Balance acc))
                   ++ drop (length (big_Bytes (Balance acc))) (zeros 32)
                 = balance_leaf (Balance acc)).
  { unfold balance_leaf, zeros. by rewrite drop_replicate. }
  rewrite Hbal.
  apply stages_lift. intros nonce En. rewrite PutUint64_zeros in En.
  inversion En; subst nonce.
  unfold account_leaves.
  apply (stages_bind _ _ [_] (_ :: _ :: _)); [apply stages_Collect|].
  apply (stages_bind _ _ [_] (_ :: _)); [apply stages_Collect|].
  apply (stages_bind _ _ [_] _); [apply stages_Collect|].
  destruct isContract; [|apply stages_ret].
  apply stages_lift. intros cs Ec. rewrite PutUint64_zeros in Ec.
  inversion Ec; subst cs.
  apply (stages_bind _ _ [_] [_]); apply stages_Collect.
Qed.

(** X19. A successful [DeleteAccount] stages a one-byte zero value under
    exactly the keys a successful [UpdateAccount] of the same version key
    and contract flag stages its leaves under, in the same order. *)
Theorem DeleteAccount_stages_same_keys versionKey isContract w w' :
  DeleteAccount versionKey isContract w = (Ok tt, w') →
  collector w' = collector w ++ deleted_leaves versionKey isContract ∧
  Forall (fun kv => snd kv = [0]) (deleted_leaves versionKey isContract) ∧
  (∀ codeSize acc,
     (deleted_leaves versionKey isContract).*1
     = (account_leaves versionKey codeSize isContract acc).*1).
Proof.
  intros H. split; [|split].
  - assert (Hs : stages (DeleteAccount versionKey isContract)
                        (deleted_leaves versionKey isContract)).
    { unfold DeleteAccount.
      apply stages_lift. intros k1 E1. apply sub_key_Ok in E1 as ->.
      apply stages_lift. intros k2 E2. apply sub_key_Ok in E2 as ->.
      apply stages_lift. intros k3 E3. apply sub_key_Ok in E3 as ->.
      apply stages_lift. intros k4 E4. apply sub_key_Ok in E4 as ->.
      unfold deleted_leaves.
      apply (stages_bind _ _ [_] (_ :: _ :: _)); [apply stages_Collect|].
      apply (stages_bind _ _ [_] (_ :: _)); [apply stages_Collect|].
      apply (stages_bind _ _ [_] _); [apply stages_Collect|].
      destruct isContract; [|apply stages_ret].
      apply (stages_bind _ _ [_] [_]); apply stages_Collect. }
    destruct (Hs _ _ _ H) as (_ & staged & Hc & _ & Hall).
    by rewrite Hc, (Hall eq_refl).
  - unfold deleted_leaves. destruct isContract; repeat constructor.
  - intros codeSize acc. unfold deleted_leaves, account_leaves.
    by destruct isContract.
Qed.

Lemma Collect_result k v w r w' :
  Collect k v w = (r, w') →
  (r = Ok tt ∧ collector w' = collector w ++ [(k, v)]) ∨
  ((∃ e, r = Err e) ∧ collector w' = collector w).
Proof.
  unfold Collect, bind, vlog, vgets, fail. simpl.
  destruct (collect_error _ _ _); intros H; inversion H; subst; simpl.
  - right. split; [by eexists|done].
  - by left.
Qed.

Lemma write_chunks_run codeKeys chunks i w r w' :
  write_chunks i codeKeys chunks w = (r, w') →
  (r = Ok tt →
   (length codeKeys ≤ length (drop i chunks))%nat ∧
   collector w' = collector w ++ zip codeKeys (drop i chunks)) ∧
  (r = Panic PanicIndex →
   (length (drop i chunks) < length codeKeys)%nat ∧
   collector w' = collector w ++ zip codeKeys (drop i chunks)).
Proof.
  revert i w. induction codeKeys as [|codeKey rest IH]; intros i w H; simpl in H.
  - inversion H; subst. split; [|done]. intros _. simpl. split; [lia|].
    by rewrite app_nil_r.
  - destruct (chunks !! i) as [chunk|] eqn:Hc.
    + rewrite (drop_S _ _ _ Hc). simpl.
      apply bind_inv in H as [([] & w1 & H1 & H2)|[(e & H1 & ->)|(p & H1 & ->)]].
      * apply Collect_result in H1 as [[_ C1]|[[e He] _]]; [|done].
        destruct (IH _ _ H2) as [Hok Hpanic].
        split; intros Hr.
        -- destruct (Hok Hr) as [L C]. split; [lia|].
           by rewrite C, C1, <- app_assoc.
        -- destruct (Hpanic Hr) as [L C]. split; [lia|].
           by rewrite C, C1, <- app_assoc.
      * done.
      * apply Collect_result in H1 as [[? _]|[[e He] _]]; done.
    + unfold panic in H. inversion H; subst.
      rewrite (drop_ge chunks i) by (by apply lookup_ge_None_1).
      split; [done|]. intros _. simpl. split; [lia|]. by rewrite app_nil_r.
Qed.

(** X20. [WriteContractCodeChunks] stages chunk [i] under code key [i].
    It succeeds only when there are at least as many chunks as keys, extra
    chunks being ignored; with fewer chunks than keys and no collector error
    it panics, after it has staged a pair per chunk. *)
Theorem WriteContractCodeChunks_pairs codeKeys chunks w r w' :
  WriteContractCodeChunks codeKeys chunks w = (r, w') →
  (r = Ok tt →
   (length codeKeys ≤ length chunks)%nat ∧
   collector w' = collector w ++ zip codeKeys chunks) ∧
  (r = Panic PanicIndex →
   (length chunks < length codeKeys)%nat ∧
   collector w' = collector w ++ zip codeKeys chunks).
Proof.
  intros H. apply write_chunks_run in H. by rewrite drop_0 in H.
Qed.

(** ** The incremental load *)

Lemma logged_inserts_app evs1 evs2 :
  logged_inserts (evs1 ++ evs2) = logged_inserts evs1 ++ logged_inserts evs2.
Proof.
  induction evs1 as [|[] evs1 IH]; simpl; try done. by rewrite IH.
Qed.

Lemma logged_writes_app evs1 evs2 :
  logged_writes (evs1 ++ evs2) = (logged_writes evs1 + logged_writes evs2)%nat.
Proof.
  induction evs1 as [|[] evs1 IH]; simpl; try done. by rewrite IH.
Qed.

Lemma logged_inserts_none evs :
  Forall (fun ev => ∀ k v, ev ≠ EvInsert k v) evs → logged_inserts evs = [].
Proof.
  induction 1 as [|ev evs Hev _ IH]; simpl; [done|].
  destruct ev; try done. by destruct (Hev k v).
Qed.

Lemma logged_writes_none evs :
  Forall (fun ev => ev ≠ EvWriteVerkleNode) evs → logged_writes evs = 0%nat.
Proof.
  induction 1 as [|ev evs Hev _ IH]; simpl; [done|]. by destruct ev.
Qed.

Lemma incremental_load_run entries rootNode ins w node w' :
  incremental_load entries rootNode ins w = (Ok node, w') →
  ∃ evs, vcalls w' = vcalls w ++ evs ∧
         logged_inserts evs = insertions entries ∧
         (ins + N.of_nat (length (insertions entries)) ≤ insertionBeforeFlushing →
          logged_writes evs = 0%nat).
Proof.
  revert rootNode ins w.
  induction entries as [|[key value] rest IH]; intros rootNode ins w H; simpl in H.
  - inversion H; subst. exists []. by rewrite app_nil_r.
  - apply bind_Ok in H as (r1 & w1 & H1 & H).
    apply bind_Ok in H as (r2 & w2 & H2 & H).
    apply bind_Ok in H as ([] & w3 & H3 & H).
    destruct (IH _ _ _ H) as (evs4 & E4 & I4 & W4). clear IH H.
    assert (E3 : ∃ evs3, vcalls w3 = vcalls w2 ++ evs3 ∧
                   Forall (fun ev => ev = EvLoadNext VerkleTrie key None None) evs3).
    { by apply (emits_load_next (fun ev => ev = EvLoadNext VerkleTrie key None None))
         in H3. }
    destruct E3 as (evs3 & E3 & Q3).
    assert (I3 : logged_inserts evs3 = []).
    { apply logged_inserts_none. eapply Forall_impl; [|exact Q3].
      by intros ev -> k v. }
    assert (W3 : logged_writes evs3 = 0%nat).
    { apply logged_writes_none. eapply Forall_impl; [|exact Q3]. by intros ev ->. }
    assert (E2 : ∃ evs2, vcalls w2 = vcalls w1 ++ evs2 ∧
                   logged_inserts evs2 = [] ∧
                   (snd r1 ≤ insertionBeforeFlushing →
                    evs2 = [] ∧ snd r2 = snd r1) ∧
                   snd r2 ≤ snd r1).
    { destruct (N.ltb_spec insertionBeforeFlushing (snd r1)) as [Hgt|Hle].
      - apply bind_Ok in H2 as (nd & wf & Hf & Hr). inversion Hr; subst.
        apply (emits_flushVerkleNode (fun ev => ev = EvWriteVerkleNode)) in Hf
          as (evs2 & E2 & Q2); [|done].
        exists evs2. split; [done|]. split.
        + apply logged_inserts_none. eapply Forall_impl; [|exact Q2].
          by intros ev -> k v.
        + simpl. split; [lia|]. lia.
      - inversion H2; subst. exists []. rewrite app_nil_r. by repeat split. }
    destruct E2 as (evs2 & E2 & I2 & N2 & L2).
    unfold insertions in *. simpl List.filter.
    change (is_insertion (key, value)) with (Nat.ltb 0 (length value)).
    destruct (Nat.ltb 0 (length value)) eqn:Hins.
    + apply bind_Ok in H1 as ([] & wa & Ha & H1).
      apply bind_Ok in H1 as (d & wb & Hb & H1).
      apply bind_Ok in H1 as ([] & wc & Hc & H1).
      unfold vlog in Ha. inversion Ha; subst wa. clear Ha.
      unfold vgets in Hb. inversion Hb; subst wb d. clear Hb.
      assert (wc = {| db := db w; collector := collector w;
                      vcalls := vcalls w ++ [EvInsert key value] |}).
      { unfold check in Hc. destruct (snd (node_Insert _ _ _ _)); by inversion Hc. }
      subst wc. inversion H1; subst r1 w1. clear H1 Hc. simpl in *.
      exists ([EvInsert key value] ++ evs2 ++ evs3 ++ evs4).
      split; [by rewrite E4, E3, E2, <- !app_assoc|]. split.
      * rewrite !logged_inserts_app, I2, I3, I4. done.
      * intros Hb. simpl length in Hb.
        destruct (N2 ltac:(lia)) as [-> Hr2].
        rewrite !logged_writes_app, W3. simpl. apply W4. lia.
    + inversion H1; subst r1 w1. clear H1. simpl in *.
      exists (evs2 ++ evs3 ++ evs4).
      split; [by rewrite E4, E3, E2, <- !app_assoc|]. split.
      * rewrite !logged_inserts_app, I2, I3, I4. done.
      * intros Hb. destruct (N2 ltac:(lia)) as [-> Hr2].
        rewrite !logged_writes_app, W3. simpl. apply W4. lia.
Qed.

(** X21. A successful incremental [CommitVerkleTree] inserts into the tree
    exactly the staged entries with a non-empty value, in load order;
    entries with an empty value are passed through.  With at most
    2,000,000 such entries no node is written while the entries are
    loaded: all node writes belong to the final flush. *)
Theorem CommitVerkleTree_incremental_inserts root w h w' :
  root ≠ zero_hash →
  CommitVerkleTree root w = (Ok h, w') →
  ∃ loadEvs flushEvs,
    vcalls w' = vcalls w ++ EvReadVerkleNode root :: loadEvs ++ flushEvs ∧
    logged_inserts loadEvs = insertions (etl_sorted (collector w)) ∧
    logged_inserts flushEvs = [] ∧
    (N.of_nat (length (insertions (etl_sorted (collector w)))) ≤ insertionBeforeFlushing →
     logged_writes loadEvs = 0%nat).
Proof.
  intros Hnz H. unfold CommitVerkleTree in H. rewrite decide_True in H by done.
  apply bind_Ok in H as ([] & w1 & H1 & H).
  unfold vlog in H1. inversion H1; subst w1. clear H1.
  apply bind_Ok in H as (d & w2 & H2 & H).
  unfold vgets in H2. inversion H2; subst w2 d. clear H2. simpl in H.
  destruct (db_ReadVerkleNode (db w) root) as [|rootNode]; [done|].
  apply bind_Ok in H as (staged & w3 & H3 & H).
  unfold vgets in H3. inversion H3; subst w3 staged. clear H3. simpl in H.
  apply bind_Ok in H as (node & w4 & Hload & H).
  apply bind_Ok in H as (nd & w5 & Hflush & H). inversion H; subst. clear H.
  apply incremental_load_run in Hload as (evs & E & I & W). simpl in E.
  apply (emits_flushVerkleNode (fun ev => ev = EvWriteVerkleNode)) in Hflush
    as (fl & Ef & Qf); [|done].
  exists evs, fl. split; [by rewrite Ef, E, <- !app_assoc|].
  split; [done|]. split; [|intros Hb; apply W; simpl; lia].
  apply logged_inserts_none. eapply Forall_impl; [|exact Qf]. by intros ev -> k v.
Qed.

End MoreWriterFacts.

End VerkleMoreFacts.

(** * Properties of the log decoder *)

Module LogFacts.

Import Log.

(** X22. Once the input has been decoded, [UnmarshalJSON] succeeds exactly
    when address, topics, data and transaction hash are present.  On
    success the required fields take the decoded values and each optional
    field takes its decoded value when present and keeps the receiver's
    value otherwise.  A missing topics field is reported after the address
    has already been assigned. *)
Theorem UnmarshalJSON_required_fields decode input dec l r l' :
  decode input = inr dec →
  UnmarshalJSON decode input l = (r, l') →
  (r = Ok tt ↔
   is_Some (dAddress dec) ∧ is_Some (dTopics dec) ∧
   is_Some (dData dec) ∧ is_Some (dTxHash dec)) ∧
  (r = Ok tt →
   dAddress dec = Some (Address l') ∧ dTopics dec = Topics l' ∧
   dData dec = Some (Data l') ∧ dTxHash dec = Some (TxHash l') ∧
   BlockNumber l' = default (BlockNumber l) (dBlockNumber dec) ∧
   TxIndex l' = default (TxIndex l) (dTxIndex dec) ∧
   BlockHash l' = default (BlockHash l) (dBlockHash dec) ∧
   Index l' = default (Index l) (dIndex dec) ∧
   Removed l' = default (Removed l) (dRemoved dec) ∧
   Timestamp l' = default (Timestamp l) (dTimestamp dec)) ∧
  (∀ a, dAddress dec = Some a → dTopics dec = None →
        r = Err (ErrMissing FTopics) ∧ Address l' = a ∧ Topics l' = Topics l).
Proof.
  intros Hdec. unfold UnmarshalJSON. rewrite Hdec. unfold assign_decoded.
  destruct (dAddress dec) as [a|], (dTopics dec) as [t|], (dData dec) as [d|],
    (dTxHash dec) as [h|]; cbn; intros H; inversion H; subst; clear H;
    (split; [split; [try done; by repeat split; eexists
                    |intros (Ha & Ht & Hd & Hh);
                     try (by destruct Ha as [? ?]); try (by destruct Ht as [? ?]);
                     try (by destruct Hd as [? ?]); try (by destruct Hh as [? ?]); done]
            |split; [try done; intros _; by repeat split|]]);
    intros a' Ea Et; try done; inversion Ea; subst; by repeat split.
Qed.

(** X23. Decoding a struct that holds every field of a log with non-nil
    topics gives back that log, whatever the receiver held before; with
    nil topics it fails with the missing-topics error. *)
Theorem UnmarshalJSON_all_fields decode input l0 l :
  decode input = inr (encoded l0) →
  (Topics l0 ≠ None → UnmarshalJSON decode input l = (Ok tt, l0)) ∧
  (Topics l0 = None →
   fst (UnmarshalJSON decode input l) = Err (ErrMissing FTopics)).
Proof.
  intros Hdec. unfold UnmarshalJSON. rewrite Hdec. unfold assign_decoded, encoded.
  destruct l0 as [a [t|] d bn h ti bh ix rm ts]; cbn; split; try done.
Qed.

End LogFacts.

(** * Concrete runs

    The theorems applied to the in-memory backends, and the inputs on which
    the overlay departs from a literal reading of its description. *)

Import Sim.

(** A run that returns normally ends in the state it computes. *)
Lemma run_Ok {S A} (r : Res A * S) (a : A) : fst r = Ok a → r = (Ok a, snd r).
Proof. destruct r as [x s]. simpl. by intros ->. Qed.

(** A put of a new account value is read back from the overlay. *)
Lemma DomainPut_then_GetLatest_run :
  let st := fresh empty_tx in
  let st' := snd (DomainPut AccountsDomain (Some "a") None (Some "v") None 0 st) in
  GetLatest AccountsDomain (Some "a") st' = (Ok (Some "v", 0), st').
Proof.
  cbv zeta.
  refine (proj1 (proj2 (DomainPut_then_GetLatest AccountsDomain (Some "a")
                          (Some "v") None 0 (fresh empty_tx) _ _ _
                          (run_Ok _ tt _) _) _)).
  - reflexivity.
  - discriminate.
  - vm_compute. reflexivity.
  - intros [H|H]; discriminate H.
  - discriminate.
Defined.

(** A Code put whose value equals the supplied previous value succeeds
    without caching anything: the following [GetLatest] misses the overlay,
    asks the store and returns nil. *)
Lemma DomainPut_equal_code_not_cached :
  let st := fresh empty_tx in
  let r := DomainPut CodeDomain (Some "k") None (Some "v") (Some "v") 0 st in
  fst r = Ok tt ∧
  GetLatest CodeDomain (Some "k") (snd r)
  = (Ok (None, 0),
     {| sd := sd (snd r); calls := [EvStoreGetLatest CodeDomain (Some "k")] |}).
Proof. split; reflexivity. Qed.

(** An unwind on a store with step size 8 follows the protocol. *)
Lemma Unwind_is_protocol_run :
  Unwind 3 17 no_diffs (fresh tx1) = Unwind_protocol 3 17 no_diffs (fresh tx1).
Proof.
  apply (Unwind_is_protocol 3 17 no_diffs (fresh tx1)). discriminate.
Defined.

(** The read-set of the spec's example: one Accounts key with the balance
    read. *)
Definition reads_of_A : list (string * KvList) :=
  [("accounts", {| Keys := ["addrA"]; Vals := [Some "100"] |})].

Lemma reads_of_A_well_formed : well_formed_reads reads_of_A.
Proof.
  repeat constructor.
  - by exists KAccounts.
  - discriminate.
Defined.

Lemma ReadsValid_false_iff_stale_run :
  ∃ b, ReadsValid (sd (fresh empty_tx)) reads_of_A = Ok b ∧
       (b = false ↔
        ∃ tl i key expected,
          tl ∈ reads_of_A ∧
          Keys (snd tl) !! i = Some key ∧ Vals (snd tl) !! i = Some expected ∧
          stale (sd (fresh empty_tx)) (fst tl) key expected).
Proof.
  apply (ReadsValid_false_iff_stale (sd (fresh empty_tx)) reads_of_A).
  exact reads_of_A_well_formed.
Defined.

(** Before the put the read-set is valid, after a put of another balance it
    is not. *)
Example ReadsValid_before_put :
  ReadsValid (sd (fresh empty_tx)) reads_of_A = Ok true.
Proof. reflexivity. Qed.

Example ReadsValid_after_put :
  let st' := snd (DomainPut AccountsDomain (Some "addrA") None (Some "200") (Some "100") 0
                    (fresh empty_tx)) in
  ReadsValid (sd st') reads_of_A = Ok false.
Proof. vm_compute. reflexivity. Qed.

(** A read-set that lists the Commitment domain makes [ReadsValid] panic
    although the cached value differs from the recorded one; a CodeSize
    read is valid although the cached code differs from the recorded
    bytes, because only its length is compared. *)
Lemma ReadsValid_panics_or_compares_sizes :
  let st1 := snd (DomainPut CommitmentDomain (Some "k") None (Some "y") (Some "x") 0
                    (fresh empty_tx)) in
  let st2 := snd (DomainPut CodeDomain (Some "a") None (Some "xyz") (Some "old") 0
                    (fresh empty_tx)) in
  (cache_of CommitmentDomain (sd st1) !! "k" = Some {| data := Some "y"; prevStep := 0 |} ∧
   ReadsValid (sd st1) [("commitment", {| Keys := ["k"]; Vals := [Some "x"] |})]
   = Panic (PanicStr "commitment")) ∧
  (cache_of CodeDomain (sd st2) !! "a" = Some {| data := Some "xyz"; prevStep := 0 |} ∧
   ReadsValid (sd st2)
     [("CodeSize", {| Keys := ["a"]; Vals := [Some (BigEndian_PutUint64 3)] |})]
   = Ok true).
Proof. vm_compute. repeat split; reflexivity. Qed.

(** The overlay state in which account "A" has two slots in the store and
    a third, newer one in the overlay. *)
Definition st_A : St :=
  snd (bind (SetTxNum 17) (fun _ =>
         DomainPut StorageDomain (Some "A3") None (Some "v") None 0) (fresh tx1)).

Lemma DomainDel_account_cascades_run :
  let st' := snd (DomainDel AccountsDomain (Some "A") None 0 st_A) in
  storage_entries (Some "A") (sd st') = inr [] ∧
  (∀ e, cache_of CodeDomain (sd st') !! "A" = Some e → data e = None).
Proof.
  cbv zeta.
  assert (Hrun : fst (DomainDel AccountsDomain (Some "A") None 0 st_A) = Ok tt)
    by (vm_compute; reflexivity).
  destruct (DomainDel_account_cascades (Some "A") None 0 st_A _ (run_Ok _ tt Hrun))
    as (_ & H1 & _ & H2 & _).
  split; [exact H1|exact H2].
Defined.

Lemma DomainDelPrefix_leaves_nothing_run :
  let st' := snd (DomainDelPrefix StorageDomain (Some "A") st_A) in
  storage_entries (Some "A") (sd st') = inr [].
Proof.
  cbv zeta.
  refine (proj1 (DomainDelPrefix_leaves_nothing (Some "A") st_A _ (run_Ok _ tt _))).
  vm_compute. reflexivity.
Defined.

(** Before the prefix deletion the three slots are visited, in key order. *)
Example storage_entries_before :
  storage_entries (Some "A") (sd st_A)
  = inr [("A1", (Some "x", 1)); ("A2", (Some "y", 1)); ("A3", (Some "v", 2))].
Proof. vm_compute. reflexivity. Qed.

Lemma Flush_keeps_read_cache_run :
  let st' := snd (Flush st_A) in
  fst (get StorageDomain (Some "A3") st') = fst (get StorageDomain (Some "A3") st_A).
Proof.
  cbv zeta.
  refine (proj1 (Flush_keeps_read_cache StorageDomain (Some "A3") st_A _ _
                   (run_Ok _ tt _))).
  - intros s b n lp. reflexivity.
  - vm_compute. reflexivity.
Defined.

(** The cached slot is still served after the flush and gone after
    [ClearRam]. *)
Example get_after_Flush :
  fst (get StorageDomain (Some "A3") (snd (Flush st_A))) = Ok (Some "v", 2, true).
Proof. vm_compute. reflexivity. Qed.

(** A put of a non-nil value of length zero is not rejected: it succeeds,
    caches the empty value and reaches the commitment context and the write
    buffer. *)
Lemma DomainPut_empty_value_accepted :
  let st := fresh empty_tx in
  let r := DomainPut AccountsDomain (Some "a") None (Some "") (Some "x") 0 st in
  len (Some "") = 0%nat ∧
  fst r = Ok tt ∧
  cache_of AccountsDomain (sd (snd r)) !! "a" = Some {| data := Some ""; prevStep := 0 |} ∧
  calls (snd r) = [EvTouchKey AccountsDomain "a" (Some "");
                   EvPutWithPrev AccountsDomain (Some "a") None (Some "") 0 (Some "x") 0].
Proof. vm_compute. repeat split; reflexivity. Qed.

Import Verkle.

Lemma UpdateAccount_stages_leaves_run :
  collector (snd (UpdateAccount sim_key 300 true sim_account sim_writer))
  = collector sim_writer ++ account_leaves sim_key 300 true sim_account.
Proof.
  refine (proj1 (VerkleFacts.UpdateAccount_stages_leaves sim_key 300 true sim_account
                   sim_writer _ _ _ _ _)).
  - reflexivity.
  - reflexivity.
  - reflexivity.
  - vm_compute. reflexivity.
Defined.

(** The balance 258 = 0x0102 is staged as the bytes 02 01 followed by
    zeros. *)
Example balance_leaf_258 :
  balance_leaf 258 = [2; 1] ++ zeros 30.
Proof. reflexivity. Qed.

Lemma CommitVerkleTree_paths_run :
  let w := snd (UpdateAccount sim_key 300 true sim_account sim_writer) in
  ∃ rest,
    CommitVerkleTreeFromScratch w = CommitVerkleTree zero_hash w ∧
    vcalls (snd (CommitVerkleTree zero_hash w))
    = vcalls w ++ EvClearTable VerkleTrie :: rest.
Proof.
  intros w.
  destruct (VerkleFacts.CommitVerkleTree_paths zero_hash w
              (fst (CommitVerkleTree zero_hash w)) (snd (CommitVerkleTree zero_hash w)))
    as (rest & H).
  - by destruct (CommitVerkleTree zero_hash w).
  - rewrite decide_True in H by done. destruct H as [H1 H2].
    exists rest. split; [|exact H2].
    rewrite H1. by destruct (CommitVerkleTree zero_hash w).
Defined.

(** ** Further runs of the overlay *)

Import SimMore.

Lemma DomainPut_new_key_grows_estimate_run :
  let st := fresh empty_tx in
  let st' := snd (DomainPut AccountsDomain (Some "a") None (Some "v") None 0 st) in
  ∃ n, fst (SizeEstimate st) = Ok n ∧
       fst (SizeEstimate st') = Ok (n + 4 * N.of_nat (len (Some "a") + len (Some "v"))).
Proof.
  cbv zeta.
  refine (DomainPut_new_key_grows_estimate AccountsDomain (Some "a") (Some "v") None 0
            (fresh empty_tx) _ _ (run_Ok _ tt _) _ _ _ _).
  - discriminate.
  - vm_compute. reflexivity.
  - intros [H|H]; discriminate H.
  - reflexivity.
  - simpl. lia.
  - vm_compute. reflexivity.
Defined.

Lemma DomainPut_keeps_other_entries_run :
  let st := st_A in
  let st' := snd (DomainPut StorageDomain (Some "B7") None (Some "w") None 0 st) in
  cache_of StorageDomain (sd st') !! "A3" = cache_of StorageDomain (sd st) !! "A3".
Proof.
  cbv zeta.
  refine (DomainPut_keeps_other_entries StorageDomain (Some "B7") (Some "w") None 0
            st_A _ StorageDomain "A3" _ (run_Ok _ tt _) _).
  - discriminate.
  - vm_compute. reflexivity.
  - right. discriminate.
Defined.

Lemma DomainDel_then_GetLatest_nil_run :
  let st' := snd (DomainDel StorageDomain (Some "A3") None 0 st_A) in
  (∃ step, fst (GetLatest StorageDomain (Some "A3") st') = Ok (None, step)) ∧
  (StorageDomain ≠ CodeDomain →
   get StorageDomain (Some "A3") st'
   = (Ok (None, txNum (sd st') / tx_StepSize (roTtx (sd st')), true), st')).
Proof.
  cbv zeta.
  refine (DomainDel_then_GetLatest_nil StorageDomain (Some "A3") None 0 st_A _ _ _
            (run_Ok _ tt _)).
  - discriminate.
  - discriminate.
  - vm_compute. reflexivity.
Defined.

Lemma DomainDel_keeps_other_entries_run :
  let st' := snd (DomainDel StorageDomain (Some "A1") None 0 st_A) in
  cache_of StorageDomain (sd st') !! "A3" = cache_of StorageDomain (sd st_A) !! "A3".
Proof.
  cbv zeta.
  refine (DomainDel_keeps_other_entries StorageDomain (Some "A1") None 0 st_A _
            StorageDomain "A3" _ _ (run_Ok _ tt _) _).
  - discriminate.
  - discriminate.
  - vm_compute. reflexivity.
  - right. discriminate.
Defined.

(** The overlay of [st_A] with a cached slot of account "B". *)
Definition st_AB : St :=
  snd (DomainPut StorageDomain (Some "B1") None (Some "b") None 0 st_A).

Lemma DomainDel_account_keeps_foreign_storage_run :
  let st' := snd (DomainDel AccountsDomain (Some "A") None 0 st_AB) in
  (∀ key, has_prefix key (content (Some "A")) = false →
          storage (sd st') !! key = storage (sd st_AB) !! key) ∧
  (∀ d, d ≠ StorageDomain → d ≠ CodeDomain → d ≠ AccountsDomain →
        cache_of d (sd st') = cache_of d (sd st_AB)).
Proof.
  cbv zeta.
  refine (DomainDel_account_keeps_foreign_storage (Some "A") None 0 st_AB _
            (run_Ok _ tt _)).
  vm_compute. reflexivity.
Defined.

(** The slot of account "B" is still cached after account "A" is gone. *)
Example foreign_slot_after_delete :
  storage (sd (snd (DomainDel AccountsDomain (Some "A") None 0 st_AB))) !! "B1"
  = Some {| data := Some "b"; prevStep := 2 |}.
Proof. vm_compute. reflexivity. Qed.

Lemma put_then_delete_keeps_key_cost_run :
  let st := fresh empty_tx in
  let st1 := snd (DomainPut StorageDomain (Some "slot") None (Some "value") None 0 st) in
  let st2 := snd (DomainDel StorageDomain (Some "slot") (Some "value") 0 st1) in
  estSize (sd st2) = (estSize (sd st) + Z.of_nat (len (Some "slot")))%Z.
Proof.
  cbv zeta.
  refine (put_then_delete_keeps_key_cost (Some "slot") (Some "value") None 0
            (Some "value") 0 (fresh empty_tx) _ _ (run_Ok _ tt _) (run_Ok _ tt _)
            _ _ _).
  - vm_compute. reflexivity.
  - vm_compute. reflexivity.
  - reflexivity.
  - simpl. lia.
  - vm_compute. reflexivity.
Defined.

Lemma HasPrefix_after_DomainDelPrefix_run :
  let st' := snd (DomainDelPrefix StorageDomain (Some "A") st_A) in
  fst (HasPrefix StorageDomain (Some "A") st') = Ok (None, false).
Proof.
  cbv zeta.
  refine (HasPrefix_after_DomainDelPrefix (Some "A") st_A _ (run_Ok _ tt _)).
  vm_compute. reflexivity.
Defined.

Lemma HasPrefix_after_DomainPut_run :
  let st' := snd (DomainPut StorageDomain (Some "C9") None (Some "v") None 0
                    (fresh tx1)) in
  ∃ key, fst (HasPrefix StorageDomain (Some "C") st') = Ok (Some key, true) ∧
         has_prefix key (content (Some "C")) = true.
Proof.
  cbv zeta.
  refine (HasPrefix_after_DomainPut (Some "C9") (Some "v") None 0 (Some "C")
            (fresh tx1) _ (run_Ok _ tt _) _ _ _).
  - vm_compute. reflexivity.
  - discriminate.
  - reflexivity.
  - eexists. reflexivity.
Defined.

(** The overlay of [st_A] holding the changeset of block 5. *)
Definition st_saved : St :=
  snd (SavePastChangesetAccumulator a_hash 5 a_changeset st_A).

Lemma Flush_persists_changesets_first_run :
  let r := fst (Flush st_saved) in
  let st' := snd (Flush st_saved) in
  (∃ evs, calls st' = calls st_saved ++ evs ∧ Forall is_diffset_write evs ∧
          r ≠ Ok tt ∧
          pastChangesAccumulator (sd st') = pastChangesAccumulator (sd st_saved) ∧
          domains (sd st') = domains (sd st_saved) ∧
          storage (sd st') = storage (sd st_saved)) ∨
  (∃ rest,
     calls st' = calls st_saved ++
       map diffset_event (map_to_list (pastChangesAccumulator (sd st_saved))) ++
       EvComputeCommitment (blockNum (sd st_saved)) :: rest).
Proof.
  cbv zeta.
  exact (Flush_persists_changesets_first st_saved _ _ (surjective_pairing _)).
Defined.

Lemma Save_then_Flush_persists_block_run :
  let st1 := snd (SavePastChangesetAccumulator a_hash 5 a_changeset st_A) in
  let st' := snd (Flush st1) in
  ∃ pre post,
    calls st' = calls st_A ++ pre ++ EvComputeCommitment (blockNum (sd st_A)) :: post ∧
    EvWriteDiffSet 5 a_hash ∈ pre ∧ Forall is_diffset_write pre.
Proof.
  cbv zeta.
  refine (Save_then_Flush_persists_block a_hash 5 a_changeset st_A _ _ _ _
            (run_Ok _ tt _) (run_Ok _ tt _)).
  - reflexivity.
  - vm_compute. reflexivity.
  - reflexivity.
  - vm_compute. reflexivity.
Defined.

Lemma GetDiffset_after_save_run :
  let st1 := snd (SavePastChangesetAccumulator a_hash 5 a_changeset st_A) in
  GetDiffset (sd st1) a_hash 5 = inr (diffs_of a_changeset, true) ∧
  (a_hash ≠ a_hash ∨ 6 ≠ 5 →
   GetDiffset (sd st1) a_hash 6 = GetDiffset (sd st_A) a_hash 6).
Proof.
  cbv zeta.
  refine (GetDiffset_after_save a_hash 5 a_changeset a_hash 6 st_A _ _ _ _ _
            (run_Ok _ tt _)).
  - reflexivity.
  - reflexivity.
  - vm_compute. reflexivity.
  - vm_compute. reflexivity.
  - reflexivity.
Defined.

Lemma Unwind_empties_cache_run :
  let st' := snd (Unwind 3 17 no_diffs st_A) in
  cache_of StorageDomain (sd st') !! content (Some "A3") = None ∧
  (content (Some "A3") ≠ EmptyString →
   get StorageDomain (Some "A3") st' = (Ok (None, 0, false), st')).
Proof.
  cbv zeta.
  refine (Unwind_empties_cache 3 17 no_diffs StorageDomain (Some "A3") st_A _ _
            (run_Ok _ tt _)).
  - intros s b n lp H. exact H.
  - vm_compute. reflexivity.
Defined.

Lemma ReadsValid_uncached_run :
  ReadsValid (sd (fresh tx1))
    [("accounts", {| Keys := ["addrA"; "addrB"]; Vals := [Some "100"] |})]
  = Ok true.
Proof.
  apply (ReadsValid_uncached (sd (fresh tx1))).
  intros tl Htl. apply list_elem_of_singleton in Htl. subst tl.
  exists KAccounts. split; [reflexivity|]. intros key _. reflexivity.
Defined.

(** ** Runs of the write list *)

Lemma KvList_Swap_exchanges_run :
  let l := {| Keys := ["a"; "b"; "c"]; Vals := [Some "1"; Some "2"; Some "3"] |} in
  ∃ l', KvList_Swap 0 2 l = (Ok tt, l') ∧
        length (Keys l') = length (Vals l') ∧
        KvList_Len l' = KvList_Len l ∧
        (∀ k, KvList_pairs l' !! k = KvList_pairs l !! swap_idx 0 2 k) ∧
        KvList_Swap 0 2 l' = (Ok tt, l).
Proof.
  intros l. apply (KvList_Swap_exchanges l 0 2).
  - reflexivity.
  - vm_compute. lia.
  - vm_compute. lia.
Defined.

Lemma KvList_Swap_short_values_run :
  let l := {| Keys := ["a"; "b"]; Vals := [Some "1"] |} in
  KvList_Swap 0 1 l
  = (Panic PanicIndex,
     {| Keys := <[1%nat := "a"]> (<[0%nat := "b"]> (Keys l)); Vals := Vals l |}).
Proof.
  intros l. apply (KvList_Swap_short_values l 0 1 "a" "b").
  - reflexivity.
  - reflexivity.
  - right. simpl. lia.
Defined.

(** ** Further runs of the verkle tree writer *)

Import VerkleMore.

Lemma UpdateAccount_stages_prefix_run :
  let r := fst (UpdateAccount sim_key 300 true sim_account sim_writer) in
  let w' := snd (UpdateAccount sim_key 300 true sim_account sim_writer) in
  db w' = db sim_writer ∧
  ∃ staged,
    collector w' = collector sim_writer ++ staged ∧
    staged `prefix_of` account_leaves sim_key 300 true sim_account ∧
    (r = Ok tt → staged = account_leaves sim_key 300 true sim_account).
Proof.
  cbv zeta.
  exact (VerkleMoreFacts.UpdateAccount_stages_prefix sim_key 300 true sim_account
           sim_writer _ _ (surjective_pairing _)).
Defined.

Lemma DeleteAccount_stages_same_keys_run :
  let w' := snd (DeleteAccount sim_key true sim_writer) in
  collector w' = collector sim_writer ++ deleted_leaves sim_key true ∧
  Forall (fun kv => snd kv = [0]) (deleted_leaves sim_key true) ∧
  (∀ codeSize acc,
     (deleted_leaves sim_key true).*1 = (account_leaves sim_key codeSize true acc).*1).
Proof.
  cbv zeta.
  refine (VerkleMoreFacts.DeleteAccount_stages_same_keys sim_key true sim_writer _
            (run_Ok _ tt _)).
  vm_compute. reflexivity.
Defined.

Lemma WriteContractCodeChunks_pairs_run :
  let codeKeys := [[1]; [2]; [3]] in
  let chunks := [[10; 11]; [12]] in
  let r := fst (WriteContractCodeChunks codeKeys chunks sim_writer) in
  let w' := snd (WriteContractCodeChunks codeKeys chunks sim_writer) in
  (r = Ok tt →
   (length codeKeys ≤ length chunks)%nat ∧
   collector w' = collector sim_writer ++ zip codeKeys chunks) ∧
  (r = Panic PanicIndex →
   (length chunks < length codeKeys)%nat ∧
   collector w' = collector sim_writer ++ zip codeKeys chunks).
Proof.
  cbv zeta.
  exact (VerkleMoreFacts.WriteContractCodeChunks_pairs _ _ sim_writer _ _
           (surjective_pairing _)).
Defined.

(** Three keys and two chunks: the call panics with two pairs staged. *)
Example WriteContractCodeChunks_short :
  WriteContractCodeChunks [[1]; [2]; [3]] [[10; 11]; [12]] sim_writer
  = (Panic PanicIndex,
     {| db := db sim_writer; collector := [([1], [10; 11]); ([2], [12])];
        vcalls := [EvCollect [1] [10; 11]; EvCollect [2] [12]] |}).
Proof. vm_compute. reflexivity. Qed.

(** A root hash other than the zero hash. *)
Definition sim_root : buf := replicate 32 1.

Lemma CommitVerkleTree_incremental_inserts_run :
  let w := snd (bind (UpdateAccount sim_key 300 true sim_account)
                  (fun _ => Insert [9] []) sim_writer) in
  let w' := snd (CommitVerkleTree sim_root w) in
  ∃ loadEvs flushEvs,
    vcalls w' = vcalls w ++ EvReadVerkleNode sim_root :: loadEvs ++ flushEvs ∧
    logged_inserts loadEvs = insertions (etl_sorted (collector w)) ∧
    logged_inserts flushEvs = [] ∧
    (N.of_nat (length (insertions (etl_sorted (collector w)))) ≤ insertionBeforeFlushing →
     logged_writes loadEvs = 0%nat).
Proof.
  intros w w'.
  assert (Hrun : ∃ h, CommitVerkleTree sim_root w = (Ok h, w')).
  { eexists. vm_compute. reflexivity. }
  destruct Hrun as [h Hrun].
  apply (VerkleMoreFacts.CommitVerkleTree_incremental_inserts sim_root w h w').
  - discriminate.
  - exact Hrun.
Defined.

(** ** Runs of the log decoder *)

Import Log.

(** A log and a decoded struct without the optional fields. *)
Definition a_log : ErigonLog :=
  {| Address := "addr"; Topics := Some ["t1"]; Data := Some "data"; BlockNumber := 7;
     TxHash := "hash"; TxIndex := 1; BlockHash := "bh"; Index := 2; Removed := false;
     Timestamp := 9 |}.

Definition required_only : Decoded :=
  {| dAddress := Some "other"; dTopics := Some []; dData := Some None;
     dBlockNumber := None; dTxHash := Some "h2"; dTxIndex := None; dBlockHash := None;
     dIndex := None; dRemoved := None; dTimestamp := None |}.

Lemma UnmarshalJSON_required_fields_run :
  let decode := fun _ : string => inr required_only in
  let r := fst (UnmarshalJSON decode "{}" a_log) in
  let l' := snd (UnmarshalJSON decode "{}" a_log) in
  (r = Ok tt ↔
   is_Some (dAddress required_only) ∧ is_Some (dTopics required_only) ∧
   is_Some (dData required_only) ∧ is_Some (dTxHash required_only)) ∧
  (r = Ok tt →
   dAddress required_only = Some (Address l') ∧ dTopics required_only = Topics l' ∧
   dData required_only = Some (Data l') ∧ dTxHash required_only = Some (TxHash l') ∧
   BlockNumber l' = default (BlockNumber a_log) (dBlockNumber required_only) ∧
   TxIndex l' = default (TxIndex a_log) (dTxIndex required_only) ∧
   BlockHash l' = default (BlockHash a_log) (dBlockHash required_only) ∧
   Index l' = default (Index a_log) (dIndex required_only) ∧
   Removed l' = default (Removed a_log) (dRemoved required_only) ∧
   Timestamp l' = default (Timestamp a_log) (dTimestamp required_only)) ∧
  (∀ a, dAddress required_only = Some a → dTopics required_only = None →
        r = Err (ErrMissing FTopics) ∧ Address l' = a ∧ Topics l' = Topics a_log).
Proof.
  intros decode r l'.
  apply (LogFacts.UnmarshalJSON_required_fields decode "{}" required_only a_log r l').
  - reflexivity.
  - reflexivity.
Defined.

(** A receiver that differs from [a_log] in every field. *)
Definition a_receiver : ErigonLog :=
  {| Address := "old"; Topics := None; Data := None; BlockNumber := 1;
     TxHash := "oldhash"; TxIndex := 3; BlockHash := "oldbh"; Index := 4;
     Removed := true; Timestamp := 5 |}.

Lemma UnmarshalJSON_all_fields_run :
  let decode := fun _ : string => inr (encoded a_log) in
  (Topics a_log ≠ None → UnmarshalJSON decode "{}" a_receiver = (Ok tt, a_log)) ∧
  (Topics a_log = None →
   fst (UnmarshalJSON decode "{}" a_receiver) = Err (ErrMissing FTopics)).
Proof.
  intros decode.
  apply (LogFacts.UnmarshalJSON_all_fields decode "{}" a_log a_receiver). reflexivity.
Defined.
